(** * Backtest performance engine (backtester.py)

    A shallow embedding of [annualization_factor] and [compute_performance]
    from [src/backtester.py], over IEEE-754 binary64 numbers (the [float64]
    of numpy and pandas, here Rocq's primitive [float]) and a pandas
    DataFrame modelled as a time index plus a dictionary of columns.

    The pandas and numpy operations the source calls ([pct_change],
    [fillna], [shift], [cumprod], [cummax], [mean], [std], [min],
    [infer_freq]) are written out with their NaN-skipping semantics.
    Every arithmetic operation is the correctly rounded binary64 one, NaN
    and the infinities included; the sum of a float array, whose order of
    additions numpy chooses by the length, is a parameter.

    The code raises where pandas does: [df[name]] on a missing column,
    [iloc[-1]] on an empty frame, [infer_freq] on fewer than three
    timestamps, [freq[0]] on an empty string.  It writes three columns
    into the DataFrame it is given, so the DataFrame is threaded through
    the computation as state.

    The development also embeds the callers and neighbours of that code:
    [MACrossover.generate_signals] (strategies/ma_crossover.py) and the
    run of a strategy in [main]; the parsing of the strategy parameters in
    [main]; [instantiate_strategies] (strategy_loader.py); and
    [fetch_interval_chunks] (get_data.py); and [compute_obv]
    (feature_engineering.py). *)

From Stdlib Require Import ZArith Lia Bool List String Ascii Floats.
From stdpp Require Import base option list gmap strings.
Import ListNotations.

Set Warnings "-inexact-float".

Local Open Scope Z_scope.

(** ** Binary64 numbers *)

Module F64.

(** numpy's conversion of an [int64] to [float64]: the nearest binary64,
    ties to even. *)
Definition of_Z (z : Z) : float :=
  SF2Prim (binary_normalize prec emax z 0 false).

Definition isnan (x : float) : bool := PrimFloat.is_nan x.

(** Neither NaN nor an infinity ([numpy.isfinite]). *)
Definition isfinite (x : float) : bool :=
  negb (PrimFloat.is_nan x) && negb (PrimFloat.is_infinity x).

Definition isinf (x : float) : bool := PrimFloat.is_infinity x.

(** [numpy.maximum] and [numpy.minimum] on two scalars: the inner loop
    is [(a >= b || isnan(a)) ? a : b], respectively with [<=]. *)
Definition maximum (a b : float) : float :=
  if (PrimFloat.leb b a || isnan a)%bool then a else b.

Definition minimum (a b : float) : float :=
  if (PrimFloat.leb a b || isnan a)%bool then a else b.

End F64.

(** ** The pandas and numpy operations on a column of floats *)

Module Pd.

(** A float64 column. *)
Abbreviation Series := (list float).

(** [Series.fillna(v)]. *)
Definition fillna (v : float) (s : Series) : Series :=
  (fun x => if F64.isnan x then v else x) <$> s.

(** [Series.shift(1)]: same length, NaN first, the last value dropped. *)
Definition shift (s : Series) : Series :=
  take (length s) (nan :: s).

(** [Series.ffill()], the [fill_method='pad'] default of [pct_change]:
    a NaN takes the last value seen before it, a leading NaN stays. *)
Fixpoint ffill_from (last : float) (s : Series) : Series :=
  match s with
  | [] => []
  | x :: t =>
      if F64.isnan x then last :: ffill_from last t
      else x :: ffill_from x t
  end.

Definition ffill (s : Series) : Series := ffill_from nan s.

(** [Series.pct_change()]: [data / data.shift(1) - 1] on the padded data. *)
Definition pct_change (s : Series) : Series :=
  let data := ffill s in
  zip_with (fun a b => (a / b - 1)%float) data (shift data).

(** [ufunc.accumulate]: [out[0] = a[0]], [out[i] = f out[i-1] a[i]]. *)
Fixpoint accumulate_from (f : float -> float -> float) (acc : float)
    (s : Series) : Series :=
  match s with
  | [] => []
  | x :: t => let a := f acc x in a :: accumulate_from f a t
  end.

Definition accumulate (f : float -> float -> float) (s : Series) : Series :=
  match s with
  | [] => []
  | x :: t => x :: accumulate_from f x t
  end.

(** pandas' cumulative functions with [skipna=True]: the NaN entries are
    replaced by the neutral value, the accumulation runs, and the NaN
    positions are put back. *)
Definition na_accum (f : float -> float -> float) (neutral : float)
    (s : Series) : Series :=
  zip_with (fun x r => if F64.isnan x then nan else r)
           s (accumulate f (fillna neutral s)).

Definition cumprod : Series -> Series := na_accum PrimFloat.mul 1%float.
Definition cummax : Series -> Series := na_accum F64.maximum neg_infinity.

(** [ufunc.reduce] over a non-empty array. *)
Definition reduce (f : float -> float -> float) (s : Series) : option float :=
  match s with
  | [] => None
  | x :: t => Some (fold_left f t x)
  end.

(** Number of entries that are not NaN. *)
Definition count (s : Series) : nat :=
  length (filter (fun x => F64.isnan x = false) s).

(** The sum of a column taken left to right: the order in which numpy
    adds below eight entries, and the instance of [np_sum] in the
    examples. *)
Definition sum (s : Series) : float := fold_left PrimFloat.add s 0%float.

Section Reductions.

(** [numpy.sum] on a float64 array.  From eight entries on numpy adds in
    blocks, so that the result can differ in the last bits from the sum
    taken left to right; the statistics take the sum as a parameter, and
    what is proved of them holds for numpy's. *)
Variable np_sum : Series -> float.

(** [Series.mean()], [nanops.nanmean]: the sum of the entries with NaN
    replaced by 0, over the number of non-NaN entries; NaN when there
    is none. *)
Definition mean (s : Series) : float :=
  let n := count s in
  if (0 <? n)%nat then (np_sum (fillna 0 s) / F64.of_Z (Z.of_nat n))%float
  else nan.

(** [Series.var()], [nanops.nanvar] with [ddof=1]: when the count does
    not exceed [ddof], count and divisor are NaN. *)
Definition var (s : Series) : float :=
  let n := count s in
  let cnt := if (n <=? 1)%nat then nan else F64.of_Z (Z.of_nat n) in
  let d := if (n <=? 1)%nat then nan else F64.of_Z (Z.of_nat n - 1) in
  let avg := (np_sum (fillna 0 s) / cnt)%float in
  let sqr :=
    zip_with (fun x v => if F64.isnan x then 0%float else v) s
             ((fun v => let dv := (avg - v)%float in (dv * dv)%float)
                <$> fillna 0 s) in
  (np_sum sqr / d)%float.

(** [Series.std()]. *)
Definition std (s : Series) : float := PrimFloat.sqrt (var s).

End Reductions.

(** [Series.min()], [nanops.nanmin]: NaN entries count as [+inf]; the
    result is NaN when no entry is left. *)
Definition min (s : Series) : float :=
  match reduce F64.minimum (fillna infinity s) with
  | Some r => if (0 <? count s)%nat then r else nan
  | None => nan
  end.

(** [Series.iloc[-1]]. *)
Definition iloc_last (s : Series) : option float := last s.

End Pd.

(** ** DataFrames *)

(** A column holds [int64] or [float64] values. *)
Inductive column :=
  | IntCol (l : list Z)
  | FloatCol (l : list float).

(** A DataFrame: a [DatetimeIndex] (nanoseconds since the epoch) and a
    dictionary from column names to columns. *)
Record DataFrame := mkDF {
  df_index : list Z;
  df_cols : gmap string column
}.

Definition col_length (c : column) : nat :=
  match c with
  | IntCol l => length l
  | FloatCol l => length l
  end.

(** The column as [float64], as an arithmetic operation or [shift] sees it. *)
Definition to_floats (c : column) : Pd.Series :=
  match c with
  | IntCol l => F64.of_Z <$> l
  | FloatCol l => l
  end.

(** The exceptions the code can raise. *)
Inductive exn := KeyError | IndexError | ValueError.

(** Code that reads and updates the caller's DataFrame and may raise: the
    DataFrame is an object shared with the caller, so what was written
    before an exception stays written. *)
Definition M (A : Type) : Type := DataFrame -> (exn + A) * DataFrame.

Definition ret {A} (a : A) : M A := fun df => (inr a, df).
Definition raise {A} (e : exn) : M A := fun df => (inl e, df).
Definition bind {A B} (c : M A) (k : A -> M B) : M B :=
  fun df =>
    match c df with
    | (inl e, df') => (inl e, df')
    | (inr a, df') => k a df'
    end.

Declare Scope df_scope.
Delimit Scope df_scope with df.
Notation "'let!' x ':=' c 'in' k" := (bind c (fun x => k))
  (at level 10, x name, c at level 100, k at level 200) : df_scope.
Notation "'do!' c 'in' k" := (bind c (fun _ => k))
  (at level 10, c at level 100, k at level 200) : df_scope.

(** [df[name]]. *)
Definition getitem (name : string) : M column :=
  fun df =>
    match df_cols df !! name with
    | Some c => (inr c, df)
    | None => (inl KeyError, df)
    end.

(** [df[name] = series], for a series on the DataFrame's own index. *)
Definition setitem (name : string) (s : Pd.Series) : M unit :=
  fun df => (inr tt, mkDF (df_index df) (<[name := FloatCol s]> (df_cols df))).

(** [df.index]. *)
Definition get_index : M (list Z) := fun df => (inr (df_index df), df).

Definition lift_option {A} (e : exn) (o : option A) : M A :=
  match o with
  | Some a => ret a
  | None => raise e
  end.

Definition lift_result {A} (r : exn + A) : M A :=
  match r with
  | inl e => raise e
  | inr a => ret a
  end.

(** ** annualization_factor *)

(** The dictionary of [annualization_factor]; in Python [252 * 6.5] and
    [252 * 6.5 * 4] are float products. *)
Definition mapping : gmap string float :=
  <["D" := 252%float]>
  (<["B" := 252%float]>
  (<["H" := (252 * 6.5)%float]>
  (<["T" := (252 * 6.5 * 4)%float]> ∅))).

(** [freq[0]]: the one-character string at position 0. *)
Definition str_index0 (s : string) : exn + string :=
  match s with
  | EmptyString => inl IndexError
  | String c _ => inr (String c EmptyString)
  end.

(** [mapping.get(freq[0], 252)]. *)
Definition annualization_factor (freq : string) : exn + float :=
  match str_index0 freq with
  | inl e => inl e
  | inr k => inr (default 252%float (mapping !! k))
  end.

(** ** compute_performance *)

Record performance := mkPerf {
  total_return : float;
  annual_return : float;
  annual_volatility : float;
  sharpe_ratio : float;
  max_drawdown : float;
  equity_series : Pd.Series;
  returns_series : Pd.Series
}.

(** Python's [x or 'D'] on the result of [infer_freq]: [None] and the
    empty string are falsy. *)
Definition or_default (o : option string) (d : string) : string :=
  match o with
  | Some EmptyString | None => d
  | Some s => s
  end.

(** Line 35, the column [price_ret]:
    [df[price_col].pct_change().fillna(0)]. *)
Definition price_ret (price : column) : Pd.Series :=
  Pd.fillna 0 (Pd.pct_change (to_floats price)).

(** Line 38, the column [strat_ret]:
    [df[signal_col].shift(1).fillna(0) * df['price_ret']]. *)
Definition strat_ret (signal price_returns : column) : Pd.Series :=
  zip_with PrimFloat.mul
    (Pd.fillna 0 (Pd.shift (to_floats signal))) (to_floats price_returns).

(** Line 41, the column [equity]:
    [(1 + df['strat_ret']).cumprod() * capital]. *)
Definition equity (strategy_returns : column) (capital : float) : Pd.Series :=
  (fun x => (x * capital)%float)
    <$> Pd.cumprod ((fun r => (1 + r)%float) <$> to_floats strategy_returns).

(** Lines 57-58: [running_max = df['equity'].cummax()] and
    [drawdown = df['equity'] / running_max - 1]. *)
Definition drawdown (curve : Pd.Series) : Pd.Series :=
  let running_max := Pd.cummax curve in
  zip_with (fun e m => (e / m - 1)%float) curve running_max.

(** Line 59: [max_dd = drawdown.min()]. *)
Definition max_dd (curve : Pd.Series) : float :=
  Pd.min (drawdown curve).

(** Line 54:
    [(mean_ret / std_ret) * np.sqrt(ann_factor) if std_ret != 0 else np.nan]. *)
Definition sharpe (mean_ret std_ret ann_factor : float) : float :=
  if negb (PrimFloat.eqb std_ret 0%float)
  then (mean_ret / std_ret * PrimFloat.sqrt ann_factor)%float
  else nan.

Section ComputePerformance.

(** The library functions the code calls that are not written out above:
    the sum of numpy behind [mean] and [std], the frequency inference of
    pandas on an index of at least three timestamps, and the power
    function behind Python's [**]. *)
Variable np_sum : Pd.Series -> float.
Variable infer_freq_core : list Z -> option string.
Variable pow : float -> float -> float.

(** [pd.infer_freq(index)]: pandas raises [ValueError] ("Need at least 3
    dates to infer frequency") on a shorter index, and returns [None]
    when it finds no regular frequency. *)
Definition infer_freq (index : list Z) : exn + option string :=
  if (length index <? 3)%nat then inl ValueError
  else inr (infer_freq_core index).

Local Open Scope df_scope.

Definition compute_performance (signal_col price_col : string)
    (capital : float) : M performance :=
  (* 1) period returns of the price *)
  let! c_price := getitem price_col in
  do! setitem "price_ret" (price_ret c_price) in
  (* 2) strategy return: previous signal * price return *)
  let! c_signal := getitem signal_col in
  let! c_price_ret := getitem "price_ret" in
  do! setitem "strat_ret" (strat_ret c_signal c_price_ret) in
  (* 3) cumulative equity curve *)
  let! c_strat_ret := getitem "strat_ret" in
  do! setitem "equity" (equity c_strat_ret capital) in
  (* 4) metrics *)
  let! c_equity := getitem "equity" in
  let! last_equity :=
    lift_option IndexError (Pd.iloc_last (to_floats c_equity)) in
  let total_ret := (last_equity / capital - 1)%float in
  let! c_strat_ret := getitem "strat_ret" in
  let mean_ret := Pd.mean np_sum (to_floats c_strat_ret) in
  let std_ret := Pd.std np_sum (to_floats c_strat_ret) in
  (* data frequency and annualization *)
  let! index := get_index in
  let! inferred := lift_result (infer_freq index) in
  let freq := or_default inferred "D" in
  let! ann_factor := lift_result (annualization_factor freq) in
  let ann_ret := (pow (1 + mean_ret) ann_factor - 1)%float in
  let ann_vol := (std_ret * PrimFloat.sqrt ann_factor)%float in
  let sharpe_r := sharpe mean_ret std_ret ann_factor in
  (* maximum drawdown *)
  let! c_equity := getitem "equity" in
  let max_drawdown_r := max_dd (to_floats c_equity) in
  let! equity_out := getitem "equity" in
  let! returns_out := getitem "strat_ret" in
  ret (mkPerf total_ret ann_ret ann_vol sharpe_r max_drawdown_r
              (to_floats equity_out) (to_floats returns_out)).

End ComputePerformance.

(** ** Example inputs *)

(** Instances of the two library functions for the examples: an index on
    which pandas infers no frequency (the code then takes ['D']), and a
    power by repeated multiplication for the integral exponents the code
    passes (it stands for the C library's [pow], which no statement below
    depends on). *)
Definition infer_none : list Z -> option string := fun _ => None.

Definition float_to_nat (y : float) : nat :=
  match Prim2SF y with
  | S754_finite false m e =>
      Z.to_nat (if 0 <=? e then Zpos m * 2 ^ e else Zpos m / 2 ^ (- e))
  | _ => 0%nat
  end.

Definition example_pow (x y : float) : float :=
  Nat.iter (float_to_nat y) (fun acc => (acc * x)%float) 1%float.

Definition frame (index : list Z) (close : list float) (signal : list Z)
    : DataFrame :=
  mkDF index (<["Close" := FloatCol close]> (<["signal" := IntCol signal]> ∅)).

(** The scenario of the specification. *)
Definition scenario : DataFrame :=
  frame [0; 1; 2; 3; 4] [100; 110; 99; 99; 108.9]%float [1; 1; -1; 0; 0].


Definition zero_price_flat : DataFrame :=
  frame [0; 1; 2] [0; 1; 1]%float [0; 0; 0].

Definition zero_price_long : DataFrame :=
  frame [0; 1; 2] [0; 1; 2]%float [1; 1; 1].

Definition zero_price_reversal : DataFrame :=
  frame [0; 1; 2] [0; 1; 4]%float [1; -1; 0].

(** A rising price series with no position taken. *)
Definition flat_strategy : DataFrame :=
  frame [0; 1; 2] [100; 110; 121]%float [0; 0; 0].

(** A one-row input. *)
Definition one_row : DataFrame := frame [0] [100]%float [1].

(** Two rows with no position taken: the two strategy returns are 0 and
    their sample deviation is 0. *)
Definition two_rows_flat : DataFrame :=
  frame [0; 1] [100; 110]%float [0; 0].

(** A price of 0 while no position is held: the strategy return of the row
    after it is [0 * inf]. *)
Definition zero_price_skipped : DataFrame :=
  frame [0; 1; 2; 3; 4] [1; 0; 1; 2; 3]%float [0; 0; 1; 1; 1].

(** The values a strategy emits ([strategy_base.py]: a Series of
    {-1, 0, +1}). *)
Definition is_signal (s : Z) : Prop := s = (-1)%Z \/ s = 0%Z \/ s = 1%Z.

(** ** Definitions used by the proofs *)

(** Not NaN, as a proposition. *)
Definition notnan (x : float) : Prop := F64.isnan x = false.

(** What [binary_round_aux] returns, from the mantissa and the exponent
    its two rounding steps end with. *)
Definition bra_result (s : bool) (q : Z) (e : Z) : spec_float :=
  match q with
  | Z0 => S754_zero s
  | Zpos p => if e <=? 971 then S754_finite s p e else S754_infinity s
  | Zneg _ => S754_nan
  end.

(** 1.0 in the specification format. *)
Definition one_sf : spec_float := S754_finite false 4503599627370496 (-52).

(** Floats other than NaN compare as these keys do in the lexicographic
    order: sign class first, then exponent and mantissa, both reversed for
    negative numbers. *)
Definition key (x : spec_float) : Z * Z * Z :=
  match x with
  | S754_nan => (0, 0, 0)
  | S754_zero _ => (0, 0, 0)
  | S754_infinity true => (-2, 0, 0)
  | S754_infinity false => (2, 0, 0)
  | S754_finite true m e => (-1, - e, Zneg m)
  | S754_finite false m e => (1, e, Zpos m)
  end.

Definition lt3 (a b : Z * Z * Z) : Prop :=
  let '(a1, a2, a3) := a in
  let '(b1, b2, b3) := b in
  a1 < b1 \/ (a1 = b1 /\ (a2 < b2 \/ (a2 = b2 /\ a3 < b3))).

Definition le3 (a b : Z * Z * Z) : Prop :=
  let '(a1, a2, a3) := a in
  let '(b1, b2, b3) := b in
  a1 < b1 \/ (a1 = b1 /\ (a2 < b2 \/ (a2 = b2 /\ a3 <= b3))).

(** Classes of specification floats. *)
Definition not_nan (x : spec_float) : Prop :=
  match x with S754_nan => False | _ => True end.

Definition finite_sf (x : spec_float) : Prop :=
  match x with
  | S754_zero _ | S754_finite _ _ _ => True
  | _ => False
  end.

(** ** MACrossover (strategies/ma_crossover.py) *)

(** An instance of [MACrossover]: the two window lengths, integers as
    the signature [__init__(self, fast: int = 10, slow: int = 50)]
    declares them. *)
Record MACrossover := mkMACrossover {
  fast : Z;
  slow : Z
}.

(** [MACrossover(fast=..., slow=...)]: an argument that is not given takes
    its default. *)
Definition MACrossover_init (fast slow : option Z) : MACrossover :=
  mkMACrossover (default 10 fast) (default 50 slow).

Definition get_name (self : MACrossover) : string := "ma_crossover".

Definition get_params (self : MACrossover) : list (string * Z) :=
  [("fast"%string, fast self); ("slow"%string, slow self)].

(** [df[name] = series] for an [int64] series. *)
Definition setitem_int (name : string) (s : list Z) : M unit :=
  fun df => (inr tt, mkDF (df_index df) (<[name := IntCol s]> (df_cols df))).

(** [signals[mask] = v] for a boolean mask on the same index. *)
Definition mask_assign (signals : list Z) (mask : list bool) (v : Z) : list Z :=
  imap (fun i x => if default false (mask !! i) then v else x) signals.

Section Strategy.

(** The number pandas' windowed mean gives at position [i] of a column
    when the window of length [w] that ends there holds [w] numbers.
    pandas computes it with a running compensated sum over the column, so
    it depends on the column and the position, not only on the window. *)
Variable window_mean : nat -> Pd.Series -> nat -> float.

(** The entries [i-w+1 .. i] of the column. *)
Definition window_at (w : nat) (s : Pd.Series) (i : nat) : Pd.Series :=
  take w (drop (S i - w) s).

(** [min_periods] is the window length: a position has a value when its
    window is not empty, starts inside the column and holds no NaN. *)
Definition window_full (w : nat) (s : Pd.Series) (i : nat) : bool :=
  (0 <? w)%nat && (w <=? S i)%nat &&
  forallb (fun x => negb (F64.isnan x)) (window_at w s i).

(** [Series.rolling(window).mean()] for an integer window: pandas raises
    [ValueError] ("window must be an integer 0 or greater") on a negative
    one. *)
Definition rolling_mean (window : Z) (s : Pd.Series) : exn + Pd.Series :=
  if window <? 0 then inl ValueError
  else
    let w := Z.to_nat window in
    inr (imap (fun i _ => if window_full w s i then window_mean w s i else nan) s).

Local Open Scope df_scope.

(** Lines 20-28 of [ma_crossover.py]. *)
Definition generate_signals (self : MACrossover) : M (list Z) :=
  let! close := getitem "Close" in
  let! ma_fast := lift_result (rolling_mean (fast self) (to_floats close)) in
  let! close := getitem "Close" in
  let! ma_slow := lift_result (rolling_mean (slow self) (to_floats close)) in
  let cross_up :=
    zip_with andb
      (zip_with PrimFloat.ltb (Pd.shift ma_fast) (Pd.shift ma_slow))
      (zip_with (fun f s => PrimFloat.leb s f) ma_fast ma_slow) in
  let cross_down :=
    zip_with andb
      (zip_with (fun f s => PrimFloat.ltb s f) (Pd.shift ma_fast) (Pd.shift ma_slow))
      (zip_with PrimFloat.leb ma_fast ma_slow) in
  let! index := get_index in
  let signals := replicate (length index) 0 in
  let signals := mask_assign signals cross_up 1 in
  let signals := mask_assign signals cross_down (-1) in
  ret signals.

(** ** The run of a strategy in [main] (backtester.py, lines 123-127) *)

Variable np_sum : Pd.Series -> float.
Variable infer_freq_core : list Z -> option string.
Variable pow : float -> float -> float.

Definition main_backtest (strat : MACrossover) (capital : float)
    : M performance :=
  let! signals := generate_signals strat in
  do! setitem_int "signal" signals in
  compute_performance np_sum infer_freq_core pow "signal" "Close" capital.

End Strategy.

(** An instance of the windowed mean for the examples: the sum of the
    window, left to right, over its length. *)
Definition example_window_mean (w : nat) (s : Pd.Series) (i : nat) : float :=
  (Pd.sum (window_at w s i) / F64.of_Z (Z.of_nat w))%float.

(** Prices that fall and then rise, so that the 1-row mean crosses the
    2-row mean downwards and then upwards. *)
Definition crossing_prices : DataFrame :=
  mkDF [0; 1; 2; 3; 4; 5; 6]
       (<["Close" := FloatCol [10; 11; 12; 9; 8; 10; 13]%float]> ∅).

(** ** The strategy parameters of [main] (backtester.py, lines 105-117) *)

(** The values a parameter can take: an [int], a [float] or the text
    itself. *)
Inductive value :=
  | VInt (n : Z)
  | VFloat (x : float)
  | VStr (s : string).

(** [c in s] for a one-character string [c]. *)
Fixpoint str_contains (c : ascii) (s : string) : bool :=
  match s with
  | EmptyString => false
  | String a t => Ascii.eqb a c || str_contains c t
  end.

(** [s.split(c, 1)]: the text before the first [c] and, when there is a
    [c], the text after it; a list of one or two strings in Python. *)
Fixpoint split1 (c : ascii) (s : string) : string * option string :=
  match s with
  | EmptyString => (EmptyString, None)
  | String a t =>
      if Ascii.eqb a c then (EmptyString, Some t)
      else let '(h, r) := split1 c t in (String a h, r)
  end.

Section Params.

(** Python's [int(v)] and [float(v)] on a string; [None] stands for the
    [ValueError] they raise on a text they do not accept. *)
Variable py_int : string -> option Z.
Variable py_float : string -> option float.

(** Lines 111-117: [int(v)], else [float(v)], else [v] itself. *)
Definition parse_value (v : string) : value :=
  match py_int v with
  | Some n => VInt n
  | None =>
      match py_float v with
      | Some x => VFloat x
      | None => VStr v
      end
  end.

(** One turn of the loop of line 107; [k, v = kv.split('=', 1)] raises
    [ValueError] when the list has one element. *)
Definition parse_param (init_args : gmap string value) (kv : string)
    : exn + gmap string value :=
  if negb (str_contains "=" kv) then inr init_args
  else
    match split1 "=" kv with
    | (k, Some v) => inr (<[k := parse_value v]> init_args)
    | (_, None) => inl ValueError
    end.

Fixpoint parse_params (params : list string) (init_args : gmap string value)
    : exn + gmap string value :=
  match params with
  | [] => inr init_args
  | kv :: rest =>
      match parse_param init_args kv with
      | inl e => inl e
      | inr init_args' => parse_params rest init_args'
      end
  end.

End Params.

(** ** instantiate_strategies (strategy_loader.py, lines 25-40) *)

(** How a generator ends: it is exhausted, or the call of the class on
    the keyword arguments [params] raised [TypeError]. *)
Inductive generator_end := Exhausted | Raised_TypeError.

Section Loader.

(** The values of the parameter grid and the strategy instances. *)
Context {V I : Type}.

(** A strategy class: the names [cls.__init__.__code__.co_varnames] and
    the call of the class on the keyword arguments [params], in the order
    of the dictionary, [None] when the call raises [TypeError]. *)
Record strategy_class := mkClass {
  co_varnames : list string;
  construct : list (string * V) -> option I
}.

(** [itertools.product] on the pools [values]: the last pool varies fastest; no pool
    gives the one empty tuple. *)
Fixpoint product (values : list (list V)) : list (list V) :=
  match values with
  | [] => [[]]
  | pool :: rest => x ← pool; (fun combo => x :: combo) <$> product rest
  end.

(** Lines 35-39 for one class.  [param_grid] is the dictionary as the list
    of its items in insertion order, so [keys] and [values] are the two
    components of the items whose key is a variable name of [__init__]. *)
Definition class_instances (cls : strategy_class)
    (param_grid : list (string * list V)) : list (option I) :=
  let items :=
    filter (fun item => item.1 ∈ co_varnames cls) param_grid in
  let keys := items.*1 in
  let values := items.*2 in
  (fun combo => construct cls (zip keys combo)) <$> product values.

(** The instances a generator yields until it ends. *)
Fixpoint yields (steps : list (option I)) : list I * generator_end :=
  match steps with
  | [] => ([], Exhausted)
  | Some instance :: rest =>
      let '(l, e) := yields rest in (instance :: l, e)
  | None :: _ => ([], Raised_TypeError)
  end.

Definition instantiate_strategies (strat_classes : list strategy_class)
    (param_grid : list (string * list V)) : list I * generator_end :=
  yields (cls ← strat_classes; class_instances cls param_grid).

End Loader.

Arguments strategy_class : clear implicits.

(** The call of [MACrossover] on keyword arguments: [fast] and [slow]
    are the only keywords the signature accepts; any other one, [self] included, is a [TypeError]. *)
Fixpoint MACrossover_call (kwargs : list (string * Z)) (fast slow : option Z)
    : option MACrossover :=
  match kwargs with
  | [] => Some (MACrossover_init fast slow)
  | (k, v) :: rest =>
      if String.eqb k "fast" then MACrossover_call rest (Some v) slow
      else if String.eqb k "slow" then MACrossover_call rest fast (Some v)
      else None
  end.

Definition MACrossover_class : strategy_class Z MACrossover :=
  mkClass ["self"; "fast"; "slow"]%string
          (fun kwargs => MACrossover_call kwargs None None).

(** [param_grid.get(k)] on the list of items. *)
Fixpoint dict_get {V} (k : string) (d : list (string * V)) : option V :=
  match d with
  | [] => None
  | (k', v) :: rest => if String.eqb k' k then Some v else dict_get k rest
  end.

(** The grid of the module's example. *)
Definition example_grid : list (string * list Z) :=
  [("fast"%string, [5; 10; 20]); ("slow"%string, [30; 50; 100])].

(** Instances of [int] and [float] for the examples: decimal digits only. *)
Fixpoint digits_value (s : string) (acc : Z) : option Z :=
  match s with
  | EmptyString => Some acc
  | String a t =>
      let n := Z.of_nat (nat_of_ascii a) in
      if (48 <=? n) && (n <=? 57) then digits_value t (10 * acc + (n - 48))
      else None
  end.

Definition example_int (s : string) : option Z :=
  match s with
  | EmptyString => None
  | _ => digits_value s 0
  end.

Definition example_float (s : string) : option float :=
  F64.of_Z <$> example_int s.

(** ** fetch_interval_chunks (get_data.py, lines 7-60) *)

(** A [datetime] without time zone is the number of microseconds since
    the epoch, between [datetime.min] (0001-01-01 00:00:00) and
    [datetime.max] (9999-12-31 23:59:59.999999); a [timedelta] is a number
    of microseconds. *)
Definition datetime_min : Z := -62135596800000000.
Definition datetime_max : Z := 253402300799999999.

Definition timedelta (days : Z) : Z := days * 86400000000.

(** [t + d] for a datetime [t] and a timedelta [d]: Python raises
    [OverflowError] when the sum is not a datetime ([None] here). *)
Definition datetime_add (t d : Z) : option Z :=
  if (datetime_min <=? t + d) && (t + d <=? datetime_max) then Some (t + d)
  else None.

(** [t.strftime("%Y-%m-%d")]: the day of a datetime, as a day number. *)
Definition strftime (t : Z) : Z := t / 86400000000.

Definition MAX_LOOKBACK : gmap string (option Z) :=
  <["15m" := Some (timedelta 60)]>
  (<["1h" := Some (timedelta 730)]>
  (<["1d" := None]>
  (<["1wk" := None]> ∅))).

Definition INTERVALS : gmap string string :=
  <["15m" := "15m"%string]>
  (<["1h" := "60m"%string]>
  (<["1d" := "1d"%string]>
  (<["1wk" := "1wk"%string]> ∅))).

(** What the function can raise: the [KeyError] of a dictionary lookup,
    the [OverflowError] of a datetime sum, or whatever the download
    raised. *)
Inductive fetch_error := Fetch_KeyError | Fetch_OverflowError | Download_error.

(** [index.duplicated(keep='first')]: true where the label occurred at an
    earlier position. *)
Definition duplicated (index : list Z) : list bool :=
  imap (fun i t => bool_decide (t ∈ take i index)) index.

(** A frame of downloaded prices: its rows in order, each with its
    timestamp.  The frames of one ticker and interval have the same
    columns, at least one, so a frame is empty when it has no row and
    [pd.concat] puts the rows of the frames one after the other. *)
Abbreviation price_frame row := (list (Z * row)).

(** What a call of [yf.download] does: it returns a frame, or raises an
    exception of the class [Exception], which the [except] of line 51
    catches, or raises another one ([KeyboardInterrupt], [SystemExit]),
    which it does not catch. *)
Inductive download_result (row : Type) :=
  | Downloaded (df : price_frame row)
  | Raised_Exception
  | Raised_BaseException.

Arguments Downloaded {row} df.
Arguments Raised_Exception {row}.
Arguments Raised_BaseException {row}.

Section Fetch.

(** The rows of the price frames, whatever their columns are. *)
Variable row : Type.

(** [yf.download(tickers=ticker, start=..., end=..., interval=...)] on
    the two day strings. *)
Variable download : string -> Z -> Z -> string -> download_result row.

(** [df.empty]. *)
Definition frame_empty (df : price_frame row) : bool :=
  match df with [] => true | _ => false end.

(** [df[~df.index.duplicated(keep='first')]]. *)
Definition drop_duplicated (df : price_frame row) : price_frame row :=
  (filter (fun r => r.2 = false) (zip df (duplicated df.*1))).*1.

(** The loop of lines 37-53: the list [dfs] it ends with, or the exception
    that leaves it, the [OverflowError] of line 38 or an exception of the
    download that line 51 does not catch.  [windows] records the window of
    each turn, the one line 39 prints; the printing itself is left out.
    [fuel] bounds the number of turns; the result is [None] when the loop
    has not ended within it. *)
Fixpoint chunk_loop (fuel : nat) (ticker yf_interval : string)
    (max_delta end_ : Z) (window_start : Z)
    (dfs : list (price_frame row)) (windows : list (Z * Z))
    : option ((fetch_error + list (price_frame row)) * list (Z * Z)) :=
  match fuel with
  | O => None
  | S fuel' =>
      if window_start <? end_ then
        match datetime_add window_start max_delta with
        | None => Some (inl Fetch_OverflowError, windows)
        | Some t =>
            let window_end := Z.min t end_ in
            let windows' := windows ++ [(window_start, window_end)] in
            match download ticker (strftime window_start)
                           (strftime window_end) yf_interval with
            | Downloaded df_chunk =>
                chunk_loop fuel' ticker yf_interval max_delta end_ window_end
                  (if frame_empty df_chunk then dfs else dfs ++ [df_chunk])
                  windows'
            | Raised_Exception =>
                chunk_loop fuel' ticker yf_interval max_delta end_ window_end
                  dfs windows'
            | Raised_BaseException => Some (inl Download_error, windows')
            end
        end
      else Some (inr dfs, windows)
  end.

(** Lines 22-60.  The result is the exception or the frame, with the
    windows that were downloaded one by one. *)
Definition fetch_interval_chunks (fuel : nat) (ticker interval_key : string)
    (start end_ : Z)
    : option ((fetch_error + price_frame row) * list (Z * Z)) :=
  match MAX_LOOKBACK !! interval_key with
  | None => Some (inl Fetch_KeyError, [])
  | Some max_delta =>
      match INTERVALS !! interval_key with
      | None => Some (inl Fetch_KeyError, [])
      | Some yf_interval =>
          match max_delta with
          | None =>
              match download ticker (strftime start) (strftime end_)
                             yf_interval with
              | Downloaded df => Some (inr df, [])
              | Raised_Exception | Raised_BaseException =>
                  Some (inl Download_error, [])
              end
          | Some max_delta =>
              match chunk_loop fuel ticker yf_interval max_delta end_
                               start [] [] with
              | None => None
              | Some (inl e, windows) => Some (inl e, windows)
              | Some (inr dfs, windows) =>
                  match dfs with
                  | [] => Some (inr [], windows)
                  | _ => Some (inr (drop_duplicated (concat dfs)), windows)
                  end
              end
          end
      end
  end.

End Fetch.

(** A download for the examples: one row at the first microsecond of the
    start day and one at the first microsecond of the end day, so that
    consecutive windows overlap in one row. *)
Definition example_download (ticker : string) (start end_ : Z)
    (interval : string) : download_result Z :=
  Downloaded [(start * 86400000000, start); (end_ * 86400000000, end_)].





(** ** compute_obv (feature_engineering.py, lines 35-37) *)

(** The value an [int64] operation stores: the result modulo [2^64], in
    the range from [-2^63]. *)
Definition wrap64 (z : Z) : Z := (z + 2 ^ 63) mod 2 ^ 64 - 2 ^ 63.

(** [Series.diff()] on an [int64] column: NaN in the first row, then the
    difference with the row before, subtracted as [int64] and stored as
    [float64]. *)
Definition int_diff (l : list Z) : Pd.Series :=
  zip_with (fun cur prev =>
              match prev with
              | Some p => F64.of_Z (wrap64 (cur - p))
              | None => nan
              end)
           l (None :: (Some <$> l)).

(** [Series.diff()]: the difference with the row before, taken in the
    dtype of the column; for floats, [s - s.shift(1)]. *)
Definition series_diff (c : column) : Pd.Series :=
  match c with
  | IntCol l => int_diff l
  | FloatCol s => zip_with PrimFloat.sub s (Pd.shift s)
  end.

(** [numpy.sign] on a float: [x > 0 ? 1 : (x < 0 ? -1 : (x == 0 ? 0 : x))],
    so NaN for NaN. *)
Definition np_sign (x : float) : float :=
  if PrimFloat.ltb 0 x then 1%float
  else if PrimFloat.ltb x 0 then (-1)%float
  else if PrimFloat.eqb x 0 then 0%float
  else x.

(** [Series.cumsum()], skipping NaN as [cumprod] does. *)
Definition series_cumsum : Pd.Series -> Pd.Series := Pd.na_accum PrimFloat.add 0%float.

Local Open Scope df_scope.

Definition compute_obv : M Pd.Series :=
  let! close := getitem "Close" in
  let direction := Pd.fillna 0 (np_sign <$> series_diff close) in
  let! volume := getitem "Volume" in
  ret (series_cumsum (zip_with PrimFloat.mul direction (to_floats volume))).

Local Close Scope df_scope.

(** Prices that rise, stay, fall and are missing, with their volumes. *)
Definition obv_example : DataFrame :=
  mkDF [0; 1; 2; 3; 4; 5]
       (<["Close" := FloatCol [10; 11; 11; 9; nan; 12]%float]>
          (<["Volume" := IntCol [100; 200; 300; 400; 500; 600]]> ∅)).

(** Integer prices that a [float64] cannot tell apart. *)
Definition obv_int_example : DataFrame :=
  mkDF [0; 1; 2]
       (<["Close" := IntCol [9007199254740992; 9007199254740993;
                             9007199254740992]]>
          (<["Volume" := IntCol [1; 1; 1]]> ∅)).


(** * Properties *)

(** ** Binary64 arithmetic *)

Local Open Scope Z_scope.

Lemma fexp_eq k : fexp prec emax k = Z.max (k - 53) (-1074).
Proof. reflexivity. Qed.

Lemma digits2_pos_bounds p :
  2 ^ (Zpos (digits2_pos p) - 1) <= Zpos p < 2 ^ Zpos (digits2_pos p).
Proof.
  induction p as [p IH|p IH|]; simpl digits2_pos.
  - rewrite Pos2Z.inj_succ.
    replace (Z.succ (Zpos (digits2_pos p)) - 1) with (Z.succ (Zpos (digits2_pos p) - 1)) by lia.
    rewrite !Z.pow_succ_r by lia. lia.
  - rewrite Pos2Z.inj_succ.
    replace (Z.succ (Zpos (digits2_pos p)) - 1) with (Z.succ (Zpos (digits2_pos p) - 1)) by lia.
    rewrite !Z.pow_succ_r by lia. lia.
  - simpl. lia.
Qed.

Lemma Zdigits2_bounds m : 0 < m ->
  2 ^ (Zdigits2 m - 1) <= m < 2 ^ Zdigits2 m.
Proof.
  destruct m as [|p|p]; try lia. intros _. apply digits2_pos_bounds.
Qed.

Lemma Zdigits2_nonneg m : 0 <= Zdigits2 m.
Proof. destruct m; simpl; lia. Qed.

Lemma Zdigits2_pos m : 0 < m -> 0 < Zdigits2 m.
Proof. destruct m; simpl; lia. Qed.

Lemma Zdigits2_le_of_lt m k : 0 <= m -> 0 <= k -> m < 2 ^ k -> Zdigits2 m <= k.
Proof.
  intros Hm Hk Hlt.
  destruct (Z.eq_dec m 0) as [->|Hne]; [simpl; lia|].
  destruct (Zdigits2_bounds m ltac:(lia)) as [Hlo _].
  destruct (Z_le_gt_dec (Zdigits2 m) k) as [|Hgt]; [assumption|].
  exfalso.
  assert (2 ^ k <= 2 ^ (Zdigits2 m - 1)) by (apply Z.pow_le_mono_r; lia).
  lia.
Qed.

Lemma Zdigits2_gt_of_ge m k : 0 <= k -> 2 ^ k <= m -> k < Zdigits2 m.
Proof.
  intros Hk Hle.
  assert (0 < 2 ^ k) by (apply Z.pow_pos_nonneg; lia).
  destruct (Zdigits2_bounds m ltac:(lia)) as [_ Hhi].
  destruct (Z_lt_le_dec k (Zdigits2 m)) as [|Hge]; [assumption|].
  exfalso.
  assert (2 ^ Zdigits2 m <= 2 ^ k) by (apply Z.pow_le_mono_r; lia).
  lia.
Qed.

Lemma Zdigits2_mono a b : 0 <= a <= b -> Zdigits2 a <= Zdigits2 b.
Proof.
  intros [Ha Hab].
  destruct (Z.eq_dec b 0) as [->|Hb].
  - assert (a = 0) by lia. subst. lia.
  - apply Zdigits2_le_of_lt; [lia|apply Zdigits2_nonneg|].
    destruct (Zdigits2_bounds b ltac:(lia)). lia.
Qed.

(** *** Right shifts that keep the rounding bits *)

Lemma shr_1_spec mrs : 0 <= shr_m mrs ->
  shr_m (shr_1 mrs) = Z.shiftr (shr_m mrs) 1 /\
  shr_r (shr_1 mrs) = Z.testbit (shr_m mrs) 0.
Proof.
  destruct mrs as [m r s]; simpl. intros Hm.
  destruct m as [|[p|p|]|p]; try lia; simpl; auto.
Qed.

Lemma iter_shr_1_spec p : forall mrs, 0 <= shr_m mrs ->
  shr_m (SpecFloat.iter_pos shr_1 p mrs) = Z.shiftr (shr_m mrs) (Zpos p) /\
  shr_r (SpecFloat.iter_pos shr_1 p mrs) = Z.testbit (shr_m mrs) (Zpos p - 1).
Proof.
  induction p as [p IH|p IH|]; intros mrs Hm.
  - cbn [SpecFloat.iter_pos].
    destruct (shr_1_spec mrs Hm) as [H1m H1r].
    assert (H1n : 0 <= shr_m (shr_1 mrs)) by (rewrite H1m; apply Z.shiftr_nonneg; lia).
    destruct (IH _ H1n) as [H2m H2r].
    assert (H2n : 0 <= shr_m (SpecFloat.iter_pos shr_1 p (shr_1 mrs)))
      by (rewrite H2m; apply Z.shiftr_nonneg; lia).
    destruct (IH _ H2n) as [H3m H3r].
    rewrite H3m, H3r, H2m, H1m.
    rewrite !Z.shiftr_shiftr by lia.
    rewrite !Z.shiftr_spec by lia.
    split; f_equal; lia.
  - cbn [SpecFloat.iter_pos].
    destruct (IH _ Hm) as [H2m H2r].
    assert (H2n : 0 <= shr_m (SpecFloat.iter_pos shr_1 p mrs))
      by (rewrite H2m; apply Z.shiftr_nonneg; lia).
    destruct (IH _ H2n) as [H3m H3r].
    rewrite H3m, H3r, H2m.
    rewrite !Z.shiftr_shiftr by lia.
    rewrite !Z.shiftr_spec by lia.
    split; f_equal; lia.
  - cbn [SpecFloat.iter_pos]. apply shr_1_spec; assumption.
Qed.

Lemma testbit_round_up m n : 0 <= m -> 0 < n ->
  Z.testbit m (n - 1) = true ->
  (2 * (m / 2 ^ n) + 1) * 2 ^ n <= 2 * m.
Proof.
  intros Hm Hn Hb.
  apply Z.testbit_true in Hb; [|lia].
  set (h := m / 2 ^ (n - 1)) in *.
  assert (Hpow : 2 ^ n = 2 * 2 ^ (n - 1)).
  { replace n with (Z.succ (n - 1)) at 1 by lia. apply Z.pow_succ_r. lia. }
  assert (Hp : 0 < 2 ^ (n - 1)) by (apply Z.pow_pos_nonneg; lia).
  assert (Hq : m / 2 ^ n = h / 2).
  { rewrite Hpow. unfold h. rewrite Z.mul_comm. rewrite <- Z.div_div by lia. reflexivity. }
  rewrite Hq.
  assert (Hh : h = 2 * (h / 2) + 1).
  { pose proof (Z.div_mod h 2 ltac:(lia)). lia. }
  assert (Hm' : 2 ^ (n - 1) * h <= m).
  { unfold h. apply Z.mul_div_le. lia. }
  rewrite Hpow. nia.
Qed.


Lemma loc_of_shr_record_of_loc m l :
  loc_of_shr_record (shr_record_of_loc m l) = l.
Proof. destruct l as [|[]]; reflexivity. Qed.

Lemma shr_m_record_of_loc m l : shr_m (shr_record_of_loc m l) = m.
Proof. destruct l as [|[]]; reflexivity. Qed.

Lemma shr_fexp_spec m e l : 0 <= m ->
  let E := Z.max e (fexp prec emax (Zdigits2 m + e)) in
  exists mrs,
    shr_fexp prec emax m e l = (mrs, E) /\
    shr_m mrs = m / 2 ^ (E - e) /\
    (E - e = 0 -> loc_of_shr_record mrs = l) /\
    (0 < E - e -> shr_r mrs = true ->
       (2 * (m / 2 ^ (E - e)) + 1) * 2 ^ (E - e) <= 2 * m).
Proof.
  intros Hm E. unfold shr_fexp, shr.
  destruct (fexp prec emax (Zdigits2 m + e) - e) as [|p|p] eqn:Hn.
  - exists (shr_record_of_loc m l).
    assert (HE : E = e) by (unfold E; lia).
    rewrite HE, Z.sub_diag. simpl (2 ^ 0). rewrite Z.div_1_r.
    repeat split; [apply shr_m_record_of_loc | intros; apply loc_of_shr_record_of_loc | lia].
  - exists (SpecFloat.iter_pos shr_1 p (shr_record_of_loc m l)).
    assert (HE : E = e + Zpos p) by (unfold E; lia).
    assert (Hd : E - e = Zpos p) by lia.
    rewrite Hd, HE.
    destruct (iter_shr_1_spec p (shr_record_of_loc m l)) as [H1 H2].
    { rewrite shr_m_record_of_loc; assumption. }
    rewrite shr_m_record_of_loc in H1, H2.
    repeat split.
    + rewrite H1. apply Z.shiftr_div_pow2. lia.
    + lia.
    + intros _ Hr. rewrite H2 in Hr. apply testbit_round_up; [assumption|lia|assumption].
  - exists (shr_record_of_loc m l).
    assert (HE : E = e) by (unfold E; lia).
    rewrite HE, Z.sub_diag. simpl (2 ^ 0). rewrite Z.div_1_r.
    repeat split; [apply shr_m_record_of_loc | intros; apply loc_of_shr_record_of_loc | lia].
Qed.

Lemma round_nearest_even_cases mrs :
  let q := round_nearest_even (shr_m mrs) (loc_of_shr_record mrs) in
  q = shr_m mrs \/
  (q = shr_m mrs + 1 /\ shr_r mrs = true).
Proof.
  destruct mrs as [m [|] [|]]; simpl; auto.
  destruct (Z.even m); auto.
Qed.

Lemma loc_of_shr_record_r mrs :
  shr_r mrs = true ->
  loc_of_shr_record mrs = loc_Inexact Eq \/ loc_of_shr_record mrs = loc_Inexact Gt.
Proof. destruct mrs as [m [|] [|]]; simpl; auto; discriminate. Qed.

(** The two steps of [binary_round_aux]: shift the mantissa [m] to the
    exponent [E1] of its format, round to nearest even (up only when the
    dropped part is at least half a unit), and shift once more if the
    rounding carried. *)
Lemma binary_round_aux_spec s m e l : 0 <= m ->
  let E1 := Z.max e (fexp prec emax (Zdigits2 m + e)) in
  let qs := m / 2 ^ (E1 - e) in
  exists q1,
    (q1 = qs \/
     (q1 = qs + 1 /\
      (0 < E1 - e -> (2 * qs + 1) * 2 ^ (E1 - e) <= 2 * m) /\
      (E1 - e = 0 -> l = loc_Inexact Eq \/ l = loc_Inexact Gt))) /\
    let E2 := Z.max E1 (fexp prec emax (Zdigits2 q1 + E1)) in
    binary_round_aux prec emax s m e l = bra_result s (q1 / 2 ^ (E2 - E1)) E2.
Proof.
  intros Hm E1 qs.
  destruct (shr_fexp_spec m e l Hm) as (mrs & Hshr & Hmrs & Hloc & Hup).
  fold E1 in Hshr, Hmrs, Hloc, Hup. fold qs in Hmrs, Hup.
  set (q1 := round_nearest_even (shr_m mrs) (loc_of_shr_record mrs)).
  exists q1.
  assert (Hqs : 0 <= qs).
  { unfold qs. apply Z.div_pos; [assumption|]. apply Z.pow_pos_nonneg; [lia|]. unfold E1; lia. }
  assert (Hq1 : 0 <= q1).
  { destruct (round_nearest_even_cases mrs) as [H|[H _]]; fold q1 in H; lia. }
  split.
  - destruct (round_nearest_even_cases mrs) as [H|[H Hr]]; fold q1 in H.
    + left. lia.
    + right. split; [lia|]. split.
      * intros Hpos. apply Hup; assumption.
      * intros Hz. rewrite <- (Hloc Hz). apply loc_of_shr_record_r; assumption.
  - intros E2.
    destruct (shr_fexp_spec q1 E1 loc_Exact Hq1) as (mrs2 & Hshr2 & Hmrs2 & _ & _).
    fold E2 in Hshr2, Hmrs2.
    unfold binary_round_aux. rewrite Hshr. fold q1. rewrite Hshr2.
    rewrite Hmrs2. unfold bra_result.
    reflexivity.
Qed.

(** *** The quotient of a positive float by a larger one *)

Lemma bounded_spec m e : bounded prec emax m e = true ->
  Z.max (Zpos (digits2_pos m) + e - 53) (-1074) = e /\ e <= 971.
Proof.
  unfold bounded, canonical_mantissa. rewrite fexp_eq.
  intros H. apply andb_true_iff in H. destruct H as [H1 H2].
  apply Z.eqb_eq in H1. apply Z.leb_le in H2. split; [assumption|].
  exact H2.
Qed.

Lemma new_location_up m r : 0 < m ->
  new_location m r = loc_Inexact Eq \/ new_location m r = loc_Inexact Gt ->
  m <= 2 * r.
Proof.
  intros Hm. unfold new_location, new_location_even, new_location_odd.
  destruct (Z.even m); destruct (Z.eqb_spec r 0) as [->|Hr].
  - intros [H|H]; discriminate.
  - destruct (Z.compare_spec (2 * r) m) as [H|H|H]; intros [H'|H']; try discriminate; lia.
  - intros [H|H]; discriminate.
  - destruct (Z.compare_spec (2 * r + 1) m) as [H|H|H]; intros [H'|H']; try discriminate; lia.
Qed.

Lemma SFdiv_core_binary_spec m1 e1 m2 e2 :
  let e' := Z.min (fexp prec emax (Zpos (digits2_pos m1) + e1 - (Zpos (digits2_pos m2) + e2))) (e1 - e2) in
  let s := e1 - e2 - e' in
  SFdiv_core_binary prec emax (Zpos m1) e1 (Zpos m2) e2 =
    ((Zpos m1 * 2 ^ s) / Zpos m2, e', new_location (Zpos m2) ((Zpos m1 * 2 ^ s) mod Zpos m2)).
Proof.
  intros e' s. unfold SFdiv_core_binary.
  cbn [Zdigits2]. fold e'. fold s.
  assert (Hs : 0 <= s).
  { unfold s, e'. generalize (fexp prec emax (Zpos (digits2_pos m1) + e1 - (Zpos (digits2_pos m2) + e2))). intros z; clear; lia. }
  assert (Hm' : match s with Z0 => Zpos m1 | Zpos _ => Z.shiftl (Zpos m1) s | Zneg _ => 0 end = Zpos m1 * 2 ^ s).
  { clearbody s. clear e'. destruct s as [|p|p].
    - rewrite Z.pow_0_r. lia.
    - rewrite Z.shiftl_mul_pow2 by lia. reflexivity.
    - lia. }
  rewrite Hm'.
  unfold Z.div, Z.modulo.
  destruct (Z.div_eucl (Zpos m1 * 2 ^ s) (Zpos m2)) as [q r]. reflexivity.
Qed.


Lemma pow2_pos k : 0 <= k -> 0 < 2 ^ k.
Proof. intros; apply Z.pow_pos_nonneg; lia. Qed.

Lemma pow2_ge k n : 0 <= k <= n -> 2 ^ k <= 2 ^ n.
Proof. intros; apply Z.pow_le_mono_r; lia. Qed.

Lemma bra_result_lt_one q E : 0 <= q -> E <= -53 ->
  SFltb (bra_result false q E) one_sf = true.
Proof.
  intros Hq HE. unfold bra_result.
  destruct q as [|p|p]; [reflexivity| |lia].
  destruct (Z.leb_spec E 971); [|lia].
  unfold SFltb, one_sf, SFcompare.
  destruct (Z.compare_spec E (-52)); first [lia | reflexivity].
Qed.

Lemma SFcompare_pos_lt mx ex my ey :
  SFcompare (S754_finite false mx ex) (S754_finite false my ey) = Some Lt ->
  ex < ey \/ (ex = ey /\ Zpos mx < Zpos my).
Proof.
  simpl. destruct (Z.compare_spec ex ey) as [H|H|H]; try discriminate; auto.
  intros Hc. right. split; [assumption|].
  assert (Hc' : Pos.compare_cont Eq mx my = Lt) by congruence.
  change (Pos.compare mx my = Lt) in Hc'. apply Pos.compare_lt_iff in Hc'. apply Pos2Z.pos_lt_pos; assumption.
Qed.

(** Of two positive floats the smaller is at most [1 - 2^-53] times the
    larger. *)
Lemma quotient_bound mx my d1 d2 ex ey :
  2 ^ (d1 - 1) <= mx < 2 ^ d1 -> 2 ^ (d2 - 1) <= my < 2 ^ d2 ->
  0 < d1 -> 0 < d2 ->
  Z.max (d1 + ex - 53) (-1074) = ex ->
  Z.max (d2 + ey - 53) (-1074) = ey ->
  ex < ey \/ (ex = ey /\ mx < my) ->
  mx * 2 ^ 53 <= (2 ^ 53 - 1) * (my * 2 ^ (ey - ex)) /\
  d1 + ex <= d2 + ey.
Proof.
  intros Hb1 Hb2 Hd1 Hd2 Hc1 Hc2 [Hlt|[Heq Hlt]].
  - assert (d2 = 53) by lia. subst d2.
    assert (d1 <= 53) by lia.
    assert (2 ^ d1 <= 2 ^ 53) by (apply pow2_ge; lia).
    assert (2 ^ 1 <= 2 ^ (ey - ex)) by (apply pow2_ge; lia).
    change (2 ^ 1) with 2 in *.
    change (53 - 1) with 52 in Hb2.
    split; [|lia].
    set (T := 2 ^ (ey - ex)) in *.
    assert (2 ^ 53 <= my * T).
    { change (2 ^ 53) with (2 ^ 52 * 2). apply Z.mul_le_mono_nonneg; lia. }
    assert (mx <= 2 ^ 53 - 1) by lia.
    change (2 ^ 53) with 9007199254740992 in *. nia.
  - subst ey. rewrite Z.sub_diag, Z.pow_0_r.
    assert (d2 <= 53) by lia.
    assert (2 ^ d2 <= 2 ^ 53) by (apply pow2_ge; lia).
    split.
    + change (2 ^ 53) with 9007199254740992 in *. nia.
    + assert (d1 <= d2); [|lia].
      destruct (Z_le_gt_dec d1 d2) as [|Hgt]; [assumption|exfalso].
      assert (2 ^ d2 <= 2 ^ (d1 - 1)) by (apply pow2_ge; lia). lia.
Qed.

Lemma round_up_below (q qs P1 N K : Z) :
  0 < N -> 9007199254740992 <= P1 -> 0 < K ->
  q * 9007199254740992 <= (9007199254740992 - 1) * (P1 * N) ->
  (2 * qs + 1) * N * K <= 2 * q * K ->
  qs + 1 < P1.
Proof.
  intros HN HP HK Hq Hup.
  assert (Hup' : (2 * qs + 1) * N <= 2 * q) by nia.
  destruct (Z_lt_le_dec (qs + 1) P1) as [|Hge]; [assumption|exfalso].
  assert (H1 : (2 * P1 - 1) * N <= 2 * q) by nia.
  assert (H2 : (2 * P1 - 1) * N * 9007199254740992 <= 2 * (9007199254740992 - 1) * (P1 * N)) by nia.
  assert (H3 : (2 * P1 - 1) * 9007199254740992 <= 2 * (9007199254740992 - 1) * P1) by nia.
  lia.
Qed.

(** The rounded quotient of a positive float by a larger one is below 1. *)
Lemma SFdiv_pos_lt_one mx ex my ey :
  bounded prec emax mx ex = true -> bounded prec emax my ey = true ->
  SFcompare (S754_finite false mx ex) (S754_finite false my ey) = Some Lt ->
  SFltb (SFdiv prec emax (S754_finite false mx ex) (S754_finite false my ey))
        one_sf = true.
Proof.
  intros Hv1 Hv2 Hcmp.
  apply bounded_spec in Hv1, Hv2. destruct Hv1 as [Hc1 _], Hv2 as [Hc2 _].
  apply SFcompare_pos_lt in Hcmp.
  pose proof (digits2_pos_bounds mx) as Hb1.
  pose proof (digits2_pos_bounds my) as Hb2.
  set (d1 := Zpos (digits2_pos mx)) in *.
  set (d2 := Zpos (digits2_pos my)) in *.
  destruct (quotient_bound (Zpos mx) (Zpos my) d1 d2 ex ey Hb1 Hb2
              ltac:(unfold d1; lia) ltac:(unfold d2; lia) Hc1 Hc2 Hcmp) as [HQ Hk].
  assert (Ht : 0 <= ey - ex) by lia.
  unfold SFdiv. rewrite SFdiv_core_binary_spec. fold d1 d2.
  rewrite fexp_eq. cbn [xorb].
  set (e' := Z.min (Z.max (d1 + ex - (d2 + ey) - 53) (-1074)) (ex - ey)).
  set (s := ex - ey - e').
  assert (He' : e' <= -53) by (unfold e'; lia).
  assert (Hs : 0 <= s) by (unfold s, e'; lia).
  assert (Hst : s + (ey - ex) = - e') by (unfold s; lia).
  assert (HP : 2 ^ (- e') = 2 ^ s * 2 ^ (ey - ex)).
  { rewrite <- Hst. apply Z.pow_add_r; lia. }
  assert (HS : 0 < 2 ^ s) by (apply pow2_pos; lia).
  assert (HPpos : 0 < 2 ^ (- e')) by (apply pow2_pos; lia).
  clearbody s. clear Hc1 Hc2 Hcmp Hb1 Hb2 Hk Hst.
  set (m' := Zpos mx * 2 ^ s).
  (* the exact quotient is at most 1 - 2^-53 *)
  assert (HmQ : m' * 2 ^ 53 <= (2 ^ 53 - 1) * (2 ^ (- e') * Zpos my)).
  { rewrite HP. unfold m'.
    replace ((2 ^ 53 - 1) * (2 ^ s * 2 ^ (ey - ex) * Zpos my))
      with ((2 ^ 53 - 1) * (Zpos my * 2 ^ (ey - ex)) * 2 ^ s) by ring.
    replace (Zpos mx * 2 ^ s * 2 ^ 53) with (Zpos mx * 2 ^ 53 * 2 ^ s) by ring.
    apply Z.mul_le_mono_nonneg_r; lia. }
  assert (Hm'pos : 0 < m') by (unfold m'; lia).
  clear HQ HP. clearbody m'.
  set (q := m' / Zpos my). set (r := m' mod Zpos my).
  assert (Hdm : m' = Zpos my * q + r) by (apply Z.div_mod; lia).
  assert (Hr : 0 <= r < Zpos my) by (apply Z.mod_pos_bound; lia).
  assert (Hq0 : 0 <= q) by (apply Z.div_pos; lia).
  assert (Hstar : q * 2 ^ 53 <= (2 ^ 53 - 1) * 2 ^ (- e')).
  { assert (H3 : Zpos my * (q * 2 ^ 53) <= Zpos my * ((2 ^ 53 - 1) * 2 ^ (- e'))).
    { replace (Zpos my * (q * 2 ^ 53)) with ((Zpos my * q) * 2 ^ 53) by ring.
      replace (Zpos my * ((2 ^ 53 - 1) * 2 ^ (- e')))
        with ((2 ^ 53 - 1) * (2 ^ (- e') * Zpos my)) by ring.
      apply Z.le_trans with (m' * 2 ^ 53); [|assumption].
      apply Z.mul_le_mono_nonneg_r; lia. }
    apply Z.mul_le_mono_pos_l in H3; [assumption|lia]. }
  destruct (binary_round_aux_spec false q e' (new_location (Zpos my) r) Hq0)
    as (q1 & Hq1 & Hres).
  cbv zeta in Hq1, Hres. rewrite !fexp_eq in Hq1, Hres.
  rewrite Hres. clear Hres.
  set (E1 := Z.max e' (Z.max (Zdigits2 q + e' - 53) (-1074))) in *.
  set (n := E1 - e') in *.
  set (qs := q / 2 ^ n) in *.
  assert (Hqlt : q < 2 ^ (- e')).
  { change (2 ^ 53) with 9007199254740992 in Hstar. lia. }
  assert (Hdq : Zdigits2 q + e' <= 0).
  { assert (Zdigits2 q <= - e'); [|lia]. apply Zdigits2_le_of_lt; lia. }
  assert (HE1 : E1 <= -53) by (unfold E1; lia).
  assert (Hn : 0 <= n) by (unfold n, E1; lia).
  assert (HN : 0 < 2 ^ n) by (apply pow2_pos; lia).
  assert (HP1 : 2 ^ (- e') = 2 ^ (- E1) * 2 ^ n).
  { rewrite <- Z.pow_add_r by lia. f_equal. unfold n. lia. }
  assert (HP1ge : 2 ^ 53 <= 2 ^ (- E1)) by (apply pow2_ge; lia).
  assert (Hqs : 0 <= qs) by (apply Z.div_pos; lia).
  assert (Hqsn : qs * 2 ^ n <= q).
  { unfold qs. rewrite Z.mul_comm. apply Z.mul_div_le. lia. }
  assert (Hn0 : n = 0 -> qs = q /\ 2 ^ (- E1) = 2 ^ (- e')).
  { intros Hz. unfold qs. rewrite HP1, Hz, Z.pow_0_r, Z.div_1_r. lia. }
  clearbody qs n.
  change (2 ^ 53) with 9007199254740992 in *.
  remember (2 ^ (- E1)) as P1 eqn:HeqP1.
  remember (2 ^ (- e')) as P eqn:HeqP.
  remember (2 ^ n) as N eqn:HeqN.
  assert (Hqs_lt : qs < P1).
  { subst P. apply Z.mul_lt_mono_pos_r with N; [assumption|]. lia. }
  assert (Hq1lt : 0 <= q1 < P1).
  { destruct Hq1 as [->|(-> & Hup & Hloc)]; [lia|].
    split; [lia|].
    destruct (Z.eq_dec n 0) as [Hz|Hz].
    - (* no shift: the division remainder decides the rounding *)
      specialize (Hloc ltac:(lia)).
      apply new_location_up in Hloc; [|lia].
      destruct (Hn0 Hz) as [-> ->].
      apply (round_up_below m' q P (Zpos my) 1); lia.
    - specialize (Hup ltac:(lia)).
      apply (round_up_below q qs P1 N 1); lia. }
  assert (Hdq1 : Zdigits2 q1 <= - E1).
  { apply Zdigits2_le_of_lt; lia. }
  apply bra_result_lt_one.
  - apply Z.div_pos; [lia|]. apply pow2_pos. lia.
  - rewrite fexp_eq. lia.
Qed.

(** *** The order of floats *)





Lemma Pos_compare_cont_Eq p q : Pos.compare_cont Eq p q = Pos.compare p q.
Proof. reflexivity. Qed.

Ltac order_cases :=
  repeat match goal with
  | |- context [Z.compare ?a ?b] => destruct (Z.compare_spec a b)
  | |- context [Pos.compare_cont Eq ?a ?b] =>
      rewrite (Pos_compare_cont_Eq a b); destruct (Pos.compare_spec a b)
  end.

Lemma SFltb_key x y : SFltb x y = true <-> not_nan x /\ not_nan y /\ lt3 (key x) (key y).
Proof.
  unfold SFltb, SFcompare.
  destruct x as [[]|[]| |[] mx ex], y as [[]|[]| |[] my ey];
    cbn [key lt3 le3 not_nan]; order_cases; cbn [CompOpp];
    (split; [intros Hcmp; try discriminate Hcmp; repeat split; try exact I; lia
            | intros (Hn1 & Hn2 & Hn3); try contradiction; try reflexivity; exfalso; lia]).
Qed.

Lemma SFleb_key x y : SFleb x y = true <-> not_nan x /\ not_nan y /\ le3 (key x) (key y).
Proof.
  unfold SFleb, SFcompare.
  destruct x as [[]|[]| |[] mx ex], y as [[]|[]| |[] my ey];
    cbn [key lt3 le3 not_nan]; order_cases; cbn [CompOpp];
    (split; [intros Hcmp; try discriminate Hcmp; repeat split; try exact I; lia
            | intros (Hn1 & Hn2 & Hn3); try contradiction; try reflexivity; exfalso; lia]).
Qed.

Lemma SFeqb_key x y : SFeqb x y = true <-> not_nan x /\ not_nan y /\ key x = key y.
Proof.
  unfold SFeqb, SFcompare.
  destruct x as [[]|[]| |[] mx ex], y as [[]|[]| |[] my ey];
    cbn [key lt3 le3 not_nan]; order_cases; cbn [CompOpp];
    (split; [intros Hcmp; try discriminate Hcmp; repeat split; try exact I; try (f_equal; lia); repeat f_equal; lia
            | intros (Hn1 & Hn2 & Hn3); try contradiction; try reflexivity; exfalso;
              try discriminate Hn3; injection Hn3; intros; lia]).
Qed.

(** *** Comparisons of primitive floats *)

Local Open Scope float_scope.

Lemma f64_ltb_key (x y : float) :
  (x <? y) = true <->
  not_nan (Prim2SF x) /\ not_nan (Prim2SF y) /\ lt3 (key (Prim2SF x)) (key (Prim2SF y)).
Proof. rewrite FloatAxioms.ltb_spec. apply SFltb_key. Qed.

Lemma f64_leb_key (x y : float) :
  (x <=? y) = true <->
  not_nan (Prim2SF x) /\ not_nan (Prim2SF y) /\ le3 (key (Prim2SF x)) (key (Prim2SF y)).
Proof. rewrite FloatAxioms.leb_spec. apply SFleb_key. Qed.

Lemma f64_eqb_key (x y : float) :
  (x =? y) = true <->
  not_nan (Prim2SF x) /\ not_nan (Prim2SF y) /\ key (Prim2SF x) = key (Prim2SF y).
Proof. rewrite FloatAxioms.eqb_spec. apply SFeqb_key. Qed.

Lemma f64_isnan_spec (x : float) : F64.isnan x = true <-> Prim2SF x = S754_nan.
Proof.
  unfold F64.isnan, is_nan.
  destruct (x =? x) eqn:E.
  - apply f64_eqb_key in E. destruct E as (Hn & _ & _).
    split; [discriminate|]. intros H. rewrite H in Hn. contradiction.
  - split; [intros _|reflexivity].
    destruct (Prim2SF x) eqn:Hx; try reflexivity; exfalso;
      assert (H : (x =? x) = true) by (apply f64_eqb_key; rewrite Hx; repeat split; exact I);
      congruence.
Qed.

Lemma f64_not_nan_spec (x : float) : not_nan (Prim2SF x) <-> F64.isnan x = false.
Proof.
  destruct (F64.isnan x) eqn:E.
  - apply f64_isnan_spec in E. rewrite E. simpl. split; [contradiction|discriminate].
  - split; [reflexivity|intros _].
    destruct (Prim2SF x) eqn:Hx; try exact I.
    assert (F64.isnan x = true) by (apply f64_isnan_spec; assumption). congruence.
Qed.

Ltac keys :=
  repeat match goal with
  | H : (_ <? _) = true |- _ => apply f64_ltb_key in H; destruct H as (? & ? & H)
  | H : (_ <=? _) = true |- _ => apply f64_leb_key in H; destruct H as (? & ? & H)
  | H : (_ =? _) = true |- _ => apply f64_eqb_key in H; destruct H as (? & ? & H)
  end.

Ltac key_solve :=
  repeat match goal with
  | |- context [key ?x] => let a := fresh "a" in let b := fresh "b" in
        let c := fresh "c" in destruct (key x) as [[a b] c]
  | H : context [key ?x] |- _ => let a := fresh "a" in let b := fresh "b" in
        let c := fresh "c" in destruct (key x) as [[a b] c]
  end;
  cbv [lt3 le3] in *; intros;
  repeat match goal with
  | H : (_, _) = (_, _) |- _ => injection H as ? ?
  end;
  first [lia | f_equal; lia | repeat f_equal; lia].

Lemma f64_leb_trans x y z : (x <=? y) = true -> (y <=? z) = true -> (x <=? z) = true.
Proof. intros H1 H2. keys. apply f64_leb_key. repeat split; try assumption. key_solve. Qed.

Lemma f64_ltb_leb_trans x y z : (x <? y) = true -> (y <=? z) = true -> (x <? z) = true.
Proof. intros H1 H2. keys. apply f64_ltb_key. repeat split; try assumption. key_solve. Qed.

Lemma f64_leb_ltb_trans x y z : (x <=? y) = true -> (y <? z) = true -> (x <? z) = true.
Proof. intros H1 H2. keys. apply f64_ltb_key. repeat split; try assumption. key_solve. Qed.

Lemma f64_ltb_leb x y : (x <? y) = true -> (x <=? y) = true.
Proof. intros H1. keys. apply f64_leb_key. repeat split; try assumption. key_solve. Qed.

Lemma f64_leb_refl x : F64.isnan x = false -> (x <=? x) = true.
Proof.
  intros H. apply f64_not_nan_spec in H. apply f64_leb_key. repeat split; try assumption.
  key_solve.
Qed.

Lemma f64_leb_total x y : F64.isnan x = false -> F64.isnan y = false ->
  (x <=? y) = true \/ (y <? x) = true.
Proof.
  intros Hx Hy. apply f64_not_nan_spec in Hx, Hy.
  destruct (x <=? y) eqn:E; [left; reflexivity|right].
  apply f64_ltb_key. repeat split; try assumption.
  assert (Hn : ~ le3 (key (Prim2SF x)) (key (Prim2SF y))).
  { intros Hle. assert ((x <=? y) = true) by (apply f64_leb_key; auto). congruence. }
  revert Hn. key_solve.
Qed.

Lemma f64_ltb_not_eqb x y : (x <? y) = true -> (x =? y) = false.
Proof.
  intros H. destruct (x =? y) eqn:E; [|reflexivity]. exfalso. keys. revert H E. key_solve.
Qed.

Lemma f64_ltb_not_leb x y : (x <? y) = true -> (y <=? x) = false.
Proof.
  intros H. destruct (y <=? x) eqn:E; [|reflexivity]. exfalso. keys. revert H E. key_solve.
Qed.

Lemma f64_leb_not_nan_l x y : (x <=? y) = true -> F64.isnan x = false.
Proof. intros H. keys. apply f64_not_nan_spec. assumption. Qed.

Lemma f64_leb_not_nan_r x y : (x <=? y) = true -> F64.isnan y = false.
Proof. intros H. keys. apply f64_not_nan_spec. assumption. Qed.

Lemma f64_ltb_not_nan_l x y : (x <? y) = true -> F64.isnan x = false.
Proof. intros H. keys. apply f64_not_nan_spec. assumption. Qed.

Lemma f64_ltb_not_nan_r x y : (x <? y) = true -> F64.isnan y = false.
Proof. intros H. keys. apply f64_not_nan_spec. assumption. Qed.

Local Open Scope Z_scope.

(** *** Sums, products and quotients at 0 and 1 *)

Lemma Zdigits2_unique m k : 0 < m -> 2 ^ (k - 1) <= m < 2 ^ k -> Zdigits2 m = k.
Proof.
  intros Hm [Hlo Hhi].
  assert (Hk : 0 < k).
  { destruct (Z_lt_le_dec 0 k); [assumption|exfalso].
    destruct (Z.eq_dec k 0) as [->|]; [simpl in Hhi; lia|].
    rewrite Z.pow_neg_r in Hhi by lia. lia. }
  assert (Zdigits2 m <= k) by (apply Zdigits2_le_of_lt; lia).
  assert (k - 1 < Zdigits2 m) by (apply Zdigits2_gt_of_ge; lia).
  lia.
Qed.

Lemma Zdigits2_shift m k : 0 < m -> 0 <= k -> Zdigits2 (m * 2 ^ k) = Zdigits2 m + k.
Proof.
  intros Hm Hk.
  pose proof (Zdigits2_bounds m Hm) as [Hlo Hhi].
  pose proof (Zdigits2_pos m Hm) as Hd.
  assert (HK : 0 < 2 ^ k) by (apply pow2_pos; lia).
  apply Zdigits2_unique; [lia|].
  replace (Zdigits2 m + k - 1) with ((Zdigits2 m - 1) + k) by lia.
  rewrite !Z.pow_add_r by lia. split; nia.
Qed.

Lemma Pos_iter_xO m d : Zpos (Pos.iter xO m d) = Zpos m * 2 ^ Zpos d.
Proof.
  induction d as [|d IH] using Pos.peano_ind.
  - simpl. lia.
  - rewrite Pos.iter_succ, Pos2Z.inj_succ, Z.pow_succ_r by lia.
    rewrite Pos2Z.inj_xO, IH. ring.
Qed.

Lemma shl_align_spec m e e' : e' <= e ->
  Zpos (fst (shl_align m e e')) = Zpos m * 2 ^ (e - e') /\
  snd (shl_align m e e') = e'.
Proof.
  intros Hle. unfold shl_align.
  destruct (e' - e) as [|p|p] eqn:E; try lia.
  - assert (e = e') by lia. subst. rewrite Z.sub_diag. simpl. split; lia.
  - simpl. rewrite Pos_iter_xO. split; [|reflexivity].
    f_equal. f_equal. lia.
Qed.

Lemma shl_align_id m e e' : e <= e' ->
  shl_align m e e' = (m, e).
Proof.
  intros Hle. unfold shl_align. destruct (e' - e) as [|p|p] eqn:E; try reflexivity. lia.
Qed.

(** A result that does not fall below the least subnormal is not zero. *)
Lemma binary_round_aux_nonzero s m e l :
  0 < m -> -1074 < Zdigits2 m + e ->
  exists m' e', binary_round_aux prec emax s m e l = S754_finite s m' e' \/
                binary_round_aux prec emax s m e l = S754_infinity s.
Proof.
  intros Hm Hd.
  destruct (binary_round_aux_spec s m e l ltac:(lia)) as (q1 & Hq1 & Hres).
  cbv zeta in Hq1, Hres. rewrite !fexp_eq in Hq1, Hres. rewrite fexp_eq in Hres.
  set (E1 := Z.max e (Z.max (Zdigits2 m + e - 53) (-1074))) in *.
  set (n := E1 - e) in *.
  pose proof (Zdigits2_bounds m Hm) as [Hlo _].
  pose proof (Zdigits2_pos m Hm) as Hdm.
  assert (Hn : 0 <= n <= Zdigits2 m - 1) by (unfold n, E1; lia).
  assert (Hqs : 1 <= m / 2 ^ n).
  { apply Z.div_le_lower_bound; [apply pow2_pos; lia|].
    rewrite Z.mul_1_r. apply Z.le_trans with (2 ^ (Zdigits2 m - 1)); [|assumption].
    apply pow2_ge; lia. }
  assert (Hq1pos : 1 <= q1) by (destruct Hq1 as [->|(-> & _)]; lia).
  set (E2 := Z.max E1 (Z.max (Zdigits2 q1 + E1 - 53) (-1074))) in *.
  pose proof (Zdigits2_bounds q1 ltac:(lia)) as [Hlo1 _].
  pose proof (Zdigits2_pos q1 ltac:(lia)) as Hdq1.
  assert (HE1 : -1074 <= E1) by (unfold E1; lia).
  assert (Hn2 : 0 <= E2 - E1 <= Zdigits2 q1 - 1) by (unfold E2; lia).
  assert (Hq2 : 1 <= q1 / 2 ^ (E2 - E1)).
  { apply Z.div_le_lower_bound; [apply pow2_pos; lia|].
    rewrite Z.mul_1_r. apply Z.le_trans with (2 ^ (Zdigits2 q1 - 1)); [|assumption].
    apply pow2_ge; lia. }
  rewrite Hres. unfold bra_result.
  destruct (q1 / 2 ^ (E2 - E1)) as [|p|p]; try lia.
  exists p, E2. destruct (E2 <=? 971); auto.
Qed.

Lemma binary_round_aux_sign s m e l : 0 <= m ->
  match binary_round_aux prec emax s m e l with
  | S754_zero s' | S754_infinity s' | S754_finite s' _ _ => s' = s
  | S754_nan => False
  end.
Proof.
  intros Hm.
  destruct (binary_round_aux_spec s m e l Hm) as (q1 & Hq1 & Hres).
  cbv zeta in Hq1, Hres. rewrite Hres. unfold bra_result.
  match goal with |- context [?a / ?b] => assert (Hq2 : 0 <= a / b) end.
  { apply Z.div_pos.
    - assert (0 <= m / 2 ^ (Z.max e (fexp prec emax (Zdigits2 m + e)) - e)).
      { apply Z.div_pos; [assumption|apply pow2_pos; lia]. }
      destruct Hq1 as [->|(-> & _)]; lia.
    - apply pow2_pos; lia. }
  match goal with |- context [?a / ?b] => destruct (a / b) as [|p|p] end; try lia; try reflexivity.
  match goal with |- context [?a <=? ?b] => destruct (a <=? b) end; reflexivity.
Qed.

Lemma binary_round_nonzero s p e : -1074 <= e ->
  exists m' e', binary_round prec emax s p e = S754_finite s m' e' \/
                binary_round prec emax s p e = S754_infinity s.
Proof.
  intros He. unfold binary_round.
  set (f := fexp prec emax (Zpos (digits2_pos p) + e)).
  destruct (Z_le_gt_dec f e) as [Hle|Hgt].
  - destruct (shl_align_spec p e f Hle) as [Hm Hs].
    destruct (shl_align p e f) as [mz ez]. simpl in Hm, Hs. subst ez.
    apply binary_round_aux_nonzero; [lia|].
    rewrite Hm. rewrite Zdigits2_shift by lia. simpl Zdigits2.
    pose proof (Zdigits2_pos (Zpos p) ltac:(lia)). simpl Zdigits2 in *. lia.
  - rewrite shl_align_id by lia.
    apply binary_round_aux_nonzero; [lia|].
    simpl Zdigits2. lia.
Qed.

(** Subtracting 1 from a float below 1 gives a negative float, never a
    zero. *)
Lemma SFsub_one_neg x : valid_binary x = true ->
  SFltb x one_sf = true ->
  SFltb (SFsub prec emax x one_sf) (S754_zero false) = true.
Proof.
  intros Hv Hlt.
  destruct x as [s|[]| |s m e]; try discriminate Hlt; try reflexivity.
  cbn [valid_binary] in Hv. apply bounded_spec in Hv. destruct Hv as [Hc _].
  pose proof (digits2_pos_bounds m) as Hb.
  set (d := Zpos (digits2_pos m)) in *.
  unfold one_sf, SFsub.
  set (ez := Z.min e (-52)).
  destruct (shl_align_spec m e ez ltac:(unfold ez; lia)) as [Ha _].
  destruct (shl_align_spec 4503599627370496 (-52) ez ltac:(unfold ez; lia)) as [Hb1 _].
  rewrite Ha, Hb1. clear Ha Hb1.
  assert (Hneg : cond_Zopp s (Zpos m * 2 ^ (e - ez)) -
                 cond_Zopp false (4503599627370496 * 2 ^ (-52 - ez)) < 0).
  { assert (0 < 2 ^ (e - ez)) by (apply pow2_pos; unfold ez; lia).
    assert (0 < 2 ^ (-52 - ez)) by (apply pow2_pos; unfold ez; lia).
    destruct s; cbn [cond_Zopp]; [nia|].
    (* a positive number below one *)
    assert (He : e <= -53).
    { apply SFltb_key in Hlt. destruct Hlt as (_ & _ & Hlt). cbn in Hlt.
      assert (d <= 53) by lia.
      assert (He52 : e <= -52) by lia.
      destruct (Z.eq_dec e (-52)) as [->|]; [|lia]. exfalso.
      assert (Zpos m < 4503599627370496) by lia.
      assert (d = 53) by lia.
      assert (2 ^ (d - 1) = 4503599627370496) by (subst d; replace (digits2_pos m) with 53%positive by lia; reflexivity).
      lia. }
    assert (Hez : ez = e) by (unfold ez; lia).
    rewrite Hez, Z.sub_diag, Z.pow_0_r, Z.mul_1_r.
    assert (2 ^ d <= 2 ^ 53) by (apply pow2_ge; lia).
    assert (2 ^ 53 <= 4503599627370496 * 2 ^ (-52 - e)).
    { change 4503599627370496 with (2 ^ 52). rewrite <- Z.pow_add_r by lia.
      apply pow2_ge. lia. }
    lia. }
  match goal with |- context [binary_normalize _ _ ?z _ _] => destruct z as [|p|p] eqn:Ez end;
    try lia.
  cbn [binary_normalize].
  destruct (binary_round_nonzero true p ez ltac:(unfold ez; lia)) as (m' & e' & [H|H]);
    rewrite H; reflexivity.
Qed.

(** Multiplication by 1 and division of a float by itself are exact. *)
Lemma SFmul_one_l x : valid_binary x = true -> SFmul prec emax one_sf x = x.
Proof.
  intros Hv. destruct x as [s|s| |s m e]; try reflexivity.
  cbn [valid_binary] in Hv. apply bounded_spec in Hv. destruct Hv as [Hc He].
  unfold one_sf, SFmul. cbn [xorb].
  rewrite Pos2Z.inj_mul.
  change (Zpos 4503599627370496) with (2 ^ 52).
  destruct (binary_round_aux_spec s (2 ^ 52 * Zpos m) (-52 + e) loc_Exact ltac:(lia))
    as (q1 & Hq1 & Hres).
  cbv zeta in Hq1, Hres. rewrite !fexp_eq in Hq1, Hres. rewrite fexp_eq in Hres.
  rewrite (Z.mul_comm (2 ^ 52)) in Hq1, Hres |- *.
  rewrite Zdigits2_shift in Hq1, Hres by lia.
  cbn [Zdigits2] in Hq1, Hres.
  set (d := Zpos (digits2_pos m)) in *.
  replace (Z.max (-52 + e) (Z.max (d + 52 + (-52 + e) - 53) (-1074))) with e in Hq1, Hres by lia.
  replace (e - (-52 + e)) with 52 in Hq1 by lia.
  rewrite Z.div_mul in Hq1 by lia.
  assert (Hq : q1 = Zpos m).
  { destruct Hq1 as [->|(-> & Hup & _)]; [reflexivity|].
    specialize (Hup ltac:(lia)). change (2 ^ 52) with 4503599627370496 in Hup. lia. }
  subst q1. cbn [Zdigits2] in Hres. fold d in Hres.
  replace (Z.max e (Z.max (d + e - 53) (-1074))) with e in Hres by lia.
  rewrite Z.sub_diag, Z.pow_0_r, Z.div_1_r in Hres.
  rewrite Hres. unfold bra_result.
  destruct (Z.leb_spec e 971); [reflexivity|lia].
Qed.

Lemma SFdiv_self s m e :
  SFdiv prec emax (S754_finite s m e) (S754_finite s m e) = one_sf.
Proof.
  unfold SFdiv. rewrite SFdiv_core_binary_spec.
  rewrite Z.sub_diag. rewrite Z.sub_diag.
  change (Z.min (fexp prec emax 0) 0) with (-53).
  change (0 - -53) with 53.
  rewrite (Z.mul_comm (Zpos m)), Z.div_mul by lia.
  rewrite Z.mod_mul by lia.
  assert (Hloc : new_location (Zpos m) 0 = loc_Exact).
  { unfold new_location. destruct (Z.even (Zpos m)); reflexivity. }
  rewrite Hloc. destruct s; reflexivity.
Qed.

Local Open Scope float_scope.


Lemma Prim2SF_one : Prim2SF 1 = one_sf.
Proof. reflexivity. Qed.

Lemma Prim2SF_zero : Prim2SF 0 = S754_zero false.
Proof. reflexivity. Qed.

Lemma Prim2SF_nan : Prim2SF nan = S754_nan.
Proof. reflexivity. Qed.

Lemma Prim2SF_infinity : Prim2SF infinity = S754_infinity false.
Proof. reflexivity. Qed.

Lemma f64_isinf_spec x : F64.isinf x = true <-> exists s, Prim2SF x = S754_infinity s.
Proof.
  unfold F64.isinf, is_infinity. rewrite f64_eqb_key, abs_spec, Prim2SF_infinity.
  destruct (Prim2SF x) as [s|s| |s m e]; cbn; split;
    try (intros (_ & _ & H); discriminate H);
    try (intros (H & _); contradiction);
    try (intros [s' H]; discriminate H).
  - intros _. exists s. reflexivity.
  - intros _. repeat split; exact I.
Qed.

Lemma f64_isfinite_spec x : F64.isfinite x = true <-> finite_sf (Prim2SF x).
Proof.
  unfold F64.isfinite. fold (F64.isnan x). fold (F64.isinf x).
  destruct (F64.isnan x) eqn:En.
  - apply f64_isnan_spec in En. rewrite En. cbn. split; [discriminate|contradiction].
  - apply f64_not_nan_spec in En.
    destruct (F64.isinf x) eqn:Ei.
    + apply f64_isinf_spec in Ei. destruct Ei as [s Hs]. rewrite Hs. cbn.
      split; [discriminate|contradiction].
    + cbn. split; [intros _|reflexivity].
      destruct (Prim2SF x) as [s|s| |s m e] eqn:Hx; cbn; try exact I; try contradiction.
      assert (F64.isinf x = true) by (apply f64_isinf_spec; eauto). congruence.
Qed.

Lemma f64_iszero_spec x : (x =? 0) = true <-> exists s, Prim2SF x = S754_zero s.
Proof.
  rewrite f64_eqb_key, Prim2SF_zero.
  destruct (Prim2SF x) as [s|[]| |[] m e]; cbn; split;
    try (intros (_ & _ & H); discriminate H);
    try (intros (H & _); contradiction);
    try (intros [s' H]; discriminate H).
  - intros _. exists s. reflexivity.
  - intros _. repeat split; exact I.
Qed.

Lemma f64_pos_spec x : (0 <? x) = true <->
  (exists m e, Prim2SF x = S754_finite false m e) \/ Prim2SF x = S754_infinity false.
Proof.
  rewrite FloatAxioms.ltb_spec, Prim2SF_zero.
  destruct (Prim2SF x) as [s|[]| |[] m e]; cbn; split; intros H;
    try discriminate H; try reflexivity;
    try (destruct H as [(m' & e' & H)|H]; discriminate H); eauto.
Qed.

Lemma f64_mul_zero_finite x : F64.isfinite x = true -> ((0 * x) =? 0) = true.
Proof.
  intros Hf. apply f64_isfinite_spec in Hf. apply f64_iszero_spec.
  rewrite mul_spec, Prim2SF_zero. unfold SF64mul.
  destruct (Prim2SF x) as [s|s| |s m e]; cbn in *; try contradiction; eauto.
Qed.

Lemma f64_add_one_zero z : (z =? 0) = true -> 1 + z = 1.
Proof.
  intros Hz. apply f64_iszero_spec in Hz. destruct Hz as [s Hs].
  apply Prim2SF_inj. rewrite add_spec, Hs, Prim2SF_one. reflexivity.
Qed.

Lemma f64_mul_1_l x : 1 * x = x.
Proof.
  apply Prim2SF_inj. rewrite mul_spec, Prim2SF_one. unfold SF64mul.
  apply SFmul_one_l. apply Prim2SF_valid.
Qed.

Lemma f64_div_self x : F64.isfinite x = true -> (x =? 0) = false -> x / x = 1.
Proof.
  intros Hf Hz. apply f64_isfinite_spec in Hf.
  apply Prim2SF_inj. rewrite div_spec, Prim2SF_one. unfold SF64div.
  destruct (Prim2SF x) as [s|s| |s m e] eqn:Hx; cbn in Hf; try contradiction.
  - assert ((x =? 0) = true) by (apply f64_iszero_spec; eauto). congruence.
  - apply SFdiv_self.
Qed.

Lemma f64_div_lt_one x y :
  F64.isfinite x = true -> F64.isfinite y = true ->
  (0 <? y) = true -> (x <? y) = true -> (x / y <? 1) = true.
Proof.
  intros Hfx Hfy Hy Hxy.
  apply f64_isfinite_spec in Hfx, Hfy. apply f64_pos_spec in Hy.
  rewrite FloatAxioms.ltb_spec in Hxy |- *.
  rewrite div_spec, Prim2SF_one. unfold SF64div.
  pose proof (Prim2SF_valid x) as Hvx. pose proof (Prim2SF_valid y) as Hvy.
  destruct Hy as [(my & ey & Hy)|Hy]; rewrite Hy in *; [|contradiction].
  destruct (Prim2SF x) as [s|s| |[] mx ex]; cbn in Hfx; try contradiction.
  - reflexivity.
  - unfold SFdiv.
    destruct (SFdiv_core_binary prec emax (Zpos mx) ex (Zpos my) ey) as [[mz ez] lz] eqn:Hcore.
    assert (Hmz : (0 <= mz)%Z).
    { rewrite SFdiv_core_binary_spec in Hcore. injection Hcore as <- _ _.
      apply Z.div_pos; [|lia]. apply Z.mul_nonneg_nonneg; [lia|].
      apply Z.pow_nonneg. lia. }
    pose proof (binary_round_aux_sign (xorb true false) mz ez lz Hmz) as Hs.
    destruct (binary_round_aux prec emax (xorb true false) mz ez lz) as [s|s| |s m e];
      try contradiction; cbn in Hs; subst s; reflexivity.
  - apply SFdiv_pos_lt_one; [exact Hvx | exact Hvy |].
    unfold SFltb in Hxy.
    destruct (SFcompare (S754_finite false mx ex) (S754_finite false my ey)) as [[]|];
      try discriminate Hxy; reflexivity.
Qed.

Lemma f64_sub_one_neg x : (x <? 1) = true -> (x - 1 <? 0) = true.
Proof.
  rewrite !FloatAxioms.ltb_spec, sub_spec, Prim2SF_one, Prim2SF_zero.
  apply SFsub_one_neg. apply Prim2SF_valid.
Qed.

Lemma f64_div_nan_r x : x / nan = nan.
Proof.
  apply Prim2SF_inj. rewrite div_spec, Prim2SF_nan. unfold SF64div.
  destruct (Prim2SF x); reflexivity.
Qed.

Lemma f64_mul_nan_l x : nan * x = nan.
Proof.
  apply Prim2SF_inj. rewrite mul_spec, Prim2SF_nan. reflexivity.
Qed.

Lemma f64_div_zero_inf p z : (0 <? p) = true -> (z =? 0) = true ->
  F64.isinf (p / z - 1) = true.
Proof.
  intros Hp Hz. apply f64_pos_spec in Hp. apply f64_iszero_spec in Hz. destruct Hz as [s Hs].
  apply f64_isinf_spec. rewrite sub_spec, div_spec, Hs, Prim2SF_one.
  destruct Hp as [(m & e & Hp)|Hp]; rewrite Hp; cbn; eauto.
Qed.

(** ** Columns *)

Local Open Scope Z_scope.

(** *** annualization_factor and the run of compute_performance *)

Lemma annualization_factor_or_default o :
  exists f, annualization_factor (or_default o "D") = inr f.
Proof.
  destruct o as [[|c s]|]; cbn; eauto.
Qed.

Lemma annualization_factor_default c rest :
  c <> "D"%char -> c <> "B"%char -> c <> "H"%char -> c <> "T"%char ->
  annualization_factor (String c rest) = inr 252%float.
Proof.
  intros HD HB HH HT. unfold annualization_factor, str_index0, mapping.
  assert (Hne : forall c', c <> c' -> String c' EmptyString <> String c EmptyString)
    by (intros c' Hc Heq; injection Heq; congruence).
  rewrite !lookup_insert_ne by (apply Hne; assumption).
  rewrite lookup_empty. reflexivity.
Qed.

Section Run.
Variable np_sum : Pd.Series -> float.
Variable infer_freq_core : list Z -> option string.
Variable pow : float -> float -> float.

(** The run of [compute_performance] on a DataFrame that has both
    columns: the three columns it writes and the value it returns or the
    exception it raises. *)
Lemma compute_performance_run signal_col price_col capital df pc sc :
  df_cols df !! price_col = Some pc ->
  df_cols df !! signal_col = Some sc ->
  signal_col <> "price_ret"%string ->
  let pr := price_ret pc in
  let sr := strat_ret sc (FloatCol pr) in
  let eq := equity (FloatCol sr) capital in
  compute_performance np_sum infer_freq_core pow signal_col price_col capital df =
  (match Pd.iloc_last eq with
   | None => inl IndexError
   | Some last_equity =>
       match infer_freq infer_freq_core (df_index df) with
       | inl e => inl e
       | inr inferred =>
           match annualization_factor (or_default inferred "D") with
           | inl e => inl e
           | inr f =>
               inr (mkPerf (last_equity / capital - 1)%float
                      (pow (1 + Pd.mean np_sum sr) f - 1)%float
                      (Pd.std np_sum sr * PrimFloat.sqrt f)%float
                      (sharpe (Pd.mean np_sum sr) (Pd.std np_sum sr) f)
                      (max_dd eq) eq sr)
           end
       end
   end,
   mkDF (df_index df)
     (<["equity" := FloatCol eq]>
        (<["strat_ret" := FloatCol sr]>
           (<["price_ret" := FloatCol pr]> (df_cols df))))).
Proof.
  intros Hp Hs Hne pr sr eq.
  unfold compute_performance, bind, getitem, setitem, get_index.
  rewrite Hp. cbn [df_cols df_index].
  rewrite lookup_insert_ne by congruence. rewrite Hs.
  repeat first
    [ progress cbn [df_cols df_index to_floats]
    | rewrite lookup_insert_eq
    | rewrite lookup_insert_ne by discriminate ].
  fold pr. fold sr. fold eq.
  destruct (Pd.iloc_last eq) as [le|];
    cbn [lift_option lift_result ret raise]; [|reflexivity].
  repeat first
    [ progress cbn [df_cols df_index to_floats]
    | rewrite lookup_insert_eq
    | rewrite lookup_insert_ne by discriminate ].
  destruct (infer_freq infer_freq_core (df_index df)) as [e|o];
    cbn [lift_option lift_result ret raise]; [reflexivity|].
  destruct (annualization_factor (or_default o "D")) as [e|f];
    cbn [lift_option lift_result ret raise]; [reflexivity|].
  repeat first
    [ progress cbn [df_cols df_index to_floats]
    | rewrite lookup_insert_eq
    | rewrite lookup_insert_ne by discriminate ].
  reflexivity.
Qed.
End Run.

Local Open Scope float_scope.

(** *** Lengths and entries of the columns *)

Lemma length_fillna v s : length (Pd.fillna v s) = length s.
Proof. unfold Pd.fillna. apply length_fmap. Qed.

Lemma lookup_fillna v s i :
  Pd.fillna v s !! i = (fun x => if F64.isnan x then v else x) <$> (s !! i).
Proof. unfold Pd.fillna. apply list_lookup_fmap. Qed.

Lemma length_shift s : length (Pd.shift s) = length s.
Proof. unfold Pd.shift. rewrite length_take. simpl. lia. Qed.

Lemma lookup_shift_0 s : s <> [] -> Pd.shift s !! 0%nat = Some nan.
Proof. destruct s; [congruence|reflexivity]. Qed.

Lemma lookup_shift_S s i : (S i < length s)%nat -> Pd.shift s !! S i = s !! i.
Proof.
  intros Hi. unfold Pd.shift. rewrite lookup_take_lt by assumption. reflexivity.
Qed.

Lemma length_ffill_from a s : length (Pd.ffill_from a s) = length s.
Proof.
  revert a. induction s as [|x t IH]; intros a; simpl; [reflexivity|].
  destruct (F64.isnan x); simpl; rewrite IH; reflexivity.
Qed.

Lemma ffill_from_notnan a s :
  Forall (fun x => F64.isnan x = false) s -> Pd.ffill_from a s = s.
Proof.
  intros H. revert a. induction H as [|x t Hx Ht IH]; intros a; simpl; [reflexivity|].
  rewrite Hx, IH. reflexivity.
Qed.

Lemma length_pct_change s : length (Pd.pct_change s) = length s.
Proof.
  unfold Pd.pct_change, Pd.ffill. rewrite length_zip_with, length_shift, length_ffill_from.
  lia.
Qed.

Lemma f64_sub_nan_l x : nan - x = nan.
Proof. apply Prim2SF_inj. rewrite sub_spec, Prim2SF_nan. reflexivity. Qed.

Lemma lookup_pct_change_0 s : s <> [] -> Pd.pct_change s !! 0%nat = Some nan.
Proof.
  intros Hs. unfold Pd.pct_change. rewrite lookup_zip_with.
  assert (Hd : Pd.ffill s <> []).
  { intros H. apply (f_equal length) in H. unfold Pd.ffill in H.
    rewrite length_ffill_from in H. destruct s; [congruence|discriminate]. }
  rewrite (lookup_shift_0 _ Hd).
  destruct (Pd.ffill s) as [|d t]; [congruence|]. simpl.
  rewrite f64_div_nan_r, f64_sub_nan_l. reflexivity.
Qed.

Lemma lookup_pct_change_S s i a b :
  Forall (fun x => F64.isnan x = false) s ->
  s !! i = Some a -> s !! S i = Some b ->
  Pd.pct_change s !! S i = Some (b / a - 1).
Proof.
  intros Hs Ha Hb. unfold Pd.pct_change, Pd.ffill.
  rewrite (ffill_from_notnan _ _ Hs).
  rewrite lookup_zip_with, Hb. simpl.
  rewrite lookup_shift_S by (eapply lookup_lt_Some; eassumption).
  rewrite Ha. reflexivity.
Qed.

Lemma length_price_ret pc : length (price_ret pc) = length (to_floats pc).
Proof. unfold price_ret. rewrite length_fillna. apply length_pct_change. Qed.

Lemma length_to_floats c : length (to_floats c) = col_length c.
Proof. destruct c; simpl; [apply length_fmap|reflexivity]. Qed.

Lemma lookup_price_ret_0 pc : to_floats pc <> [] ->
  price_ret pc !! 0%nat = Some 0.
Proof.
  intros H. unfold price_ret. rewrite lookup_fillna, lookup_pct_change_0 by assumption.
  reflexivity.
Qed.

Lemma length_strat_ret sc pr :
  length (strat_ret sc pr) =
  Nat.min (length (to_floats sc)) (length (to_floats pr)).
Proof.
  unfold strat_ret. rewrite length_zip_with, length_fillna, length_shift.
  reflexivity.
Qed.


Lemma of_Z_signal_notnan s : is_signal s -> F64.isnan (F64.of_Z s) = false.
Proof. intros [->|[->| ->]]; reflexivity. Qed.

Lemma lookup_strat_ret_0 sc pr x :
  strat_ret sc pr !! 0%nat = Some x ->
  exists p, to_floats pr !! 0%nat = Some p /\ x = 0 * p.
Proof.
  unfold strat_ret. rewrite lookup_zip_with. intros H.
  destruct (to_floats sc) as [|s0 t] eqn:Es; [discriminate H|].
  rewrite lookup_fillna, lookup_shift_0 in H by discriminate.
  cbn in H. destruct (to_floats pr !! 0%nat) as [p|]; [|discriminate H].
  exists p. split; [reflexivity|]. cbn in H. congruence.
Qed.

Lemma lookup_strat_ret_S sig pr i x :
  Forall is_signal sig ->
  strat_ret (IntCol sig) pr !! S i = Some x ->
  exists s p, sig !! i = Some s /\ to_floats pr !! S i = Some p /\
              x = F64.of_Z s * p.
Proof.
  intros Hsig. unfold strat_ret. rewrite lookup_zip_with. intros H.
  destruct (Pd.fillna 0 (Pd.shift (to_floats (IntCol sig))) !! S i) as [a|] eqn:Ea;
    [|discriminate H].
  cbn in H. destruct (to_floats pr !! S i) as [p|]; [|discriminate H].
  cbn in H. injection H as <-.
  assert (Hlt : (S i < length (to_floats (IntCol sig)))%nat).
  { apply lookup_lt_Some in Ea. rewrite length_fillna, length_shift in Ea. exact Ea. }
  rewrite lookup_fillna, lookup_shift_S in Ea by exact Hlt.
  cbn [to_floats] in Ea. rewrite list_lookup_fmap in Ea.
  destruct (sig !! i) as [s|] eqn:Esi; [|discriminate Ea].
  cbn in Ea. injection Ea as <-.
  exists s, p. repeat split.
  rewrite of_Z_signal_notnan by (eapply Forall_lookup_1; eassumption).
  reflexivity.
Qed.

(** *** Running maximum and minimum *)


Lemma maximum_spec a x : notnan a -> notnan x ->
  notnan (F64.maximum a x) /\
  (a <=? F64.maximum a x) = true /\ (x <=? F64.maximum a x) = true /\
  (F64.maximum a x = a \/ F64.maximum a x = x).
Proof.
  intros Ha Hx. unfold F64.maximum. rewrite Ha, orb_false_r.
  destruct (f64_leb_total x a Hx Ha) as [H|H].
  - rewrite H. repeat split; auto using f64_leb_refl.
  - rewrite (f64_ltb_not_leb _ _ H). repeat split; auto using f64_leb_refl, f64_ltb_leb.
Qed.

Lemma minimum_spec a x : notnan a -> notnan x ->
  notnan (F64.minimum a x) /\
  (F64.minimum a x <=? a) = true /\ (F64.minimum a x <=? x) = true /\
  (F64.minimum a x = a \/ F64.minimum a x = x).
Proof.
  intros Ha Hx. unfold F64.minimum. rewrite Ha, orb_false_r.
  destruct (f64_leb_total a x Ha Hx) as [H|H].
  - rewrite H. repeat split; auto using f64_leb_refl.
  - rewrite (f64_ltb_not_leb _ _ H). repeat split; auto using f64_leb_refl, f64_ltb_leb.
Qed.

Lemma accumulate_from_maximum l : forall a i m,
  notnan a -> Forall notnan l ->
  Pd.accumulate_from F64.maximum a l !! i = Some m ->
  notnan m /\ (a <=? m) = true /\
  (forall j v, (j <= i)%nat -> l !! j = Some v -> (v <=? m) = true) /\
  (m = a \/ exists j, (j <= i)%nat /\ l !! j = Some m).
Proof.
  induction l as [|x t IH]; intros a i m Ha Hl Hm; [discriminate Hm|].
  apply Forall_cons in Hl. destruct Hl as [Hx Ht].
  destruct (maximum_spec a x Ha Hx) as (Hn & Hle_a & Hle_x & Hin).
  cbn [Pd.accumulate_from] in Hm.
  destruct i as [|i].
  - cbn in Hm. injection Hm as <-. repeat split; try assumption.
    + intros j v Hj Hv. assert (j = 0%nat) by lia. subst j. cbn in Hv.
      injection Hv as <-. assumption.
    + destruct Hin as [Hin|Hin]; [left; assumption|].
      right. exists 0%nat. split; [lia|]. cbn. congruence.
  - cbn in Hm. destruct (IH _ _ _ Hn Ht Hm) as (Hnm & Hle & Hub & Hatt).
    repeat split; try assumption.
    + eapply f64_leb_trans; eassumption.
    + intros j v Hj Hv. destruct j as [|j].
      * cbn in Hv. injection Hv as <-. eapply f64_leb_trans; eassumption.
      * cbn in Hv. apply (Hub j v); [lia|assumption].
    + destruct Hatt as [->|(j & Hj & Hv)].
      * destruct Hin as [->|Hin]; [left; reflexivity|].
        right. exists 0%nat. split; [lia|]. cbn. congruence.
      * right. exists (S j). split; [lia|exact Hv].
Qed.

Lemma fold_left_minimum l : forall a,
  notnan a -> Forall notnan l ->
  notnan (fold_left F64.minimum l a) /\
  (fold_left F64.minimum l a <=? a) = true /\
  (forall j v, l !! j = Some v -> (fold_left F64.minimum l a <=? v) = true) /\
  (fold_left F64.minimum l a = a \/
   exists j, l !! j = Some (fold_left F64.minimum l a)).
Proof.
  induction l as [|x t IH]; intros a Ha Hl; cbn.
  - repeat split; auto using f64_leb_refl. intros j v Hv. discriminate Hv.
  - apply Forall_cons in Hl. destruct Hl as [Hx Ht].
    destruct (minimum_spec a x Ha Hx) as (Hn & Hle_a & Hle_x & Hin).
    destruct (IH _ Hn Ht) as (Hnr & Hle & Hlb & Hatt).
    repeat split; try assumption.
    + eapply f64_leb_trans; eassumption.
    + intros j v Hv. destruct j as [|j].
      * cbn in Hv. injection Hv as <-. eapply f64_leb_trans; eassumption.
      * cbn in Hv. apply (Hlb j v). assumption.
    + destruct Hatt as [Hr|(j & Hv)].
      * destruct Hin as [Hin|Hin]; [left; congruence|].
        right. exists 0%nat. cbn. congruence.
      * right. exists (S j). exact Hv.
Qed.

Lemma fillna_notnan v s : notnan v -> Forall notnan (Pd.fillna v s).
Proof.
  intros Hv. apply Forall_lookup. intros i x Hx.
  rewrite lookup_fillna in Hx. destruct (s !! i) as [y|]; [|discriminate Hx].
  cbn in Hx. injection Hx as <-. destruct (F64.isnan y) eqn:E; assumption.
Qed.

Lemma length_accumulate_from f a l : length (Pd.accumulate_from f a l) = length l.
Proof. revert a. induction l as [|x t IH]; intros a; cbn; [|rewrite IH]; reflexivity. Qed.

Lemma length_accumulate f l : length (Pd.accumulate f l) = length l.
Proof. destruct l; cbn; [|rewrite length_accumulate_from]; reflexivity. Qed.

Lemma length_na_accum f v s : length (Pd.na_accum f v s) = length s.
Proof.
  unfold Pd.na_accum. rewrite length_zip_with, length_accumulate, length_fillna. lia.
Qed.

(** The running maximum at a non-NaN entry: an upper bound of the entries
    so far, taken by one of them. *)
Lemma lookup_cummax s i e :
  s !! i = Some e -> notnan e ->
  exists m, Pd.cummax s !! i = Some m /\ notnan m /\
    (forall j v, (j <= i)%nat -> s !! j = Some v -> notnan v -> (v <=? m) = true) /\
    (exists j, (j <= i)%nat /\ Pd.fillna neg_infinity s !! j = Some m).
Proof.
  intros He Hne. unfold Pd.cummax, Pd.na_accum.
  rewrite lookup_zip_with, He. cbn. unfold notnan in Hne. rewrite Hne.
  pose proof (fillna_notnan neg_infinity s eq_refl) as HF.
  assert (Hlen : (i < length (Pd.accumulate F64.maximum (Pd.fillna neg_infinity s)))%nat).
  { rewrite length_accumulate, length_fillna. eapply lookup_lt_Some; eassumption. }
  apply lookup_lt_is_Some_2 in Hlen. destruct Hlen as [m Hm]. rewrite Hm. cbn.
  exists m. split; [reflexivity|].
  assert (HFj : forall j v, s !! j = Some v -> notnan v ->
                            Pd.fillna neg_infinity s !! j = Some v).
  { intros j v Hv Hnv. rewrite lookup_fillna, Hv. cbn. unfold notnan in Hnv.
    rewrite Hnv. reflexivity. }
  destruct (Pd.fillna neg_infinity s) as [|x t] eqn:EF; [discriminate Hm|].
  apply Forall_cons in HF. destruct HF as [Hx Ht].
  cbn [Pd.accumulate] in Hm. destruct i as [|i].
  - cbn in Hm. injection Hm as <-. repeat split; [assumption| |].
    + intros j v Hj Hv Hnv. assert (j = 0%nat) by lia. subst j.
      apply HFj in Hv; [|assumption]. cbn in Hv. injection Hv as <-.
      apply f64_leb_refl. assumption.
    + exists 0%nat. split; [lia|reflexivity].
  - cbn in Hm. destruct (accumulate_from_maximum t x i m Hx Ht Hm) as (Hnm & Hle & Hub & Hatt).
    repeat split; [assumption| |].
    + intros j v Hj Hv Hnv. apply HFj in Hv; [|assumption].
      destruct j as [|j]; cbn in Hv.
      * injection Hv as <-. assumption.
      * apply (Hub j v); [lia|assumption].
    + destruct Hatt as [->|(j & Hj & Hv)].
      * exists 0%nat. split; [lia|reflexivity].
      * exists (S j). split; [lia|exact Hv].
Qed.

Lemma count_pos s i d : s !! i = Some d -> notnan d -> (0 < Pd.count s)%nat.
Proof.
  intros Hd Hn. unfold Pd.count.
  assert (Hin : d ∈ filter (fun x => F64.isnan x = false) s).
  { apply list_elem_of_filter. split; [exact Hn|]. eapply list_elem_of_lookup_2; eassumption. }
  destruct (filter (fun x => F64.isnan x = false) s); [inversion Hin|cbn; lia].
Qed.

(** The minimum of a series with a non-NaN entry: a lower bound of the
    non-NaN entries, taken by an entry of the series with NaN read as +inf. *)
Lemma pd_min_spec s i d :
  s !! i = Some d -> notnan d ->
  notnan (Pd.min s) /\
  (forall j v, s !! j = Some v -> notnan v -> (Pd.min s <=? v) = true) /\
  (exists j, Pd.fillna infinity s !! j = Some (Pd.min s)).
Proof.
  intros Hd Hn. unfold Pd.min.
  pose proof (count_pos s i d Hd Hn) as Hc.
  apply Nat.ltb_lt in Hc. rewrite Hc.
  pose proof (fillna_notnan infinity s eq_refl) as HF.
  assert (HFj : forall j v, s !! j = Some v -> notnan v ->
                            Pd.fillna infinity s !! j = Some v).
  { intros j v Hv Hnv. rewrite lookup_fillna, Hv. cbn. unfold notnan in Hnv.
    rewrite Hnv. reflexivity. }
  destruct (Pd.fillna infinity s) as [|x t] eqn:EF.
  - apply HFj in Hd; [discriminate Hd|assumption].
  - apply Forall_cons in HF. destruct HF as [Hx Ht]. cbn [Pd.reduce].
    destruct (fold_left_minimum t x Hx Ht) as (Hnr & Hle & Hlb & Hatt).
    repeat split; [assumption| |].
    + intros j v Hv Hnv. apply HFj in Hv; [|assumption].
      destruct j as [|j]; cbn in Hv.
      * injection Hv as <-. assumption.
      * apply (Hlb j v). assumption.
    + destruct Hatt as [Hr|(j & Hj)].
      * exists 0%nat. cbn. congruence.
      * exists (S j). exact Hj.
Qed.

Lemma f64_leb_neg_infinity e : (e <=? neg_infinity) = true -> F64.isinf e = true.
Proof.
  intros H. apply f64_isinf_spec. apply f64_leb_key in H. destruct H as (Hn & _ & H).
  change (Prim2SF neg_infinity) with (S754_infinity true) in H.
  destruct (Prim2SF e) as [s|[]| |[] m x]; cbn in H, Hn; try contradiction; eauto; lia.
Qed.

Lemma f64_isfinite_alt x : notnan x -> F64.isinf x = false -> F64.isfinite x = true.
Proof.
  unfold notnan, F64.isnan, F64.isinf, F64.isfinite. intros -> ->. reflexivity.
Qed.

Lemma f64_sub_1_1 : (1 - 1 = 0)%float.
Proof. reflexivity. Qed.

Lemma f64_infinity_not_le_0 : (infinity <=? 0) = false.
Proof. reflexivity. Qed.

Lemma lookup_drawdown eq i e m :
  eq !! i = Some e -> Pd.cummax eq !! i = Some m ->
  drawdown eq !! i = Some (e / m - 1).
Proof.
  intros He Hm. unfold drawdown. rewrite lookup_zip_with, He. cbn.
  rewrite Hm. reflexivity.
Qed.

Section Drawdown.
Variable curve : list float.
Variable e0 : float.
Hypothesis Hhead : curve !! 0%nat = Some e0.
Hypothesis Hpos : (0 <? e0) = true.
Hypothesis Hnoinf : Forall (fun e => F64.isinf e = false) curve.

Lemma e0_facts : notnan e0 /\ F64.isfinite e0 = true /\ (e0 =? 0) = false.
Proof.
  assert (Hn : notnan e0) by (eapply f64_ltb_not_nan_r; eassumption).
  repeat split; [assumption| |].
  - apply f64_isfinite_alt; [assumption|]. eapply Forall_lookup_1 in Hnoinf; eassumption.
  - destruct (e0 =? 0) eqn:E; [|reflexivity].
    pose proof (f64_ltb_not_eqb _ _ Hpos) as H.
    exfalso. apply f64_eqb_key in E. destruct E as (? & ? & E).
    assert ((0 =? e0) = true) by (apply f64_eqb_key; auto). congruence.
Qed.

(** The running maximum at a non-NaN entry is a positive finite entry of
    the curve. *)
Lemma running_max_facts i e m :
  curve !! i = Some e -> notnan e -> Pd.cummax curve !! i = Some m ->
  (e <=? m) = true /\ (0 <? m) = true /\ F64.isfinite m = true /\
  (forall j v, (j <= i)%nat -> curve !! j = Some v -> notnan v -> (v <=? m) = true) /\
  (exists j, (j <= i)%nat /\ curve !! j = Some m).
Proof.
  intros He Hne Hm.
  destruct (lookup_cummax curve i e He Hne) as (m' & Hm' & Hnm & Hub & (j & Hj & Hatt)).
  rewrite Hm in Hm'. injection Hm' as <-.
  destruct e0_facts as (Hn0 & _ & _).
  assert (Hem : (e <=? m) = true) by (apply (Hub i e); [lia|assumption|assumption]).
  assert (H0m : (e0 <=? m) = true) by (apply (Hub 0%nat e0); [lia|assumption|assumption]).
  assert (Hin : curve !! j = Some m).
  { rewrite lookup_fillna in Hatt.
    destruct (curve !! j) as [v|] eqn:Ev; [|discriminate Hatt].
    cbn in Hatt. destruct (F64.isnan v) eqn:Env; [|congruence].
    injection Hatt as <-. exfalso.
    apply f64_leb_neg_infinity in Hem.
    eapply Forall_lookup_1 in Hnoinf; [|exact He]. cbv beta in Hnoinf. congruence. }
  repeat split; try assumption.
  - eapply f64_ltb_leb_trans; eassumption.
  - apply f64_isfinite_alt; [assumption|].
    eapply Forall_lookup_1 in Hnoinf; [|exact Hin]. exact Hnoinf.
  - exists j. split; assumption.
Qed.

Lemma drawdown_head : drawdown curve !! 0%nat = Some 0.
Proof.
  destruct e0_facts as (Hn0 & Hf0 & Hz0).
  destruct (lookup_cummax curve 0 e0 Hhead Hn0) as (m & Hm & _ & _ & (j & Hj & Hatt)).
  assert (j = 0%nat) by lia. subst j.
  rewrite lookup_fillna, Hhead in Hatt. cbn in Hatt.
  unfold notnan in Hn0. rewrite Hn0 in Hatt. injection Hatt as <-.
  rewrite (lookup_drawdown _ _ _ _ Hhead Hm).
  rewrite f64_div_self by assumption. reflexivity.
Qed.

Lemma max_drawdown_nonpos : (max_dd curve <=? 0) = true.
Proof.
  destruct (pd_min_spec (drawdown curve) 0 0 drawdown_head eq_refl)
    as (_ & Hlb & _).
  apply (Hlb 0%nat 0); [exact drawdown_head|reflexivity].
Qed.

Lemma max_drawdown_is_min :
  (forall j d, drawdown curve !! j = Some d -> notnan d ->
               (max_dd curve <=? d) = true) /\
  (exists j, drawdown curve !! j = Some (max_dd curve)).
Proof.
  destruct (pd_min_spec (drawdown curve) 0 0 drawdown_head eq_refl)
    as (Hn & Hlb & (j & Hj)).
  split; [exact Hlb|]. exists j.
  rewrite lookup_fillna in Hj.
  destruct (drawdown curve !! j) as [d|] eqn:Ed; [|discriminate Hj].
  cbn [fmap option_fmap option_map] in Hj.
  destruct (F64.isnan d) eqn:End; [|unfold max_dd; congruence].
  exfalso. pose proof max_drawdown_nonpos as Hle.
  unfold max_dd in Hle. injection Hj as Hj. rewrite <- Hj in Hle.
  discriminate Hle.
Qed.

Lemma dip_gives_negative_drawdown i e m :
  curve !! i = Some e -> Pd.cummax curve !! i = Some m ->
  (e <? m) = true ->
  (max_dd curve <? 0) = true.
Proof.
  intros He Hm Hlt.
  assert (Hne : notnan e) by (eapply f64_ltb_not_nan_l; eassumption).
  destruct (running_max_facts i e m He Hne Hm) as (_ & Hmpos & Hmfin & _ & _).
  assert (Hefin : F64.isfinite e = true).
  { apply f64_isfinite_alt; [assumption|].
    eapply Forall_lookup_1 in Hnoinf; [|exact He]. exact Hnoinf. }
  pose proof (f64_div_lt_one e m Hefin Hmfin Hmpos Hlt) as Hq.
  apply f64_sub_one_neg in Hq.
  destruct max_drawdown_is_min as [Hlb _].
  eapply f64_leb_ltb_trans; [|exact Hq].
  apply (Hlb i).
  - apply lookup_drawdown; assumption.
  - eapply f64_ltb_not_nan_l; eassumption.
Qed.
End Drawdown.

(** *** Constant columns *)

Lemma fillna_replicate v n c : notnan c ->
  Pd.fillna v (replicate n c) = replicate n c.
Proof.
  intros Hc. unfold Pd.fillna. rewrite fmap_replicate. unfold notnan in Hc.
  rewrite Hc. reflexivity.
Qed.

Lemma accumulate_from_replicate f c n : f c c = c ->
  Pd.accumulate_from f c (replicate n c) = replicate n c.
Proof.
  intros Hf. induction n as [|n IH]; cbn; [reflexivity|].
  rewrite Hf, IH. reflexivity.
Qed.

Lemma na_accum_replicate f v n c : notnan c -> f c c = c ->
  Pd.na_accum f v (replicate n c) = replicate n c.
Proof.
  intros Hc Hf. unfold Pd.na_accum. rewrite fillna_replicate by assumption.
  assert (Ha : Pd.accumulate f (replicate n c) = replicate n c).
  { destruct n as [|n]; cbn; [reflexivity|].
    rewrite accumulate_from_replicate by assumption. reflexivity. }
  rewrite Ha, zip_with_replicate. unfold notnan in Hc. rewrite Hc. reflexivity.
Qed.

Lemma fold_left_replicate (f : float -> float -> float) c n : f c c = c ->
  fold_left f (replicate n c) c = c.
Proof.
  intros Hf. induction n as [|n IH]; cbn; [reflexivity|]. rewrite Hf. exact IH.
Qed.

Lemma pd_min_replicate n c : notnan c -> (0 < n)%nat ->
  Pd.min (replicate n c) = c.
Proof.
  intros Hc Hn. unfold Pd.min. rewrite fillna_replicate by assumption.
  destruct n as [|n]; [lia|]. cbn [replicate Pd.reduce].
  assert (Hm : F64.minimum c c = c).
  { unfold F64.minimum. rewrite f64_leb_refl by assumption. reflexivity. }
  rewrite fold_left_replicate by assumption.
  assert (Hcnt : (0 <? Pd.count (c :: replicate n c))%nat = true).
  { apply Nat.ltb_lt. apply (count_pos _ 0 c); [reflexivity|assumption]. }
  rewrite Hcnt. reflexivity.
Qed.

Lemma replicate_of_lookup {A} (l : list A) c :
  (forall i x, l !! i = Some x -> x = c) -> l = replicate (length l) c.
Proof.
  intros H. apply list_eq. intros i.
  destruct (l !! i) as [x|] eqn:E.
  - rewrite (H _ _ E). symmetry. apply lookup_replicate_2.
    eapply lookup_lt_Some; eassumption.
  - symmetry. apply lookup_replicate_None. apply lookup_ge_None. assumption.
Qed.

Lemma flat_signal_column sig :
  Forall (fun s => s = 0%Z) sig ->
  Pd.fillna 0 (Pd.shift (to_floats (IntCol sig))) = replicate (length sig) 0.
Proof.
  intros Hsig.
  assert (Hlen : length (Pd.fillna 0 (Pd.shift (to_floats (IntCol sig)))) = length sig).
  { rewrite length_fillna, length_shift. cbn. apply length_fmap. }
  rewrite <- Hlen. apply replicate_of_lookup. intros i x Hx.
  assert (Hi : (i < length (to_floats (IntCol sig)))%nat).
  { apply lookup_lt_Some in Hx. rewrite length_fillna, length_shift in Hx. exact Hx. }
  rewrite lookup_fillna in Hx. destruct i as [|i].
  - rewrite lookup_shift_0 in Hx by (intros H; rewrite H in Hi; cbn in Hi; lia).
    vm_compute in Hx. congruence.
  - rewrite lookup_shift_S in Hx by assumption.
    cbn [to_floats] in Hx. rewrite list_lookup_fmap in Hx.
    destruct (sig !! i) as [s|] eqn:Es; [|discriminate Hx].
    eapply Forall_lookup_1 in Hsig; [|exact Es]. cbv beta in Hsig. subst s.
    vm_compute in Hx. congruence.
Qed.

Lemma length_equity sr capital :
  length (equity sr capital) = length (to_floats sr).
Proof.
  unfold equity, Pd.cumprod. rewrite length_fmap, length_na_accum, length_fmap.
  reflexivity.
Qed.

(** With every signal 0 and finite price returns the curve stays at the
    starting capital. *)
Lemma flat_equity sig pr capital :
  Forall (fun s => s = 0%Z) sig ->
  Forall (fun p => F64.isfinite p = true) pr ->
  length sig = length pr ->
  equity (FloatCol (strat_ret (IntCol sig) (FloatCol pr))) capital =
  replicate (length pr) capital.
Proof.
  intros Hsig Hpr Hlen. unfold strat_ret.
  rewrite flat_signal_column by assumption. cbn [to_floats].
  unfold equity. cbn [to_floats].
  assert (Hones : (fun r => 1 + r) <$> zip_with PrimFloat.mul (replicate (length sig) 0) pr
                  = replicate (length pr) 1).
  { assert (Hl : length ((fun r => 1 + r) <$>
                  zip_with PrimFloat.mul (replicate (length sig) 0) pr) = length pr).
    { rewrite length_fmap, length_zip_with, length_replicate. lia. }
    rewrite <- Hl. apply replicate_of_lookup. intros i x Hx.
    rewrite list_lookup_fmap, lookup_zip_with in Hx.
    destruct (replicate (length sig) 0 !! i) as [a|] eqn:Ea; [|discriminate Hx].
    apply lookup_replicate in Ea. destruct Ea as [-> _].
    cbn in Hx. destruct (pr !! i) as [p|] eqn:Ep; [|discriminate Hx].
    cbn in Hx. injection Hx as <-.
    apply f64_add_one_zero. apply f64_mul_zero_finite.
    eapply Forall_lookup_1 in Hpr; [|exact Ep]. exact Hpr. }
  rewrite Hones. unfold Pd.cumprod.
  rewrite na_accum_replicate by reflexivity.
  rewrite fmap_replicate, f64_mul_1_l. reflexivity.
Qed.

Lemma flat_max_drawdown n c :
  F64.isfinite c = true -> (c =? 0) = false -> (0 < n)%nat ->
  max_dd (replicate n c) = 0.
Proof.
  intros Hf Hz Hn.
  assert (Hc : notnan c).
  { unfold notnan, F64.isnan. unfold F64.isfinite in Hf.
    apply andb_true_iff in Hf. destruct Hf as [Hf _].
    apply negb_true_iff in Hf. exact Hf. }
  unfold max_dd, drawdown, Pd.cummax.
  rewrite na_accum_replicate; [|assumption|].
  - rewrite zip_with_replicate, f64_div_self by assumption.
    rewrite f64_sub_1_1. apply pd_min_replicate; [reflexivity|assumption].
  - unfold F64.maximum. rewrite f64_leb_refl by assumption. reflexivity.
Qed.

(** ** The claims *)

Lemma lookup_new_columns (cols : gmap string column) pr sr eq :
  let cols' := <["equity" := FloatCol eq]>
                 (<["strat_ret" := FloatCol sr]>
                    (<["price_ret" := FloatCol pr]> cols)) in
  cols' !! "price_ret"%string = Some (FloatCol pr) /\
  cols' !! "strat_ret"%string = Some (FloatCol sr) /\
  cols' !! "equity"%string = Some (FloatCol eq).
Proof.
  cbv zeta. repeat split.
  - rewrite !lookup_insert_ne by discriminate. apply lookup_insert_eq.
  - rewrite lookup_insert_ne by discriminate. apply lookup_insert_eq.
  - apply lookup_insert_eq.
Qed.





(** C2 (the scenario of the specification).  On the prices
    [100, 110, 99, 99, 108.9] with the signals [1, 1, -1, 0, 0] and capital
    1 the run returns the strategy returns [0, 0.1, -0.1, -0, 0], the
    equity curve [1, 1.1, 0.99, 0.99, 0.99], the total return -0.01 and the
    maximum drawdown -0.10, each up to binary64 rounding: the exact values
    are stated, and each lies within 1e-15 of the decimal. *)
Theorem scenario_values
    (np_sum : list float -> float)
    (infer : list Z -> option string) (pow : float -> float -> float) :
  exists perf,
    fst (compute_performance np_sum infer pow "signal" "Close" 1 scenario) = inr perf /\
    returns_series perf =
      [0; 0.10000000000000009; -0.099999999999999978; -0; 0] /\
    equity_series perf =
      [1; 1.1000000000000001; 0.9900000000000001; 0.9900000000000001;
       0.9900000000000001] /\
    total_return perf = -0.0099999999999998979 /\
    max_drawdown perf = -0.099999999999999978 /\
    Forall2 (fun e v => (abs (e - v) <? 1e-15) = true)
      (equity_series perf) [1; 1.1; 0.99; 0.99; 0.99] /\
    (abs (total_return perf - -0.01) <? 1e-15) = true /\
    (abs (max_drawdown perf - -0.10) <? 1e-15) = true.
Proof.
  rewrite (compute_performance_run np_sum infer pow "signal" "Close" 1 scenario
             (FloatCol [100; 110; 99; 99; 108.9]) (IntCol [1; 1; -1; 0; 0]%Z)
             eq_refl eq_refl ltac:(discriminate)).
  cbn [fst].
  destruct (annualization_factor_or_default (infer (df_index scenario))) as [f Hf].
  change (infer_freq infer (df_index scenario)) with
    (@inr exn _ (infer (df_index scenario))).
  cbv beta iota. rewrite Hf.
  match goal with
  | |- context [Pd.iloc_last ?e] =>
      let v := eval vm_compute in (Pd.iloc_last e) in
      change (Pd.iloc_last e) with v
  end.
  eexists. split; [reflexivity|]. cbn [returns_series equity_series total_return max_drawdown].
  repeat split; try (vm_compute; reflexivity).
  repeat constructor.
Qed.

Lemma scenario_equity_counterexample :
  exists perf,
    fst (compute_performance Pd.sum infer_none example_pow "signal" "Close" 1 scenario)
      = inr perf /\
    equity_series perf !! 1%nat = Some 1.1000000000000001 /\
    equity_series perf <> [1; 1; 0.90; 0.90; 0.90] /\
    (0.08 <? abs (total_return perf - -0.10)) = true /\
    max_drawdown perf <> total_return perf.
Proof.
  eexists. split; [vm_compute; reflexivity|].
  cbn [equity_series total_return max_drawdown].
  repeat split; try reflexivity.
  - intros H.
    apply (f_equal (fun l => match l !! 1%nat with
                             | Some x => PrimFloat.eqb x 1
                             | None => false
                             end)) in H.
    vm_compute in H. discriminate H.
  - intros H. apply (f_equal (fun x => PrimFloat.ltb x (-0.05))) in H.
    vm_compute in H. discriminate H.
Qed.

(** C3 (annualization table).  ['D'] and ['B'] give 252, ['H'] gives
    1638 and ['T'] gives 6552; an undetermined frequency and a code outside
    the table give 252.  The codes pandas infers on 15-minute and 5-minute
    bars, ['15T'] and ['5T'], give 252 as well, not the 6552 that the
    dictionary's comment assigns to 15-minute bars. *)
Theorem annualization_factor_table :
  annualization_factor "D" = inr 252 /\
  annualization_factor "B" = inr 252 /\
  annualization_factor "H" = inr 1638 /\
  annualization_factor "T" = inr 6552 /\
  annualization_factor (or_default None "D") = inr 252 /\
  annualization_factor "W-SUN" = inr 252 /\
  annualization_factor "15T" = inr 252 /\
  annualization_factor "5T" = inr 252 /\
  annualization_factor "15min" = inr 252.
Proof. repeat split; vm_compute; reflexivity. Qed.

(** C9 (dispatch on the first character).  A non-empty frequency string
    whose first character is none of D, B, H and T gives 252; the result
    depends on the first character only; ['15T'] gives 252; the empty
    string raises [IndexError]. *)
Theorem annualization_first_char :
  (forall c rest,
      c <> "D"%char -> c <> "B"%char -> c <> "H"%char -> c <> "T"%char ->
      annualization_factor (String c rest) = inr 252) /\
  (forall c rest rest',
      annualization_factor (String c rest) = annualization_factor (String c rest')) /\
  annualization_factor "15T" = inr 252 /\
  annualization_factor "" = inl IndexError.
Proof.
  split; [exact annualization_factor_default|].
  split; [reflexivity|]. split; reflexivity.
Qed.

Lemma annualization_first_char_witness :
  annualization_factor "15T" = inr 252.
Proof.
  apply (proj1 annualization_first_char "1"%char "5T"); discriminate.
Defined.

(** C4 (maximum drawdown).  For an equity curve that starts at a positive
    value and has no infinite entry: at every non-NaN entry the running
    maximum bounds the non-NaN entries so far and is one of them, and the
    drawdown there is [e / m - 1]; [max_dd] is a lower bound of the non-NaN
    drawdowns and is one of them; it is at most 0; and when it equals 0 no
    entry lies below its running maximum. *)
Theorem max_drawdown_spec (curve : list float) (e0 : float) :
  curve !! 0%nat = Some e0 ->
  (0 <? e0) = true ->
  Forall (fun e => F64.isinf e = false) curve ->
  (forall i e, curve !! i = Some e -> F64.isnan e = false ->
     exists m,
       Pd.cummax curve !! i = Some m /\
       drawdown curve !! i = Some (e / m - 1) /\
       (forall j v, (j <= i)%nat -> curve !! j = Some v ->
                    F64.isnan v = false -> (v <=? m) = true) /\
       (exists j, (j <= i)%nat /\ curve !! j = Some m)) /\
  (forall j d, drawdown curve !! j = Some d -> F64.isnan d = false ->
               (max_dd curve <=? d) = true) /\
  (exists j, drawdown curve !! j = Some (max_dd curve)) /\
  (max_dd curve <=? 0) = true /\
  ((max_dd curve =? 0) = true ->
   forall i e m, curve !! i = Some e -> Pd.cummax curve !! i = Some m ->
                 (e <? m) = false).
Proof.
  intros Hhead Hpos Hnoinf.
  split; [|split; [|split; [|split]]].
  - intros i e He Hne.
    destruct (lookup_cummax curve i e He Hne) as (m & Hm & _).
    destruct (running_max_facts curve e0 Hhead Hpos Hnoinf i e m He Hne Hm)
      as (_ & _ & _ & Hub & Hatt).
    exists m. split; [exact Hm|]. split; [|split; assumption].
    apply lookup_drawdown; assumption.
  - apply (max_drawdown_is_min curve e0 Hhead Hpos Hnoinf).
  - apply (max_drawdown_is_min curve e0 Hhead Hpos Hnoinf).
  - apply (max_drawdown_nonpos curve e0 Hhead Hpos Hnoinf).
  - intros Hz i e m He Hm. destruct (e <? m) eqn:Hlt; [|reflexivity].
    pose proof (dip_gives_negative_drawdown curve e0 Hhead Hpos Hnoinf i e m He Hm Hlt) as Hneg.
    apply f64_ltb_not_eqb in Hneg. congruence.
Qed.

Lemma max_drawdown_spec_witness :
  (max_dd [1; 1.1; 0.99; 1.2] <=? 0) = true.
Proof.
  apply (max_drawdown_spec [1; 1.1; 0.99; 1.2] 1).
  - reflexivity.
  - reflexivity.
  - repeat constructor.
Defined.

Lemma drawdown_infinite_counterexample :
  exists perf,
    fst (compute_performance Pd.sum infer_none example_pow "signal" "Close" 1
           zero_price_reversal) = inr perf /\
    equity_series perf = [1; infinity; neg_infinity] /\
    Pd.cummax (equity_series perf) = [1; infinity; infinity] /\
    ~ ((max_drawdown perf =? 0) = true ->
       forall i e m, equity_series perf !! i = Some e ->
                     Pd.cummax (equity_series perf) !! i = Some m ->
                     (e <? m) = false).
Proof.
  eexists. split; [vm_compute; reflexivity|].
  cbn [equity_series max_drawdown].
  split; [reflexivity|]. split; [vm_compute; reflexivity|].
  intros H.
  specialize (H ltac:(vm_compute; reflexivity) 2%nat neg_infinity infinity
                eq_refl ltac:(vm_compute; reflexivity)).
  vm_compute in H. discriminate H.
Qed.

Section Totality.
Variable np_sum : Pd.Series -> float.
Variable infer : list Z -> option string.
Variable pow : float -> float -> float.

Lemma infer_freq_ge3 idx : (3 <= length idx)%nat ->
  infer_freq infer idx = inr (infer idx).
Proof.
  intros H. unfold infer_freq.
  destruct (Nat.ltb_spec (length idx) 3); [lia|reflexivity].
Qed.

(** On at least three rows, with both columns on the index,
    [compute_performance] returns a result. *)
Lemma compute_performance_ok signal_col price_col capital df pc sc :
  df_cols df !! price_col = Some pc ->
  df_cols df !! signal_col = Some sc ->
  signal_col <> "price_ret"%string ->
  col_length pc = length (df_index df) ->
  col_length sc = length (df_index df) ->
  (3 <= length (df_index df))%nat ->
  let pr := price_ret pc in
  let sr := strat_ret sc (FloatCol pr) in
  let eq := equity (FloatCol sr) capital in
  exists last_equity f,
    Pd.iloc_last eq = Some last_equity /\
    annualization_factor (or_default (infer (df_index df)) "D") = inr f /\
    length sr = length (df_index df) /\
    length eq = length (df_index df) /\
    fst (compute_performance np_sum infer pow signal_col price_col capital df) =
      inr (mkPerf (last_equity / capital - 1)
             (pow (1 + Pd.mean np_sum sr) f - 1)
             (Pd.std np_sum sr * PrimFloat.sqrt f)
             (sharpe (Pd.mean np_sum sr) (Pd.std np_sum sr) f)
             (max_dd eq) eq sr).
Proof.
  intros Hp Hs Hne Hlp Hls Hn pr sr eq.
  assert (Hlsr : length sr = length (df_index df)).
  { unfold sr. rewrite length_strat_ret. cbn [to_floats]. unfold pr.
    rewrite length_price_ret, !length_to_floats. lia. }
  assert (Hleq : length eq = length (df_index df)).
  { unfold eq. rewrite length_equity. exact Hlsr. }
  assert (Hlast : is_Some (Pd.iloc_last eq)).
  { unfold Pd.iloc_last. apply last_is_Some. intros H. rewrite H in Hleq.
    cbn in Hleq. lia. }
  destruct Hlast as [le Hle].
  destruct (annualization_factor_or_default (infer (df_index df))) as [f Hf].
  exists le, f. repeat split; try assumption.
  rewrite (compute_performance_run np_sum infer pow _ _ _ _ _ _ Hp Hs Hne).
  cbn [fst]. fold pr. fold sr. fold eq.
  rewrite Hle, (infer_freq_ge3 _ Hn), Hf. reflexivity.
Qed.

(** On one or two rows the frequency inference raises. *)
Lemma compute_performance_short signal_col price_col capital df pc sc :
  df_cols df !! price_col = Some pc ->
  df_cols df !! signal_col = Some sc ->
  signal_col <> "price_ret"%string ->
  col_length pc = length (df_index df) ->
  col_length sc = length (df_index df) ->
  (1 <= length (df_index df) < 3)%nat ->
  fst (compute_performance np_sum infer pow signal_col price_col capital df)
    = inl ValueError.
Proof.
  intros Hp Hs Hne Hlp Hls Hn.
  rewrite (compute_performance_run np_sum infer pow _ _ _ _ _ _ Hp Hs Hne).
  cbn [fst].
  set (sr := strat_ret sc (FloatCol (price_ret pc))).
  assert (Hleq : length (equity (FloatCol sr) capital) = length (df_index df)).
  { rewrite length_equity. cbn [to_floats]. unfold sr.
    rewrite length_strat_ret. cbn [to_floats].
    rewrite length_price_ret, !length_to_floats. lia. }
  destruct (Pd.iloc_last (equity (FloatCol sr) capital)) as [le|] eqn:Ele.
  - unfold infer_freq.
    destruct (Nat.ltb_spec (length (df_index df)) 3); [reflexivity|lia].
  - exfalso. unfold Pd.iloc_last in Ele. apply last_None in Ele.
    rewrite Ele in Hleq. cbn in Hleq. lia.
Qed.
End Totality.

(** C5 (Sharpe ratio).  On a DataFrame of at least three rows that has
    both columns [compute_performance] raises nothing; the returns it
    reports are the column [strat_ret] it has written, and with their mean
    and sample deviation its [sharpe_ratio] is
    [(mean_ret / std_ret) * sqrt(ann_factor)] when [std_ret != 0] (a NaN
    deviation counts as nonzero, as in Python) and NaN when
    [std_ret == 0].  NaN is not 0 and differs from every finite value.  On
    one or two rows the run raises [ValueError], whatever the deviation. *)
Theorem sharpe_ratio_cases :
  (forall (np_sum : list float -> float)
          (infer : list Z -> option string) (pow : float -> float -> float)
          (signal_col price_col : string) (capital : float)
          (df : DataFrame) (pc sc : column),
      df_cols df !! price_col = Some pc ->
      df_cols df !! signal_col = Some sc ->
      signal_col <> "price_ret"%string ->
      col_length pc = length (df_index df) ->
      col_length sc = length (df_index df) ->
      (3 <= length (df_index df))%nat ->
      let run := compute_performance np_sum infer pow signal_col price_col
                   capital df in
      let sr := strat_ret sc (FloatCol (price_ret pc)) in
      let mean_ret := Pd.mean np_sum sr in
      let std_ret := Pd.std np_sum sr in
      exists perf ann_factor,
        fst run = inr perf /\
        annualization_factor (or_default (infer (df_index df)) "D")
          = inr ann_factor /\
        df_cols (snd run) !! "strat_ret"%string = Some (FloatCol sr) /\
        returns_series perf = sr /\
        ((std_ret =? 0) = false ->
           sharpe_ratio perf
             = mean_ret / std_ret * PrimFloat.sqrt ann_factor) /\
        ((std_ret =? 0) = true -> sharpe_ratio perf = nan)) /\
  (F64.isnan nan = true /\ (nan =? 0) = false /\
   forall v, F64.isfinite v = true -> nan <> v /\ (nan =? v) = false) /\
  (forall (np_sum : list float -> float)
          (infer : list Z -> option string) (pow : float -> float -> float)
          (signal_col price_col : string) (capital : float)
          (df : DataFrame) (pc sc : column),
      df_cols df !! price_col = Some pc ->
      df_cols df !! signal_col = Some sc ->
      signal_col <> "price_ret"%string ->
      col_length pc = length (df_index df) ->
      col_length sc = length (df_index df) ->
      (1 <= length (df_index df) < 3)%nat ->
      fst (compute_performance np_sum infer pow signal_col price_col capital df)
        = inl ValueError).
Proof.
  split; [|split].
  - intros np_sum infer pow signal_col price_col capital df pc sc
           Hp Hs Hne Hlp Hls Hn run sr mean_ret std_ret.
    destruct (compute_performance_ok np_sum infer pow _ _ capital _ _ _
                Hp Hs Hne Hlp Hls Hn)
      as (le & f & _ & Hf & _ & _ & Hrun).
    cbv zeta in Hrun. fold sr in Hrun. fold mean_ret std_ret in Hrun.
    eexists. exists f. split; [exact Hrun|]. split; [exact Hf|].
    split.
    { unfold run.
      rewrite (compute_performance_run np_sum infer pow _ _ _ _ _ _ Hp Hs Hne).
      cbn [snd df_cols]. fold sr.
      rewrite lookup_insert_ne by discriminate. apply lookup_insert_eq. }
    cbn [returns_series sharpe_ratio]. split; [reflexivity|].
    unfold sharpe. split; intros Hz; rewrite Hz; reflexivity.
  - split; [reflexivity|]. split; [reflexivity|].
    intros v Hv. split.
    + intros <-. discriminate Hv.
    + destruct (nan =? v) eqn:E; [|reflexivity].
      apply f64_eqb_key in E. destruct E as (E & _). contradiction.
  - intros np_sum infer pow signal_col price_col capital df pc sc.
    apply compute_performance_short.
Qed.

Lemma sharpe_ratio_cases_witness :
  exists perf ann_factor,
    fst (compute_performance Pd.sum infer_none example_pow "signal" "Close" 1
           flat_strategy) = inr perf /\
    annualization_factor (or_default (infer_none (df_index flat_strategy)) "D")
      = inr ann_factor /\
    df_cols (snd (compute_performance Pd.sum infer_none example_pow "signal"
                    "Close" 1 flat_strategy)) !! "strat_ret"%string
      = Some (FloatCol (strat_ret (IntCol [0; 0; 0]%Z)
                          (FloatCol (price_ret (FloatCol [100; 110; 121]))))) /\
    returns_series perf
      = strat_ret (IntCol [0; 0; 0]%Z)
          (FloatCol (price_ret (FloatCol [100; 110; 121]))) /\
    ((Pd.std Pd.sum (strat_ret (IntCol [0; 0; 0]%Z)
                       (FloatCol (price_ret (FloatCol [100; 110; 121])))) =? 0)
       = false ->
     sharpe_ratio perf
       = Pd.mean Pd.sum (strat_ret (IntCol [0; 0; 0]%Z)
                           (FloatCol (price_ret (FloatCol [100; 110; 121]))))
         / Pd.std Pd.sum (strat_ret (IntCol [0; 0; 0]%Z)
                            (FloatCol (price_ret (FloatCol [100; 110; 121]))))
         * PrimFloat.sqrt ann_factor) /\
    ((Pd.std Pd.sum (strat_ret (IntCol [0; 0; 0]%Z)
                       (FloatCol (price_ret (FloatCol [100; 110; 121])))) =? 0)
       = true ->
     sharpe_ratio perf = nan).
Proof.
  apply (proj1 sharpe_ratio_cases Pd.sum infer_none example_pow "signal" "Close" 1
           flat_strategy (FloatCol [100; 110; 121]) (IntCol [0; 0; 0]%Z)).
  - reflexivity.
  - reflexivity.
  - discriminate.
  - reflexivity.
  - reflexivity.
  - cbn. lia.
Defined.

(** Two rows whose strategy returns have a sample deviation of 0: the run
    raises [ValueError] instead of reporting an undefined Sharpe ratio. *)
Lemma sharpe_short_frame_counterexample :
  df_cols two_rows_flat !! "Close"%string = Some (FloatCol [100; 110]) /\
  df_cols two_rows_flat !! "signal"%string = Some (IntCol [0; 0]%Z) /\
  df_cols (snd (compute_performance Pd.sum infer_none example_pow "signal"
                  "Close" 1 two_rows_flat)) !! "strat_ret"%string
    = Some (FloatCol [0; 0]) /\
  (Pd.std Pd.sum [0; 0] =? 0) = true /\
  fst (compute_performance Pd.sum infer_none example_pow "signal" "Close" 1
         two_rows_flat) = inl ValueError.
Proof.
  repeat split; vm_compute; reflexivity.
Qed.

(** C6 (flat signals).  On at least three rows, when every signal is 0,
    every price return is finite and the capital is finite and not 0, every
    entry of the equity curve equals the capital and the maximum drawdown
    is 0. *)
Theorem flat_signal_equity
    (np_sum : list float -> float)
    (infer : list Z -> option string) (pow : float -> float -> float)
    (signal_col price_col : string) (capital : float)
    (df : DataFrame) (pc : column) (sig : list Z) :
  df_cols df !! price_col = Some pc ->
  df_cols df !! signal_col = Some (IntCol sig) ->
  signal_col <> "price_ret"%string ->
  col_length pc = length (df_index df) ->
  length sig = length (df_index df) ->
  (3 <= length (df_index df))%nat ->
  Forall (fun s => s = 0%Z) sig ->
  Forall (fun p => F64.isfinite p = true) (price_ret pc) ->
  F64.isfinite capital = true ->
  (capital =? 0) = false ->
  exists perf,
    fst (compute_performance np_sum infer pow signal_col price_col capital df) = inr perf /\
    length (equity_series perf) = length (df_index df) /\
    (forall i x, equity_series perf !! i = Some x -> x = capital) /\
    max_drawdown perf = 0.
Proof.
  intros Hp Hs Hne Hlp Hls Hn Hsig Hfin Hcf Hcz.
  destruct (compute_performance_ok np_sum infer pow _ _ capital _ _ _ Hp Hs Hne Hlp
              ltac:(cbn; exact Hls) Hn)
    as (le & f & _ & _ & _ & Hleq & Hrun).
  eexists. split; [exact Hrun|]. cbn [equity_series max_drawdown].
  assert (Hlpr : length sig = length (price_ret pc)).
  { rewrite length_price_ret, length_to_floats. lia. }
  rewrite (flat_equity sig (price_ret pc) capital Hsig Hfin Hlpr) in Hleq |- *.
  split; [exact Hleq|]. split.
  - intros i x Hx. apply lookup_replicate in Hx. tauto.
  - apply flat_max_drawdown; try assumption.
    rewrite length_replicate in Hleq. lia.
Qed.

Lemma flat_signal_equity_witness :
  exists perf,
    fst (compute_performance Pd.sum infer_none example_pow "signal" "Close" 1 flat_strategy)
      = inr perf /\
    length (equity_series perf) = length (df_index flat_strategy) /\
    (forall i x, equity_series perf !! i = Some x -> x = 1) /\
    max_drawdown perf = 0.
Proof.
  apply (flat_signal_equity Pd.sum infer_none example_pow "signal" "Close" 1 flat_strategy
           (FloatCol [100; 110; 121]) [0; 0; 0]%Z).
  - reflexivity.
  - reflexivity.
  - discriminate.
  - reflexivity.
  - reflexivity.
  - cbn. lia.
  - repeat constructor.
  - vm_compute. repeat constructor.
  - reflexivity.
  - reflexivity.
Defined.

Lemma flat_signal_zero_price_counterexample :
  exists perf,
    fst (compute_performance Pd.sum infer_none example_pow "signal" "Close" 1 zero_price_flat)
      = inr perf /\
    df_cols zero_price_flat !! "signal"%string = Some (IntCol [0; 0; 0]%Z) /\
    ~ (forall i x, equity_series perf !! i = Some x -> (x =? 1) = true).
Proof.
  eexists. split; [vm_compute; reflexivity|]. split; [reflexivity|].
  cbn [equity_series]. intros H.
  specialize (H 1%nat nan ltac:(vm_compute; reflexivity)). discriminate H.
Qed.

Lemma f64_isinf_notnan x : F64.isinf x = true -> F64.isnan x = false.
Proof.
  intros H. apply f64_isinf_spec in H. destruct H as [s Hs].
  apply f64_not_nan_spec. rewrite Hs. exact I.
Qed.

Lemma f64_isinf_cases x :
  F64.isinf x = true -> x = infinity \/ x = neg_infinity.
Proof.
  intros H. apply f64_isinf_spec in H. destruct H as [[] Hs].
  - right. apply Prim2SF_inj. rewrite Hs. reflexivity.
  - left. apply Prim2SF_inj. rewrite Hs, Prim2SF_infinity. reflexivity.
Qed.

(** C7 (zero prior price).  On a frame of at least three rows whose
    prices hold no NaN and whose signals are -1, 0 or 1, a price of 0
    followed by a positive price raises no error: [compute_performance]
    returns its result; the price return of the later row is infinite and
    stays in the column [price_ret]; the strategy return of that row, the
    previous signal times that return, is NaN for a signal of 0 and
    infinite otherwise, and it is in the column [strat_ret] and in the
    returns handed back.  Nothing is checked before the statistics: on the
    prices 0, 1, 2 held long they are infinite or NaN, and on the prices
    1, 0, 1, 2, 3 with no position at the zero price all five are finite,
    the NaN return being skipped. *)
Theorem zero_price_propagates :
  (forall (np_sum : list float -> float)
          (infer : list Z -> option string) (pow : float -> float -> float)
          (signal_col price_col : string) (capital : float)
          (df : DataFrame) (prices : list float) (sig : list Z)
          (i : nat) (z p : float),
      df_cols df !! price_col = Some (FloatCol prices) ->
      df_cols df !! signal_col = Some (IntCol sig) ->
      signal_col <> "price_ret"%string ->
      length prices = length (df_index df) ->
      length sig = length (df_index df) ->
      (3 <= length (df_index df))%nat ->
      Forall (fun x => F64.isnan x = false) prices ->
      Forall is_signal sig ->
      prices !! i = Some z -> (z =? 0) = true ->
      prices !! S i = Some p -> (0 <? p) = true ->
      let run := compute_performance np_sum infer pow signal_col price_col
                   capital df in
      exists perf pr sr r s x,
        fst run = inr perf /\
        df_cols (snd run) !! "price_ret"%string = Some (FloatCol pr) /\
        df_cols (snd run) !! "strat_ret"%string = Some (FloatCol sr) /\
        returns_series perf = sr /\
        pr !! S i = Some r /\ F64.isinf r = true /\
        sig !! i = Some s /\
        sr !! S i = Some x /\ x = F64.of_Z s * r /\
        (s = 0%Z -> F64.isnan x = true) /\
        (s <> 0%Z -> F64.isinf x = true)) /\
  (exists perf,
      fst (compute_performance Pd.sum infer_none example_pow "signal" "Close" 1
             zero_price_long) = inr perf /\
      returns_series perf = [0; infinity; 1] /\
      equity_series perf = [1; infinity; infinity] /\
      total_return perf = infinity /\
      F64.isnan (annual_volatility perf) = true /\
      F64.isnan (sharpe_ratio perf) = true) /\
  (exists perf,
      fst (compute_performance Pd.sum infer_none example_pow "signal" "Close" 1
             zero_price_skipped) = inr perf /\
      returns_series perf = [0; -0; nan; 1; 0.5] /\
      equity_series perf = [1; 1; nan; 2; 3] /\
      F64.isfinite (total_return perf) = true /\
      F64.isfinite (annual_return perf) = true /\
      F64.isfinite (annual_volatility perf) = true /\
      F64.isfinite (sharpe_ratio perf) = true /\
      F64.isfinite (max_drawdown perf) = true).
Proof.
  split; [|split].
  - intros np_sum infer pow signal_col price_col capital df prices sig i z p
           Hp Hs Hne Hlp Hls Hn Hnn Hsig Hz Hz0 Hpi Hpos run.
    destruct (compute_performance_ok np_sum infer pow _ _ capital _ _ _ Hp Hs Hne
                ltac:(cbn; exact Hlp) ltac:(cbn; exact Hls) Hn)
      as (le & f & _ & _ & Hlsr & _ & Hrun).
    unfold run.
    rewrite (compute_performance_run np_sum infer pow _ _ _ _ _ _ Hp Hs Hne)
      in Hrun |- *.
    cbn [snd df_cols]. cbv zeta in Hlsr.
    set (pr := price_ret (FloatCol prices)) in *.
    set (sr := strat_ret (IntCol sig) (FloatCol pr)) in *.
    destruct (lookup_new_columns (df_cols df) pr sr (equity (FloatCol sr) capital))
      as (H1 & H2 & _).
    pose proof (f64_div_zero_inf p z Hpos Hz0) as Hinf.
    assert (Hr : pr !! S i = Some (p / z - 1)).
    { unfold pr, price_ret. cbn [to_floats].
      rewrite lookup_fillna, (lookup_pct_change_S prices i z p Hnn Hz Hpi).
      cbn [fmap option_fmap option_map]. rewrite (f64_isinf_notnan _ Hinf).
      reflexivity. }
    assert (Hx : exists x, sr !! S i = Some x).
    { apply lookup_lt_is_Some. rewrite Hlsr, <- Hlp.
      eapply lookup_lt_Some. exact Hpi. }
    destruct Hx as (x & Hx).
    destruct (lookup_strat_ret_S sig (FloatCol pr) i x Hsig Hx)
      as (s & r & Hs_i & Hr' & Hxeq).
    cbn [to_floats] in Hr'. rewrite Hr in Hr'. injection Hr' as <-.
    eexists. exists pr, sr, (p / z - 1), s, x.
    split; [exact Hrun|]. split; [exact H1|]. split; [exact H2|].
    split; [reflexivity|]. split; [exact Hr|]. split; [exact Hinf|].
    split; [exact Hs_i|]. split; [exact Hx|]. split; [exact Hxeq|].
    pose proof (Forall_lookup_1 _ _ _ _ Hsig Hs_i) as Hcase.
    rewrite Hxeq.
    destruct (f64_isinf_cases _ Hinf) as [-> | ->];
      destruct Hcase as [-> | [-> | ->]];
      (split; [intros H0; try discriminate H0; reflexivity
              |intros H0; try (exfalso; apply H0; reflexivity); reflexivity]).
  - eexists. split; [vm_compute; reflexivity|].
    cbn [returns_series equity_series total_return annual_volatility sharpe_ratio].
    repeat split; vm_compute; reflexivity.
  - eexists. split; [vm_compute; reflexivity|].
    cbn [returns_series equity_series total_return annual_return
         annual_volatility sharpe_ratio max_drawdown].
    repeat split; vm_compute; reflexivity.
Qed.

Lemma zero_price_propagates_witness :
  exists perf pr sr r s x,
    fst (compute_performance Pd.sum infer_none example_pow "signal" "Close" 1
           zero_price_long) = inr perf /\
    df_cols (snd (compute_performance Pd.sum infer_none example_pow "signal"
                    "Close" 1 zero_price_long)) !! "price_ret"%string
      = Some (FloatCol pr) /\
    df_cols (snd (compute_performance Pd.sum infer_none example_pow "signal"
                    "Close" 1 zero_price_long)) !! "strat_ret"%string
      = Some (FloatCol sr) /\
    returns_series perf = sr /\
    pr !! 1%nat = Some r /\ F64.isinf r = true /\
    [1; 1; 1]%Z !! 0%nat = Some s /\
    sr !! 1%nat = Some x /\ x = F64.of_Z s * r /\
    (s = 0%Z -> F64.isnan x = true) /\
    (s <> 0%Z -> F64.isinf x = true).
Proof.
  apply (proj1 zero_price_propagates Pd.sum infer_none example_pow "signal" "Close"
           1 zero_price_long [0; 1; 2] [1; 1; 1]%Z 0%nat 0 1).
  - reflexivity.
  - reflexivity.
  - discriminate.
  - reflexivity.
  - reflexivity.
  - cbn. lia.
  - repeat constructor.
  - repeat (constructor; [right; right; reflexivity|]). constructor.
  - reflexivity.
  - reflexivity.
  - reflexivity.
  - reflexivity.
Defined.

Lemma zero_price_no_error_counterexample :
  exists perf,
    fst (compute_performance Pd.sum infer_none example_pow "signal" "Close" 1 zero_price_long)
      = inr perf /\
    df_cols zero_price_long !! "Close"%string = Some (FloatCol [0; 1; 2]) /\
    returns_series perf = [0; infinity; 1] /\
    equity_series perf = [1; infinity; infinity] /\
    total_return perf = infinity /\
    Pd.mean Pd.sum (returns_series perf) = infinity /\
    F64.isnan (annual_volatility perf) = true /\
    F64.isnan (sharpe_ratio perf) = true.
Proof.
  eexists. split; [vm_compute; reflexivity|].
  cbn [returns_series equity_series total_return annual_volatility sharpe_ratio].
  repeat split; vm_compute; reflexivity.
Qed.

(** C8 (frame effect).  [compute_performance] leaves the index and every
    column other than [price_ret], [strat_ret] and [equity] as they were and
    writes these three columns into the caller's DataFrame; the series it
    returns are the columns [equity] and [strat_ret] it wrote. *)
Theorem frame_effect
    (np_sum : list float -> float)
    (infer : list Z -> option string) (pow : float -> float -> float)
    (signal_col price_col : string) (capital : float)
    (df : DataFrame) (pc sc : column) :
  df_cols df !! price_col = Some pc ->
  df_cols df !! signal_col = Some sc ->
  signal_col <> "price_ret"%string ->
  let run := compute_performance np_sum infer pow signal_col price_col capital df in
  let pr := price_ret pc in
  let sr := strat_ret sc (FloatCol pr) in
  let eq := equity (FloatCol sr) capital in
  df_index (snd run) = df_index df /\
  (forall name, name <> "price_ret"%string -> name <> "strat_ret"%string ->
                name <> "equity"%string ->
                df_cols (snd run) !! name = df_cols df !! name) /\
  df_cols (snd run) !! "price_ret"%string = Some (FloatCol pr) /\
  df_cols (snd run) !! "strat_ret"%string = Some (FloatCol sr) /\
  df_cols (snd run) !! "equity"%string = Some (FloatCol eq) /\
  (forall perf, fst run = inr perf ->
                equity_series perf = eq /\ returns_series perf = sr).
Proof.
  intros Hp Hs Hne run pr sr eq. unfold run.
  rewrite (compute_performance_run np_sum infer pow _ _ _ _ _ _ Hp Hs Hne).
  fold pr. fold sr. fold eq. cbn [fst snd df_index df_cols].
  destruct (lookup_new_columns (df_cols df) pr sr eq) as (H1 & H2 & H3).
  split; [reflexivity|]. split; [|split; [exact H1|split; [exact H2|split; [exact H3|]]]].
  - intros name N1 N2 N3. rewrite !lookup_insert_ne by congruence. reflexivity.
  - intros perf Hperf.
    destruct (Pd.iloc_last eq) as [le|]; [|discriminate Hperf].
    destruct (infer_freq infer (df_index df)) as [e|o]; [discriminate Hperf|].
    destruct (annualization_factor (or_default o "D")) as [e|f]; [discriminate Hperf|].
    injection Hperf as <-. split; reflexivity.
Qed.

Lemma frame_effect_witness :
  df_index (snd (compute_performance Pd.sum infer_none example_pow "signal" "Close" 1 scenario))
    = df_index scenario /\
  df_cols (snd (compute_performance Pd.sum infer_none example_pow "signal" "Close" 1 scenario))
    !! "Close"%string = df_cols scenario !! "Close"%string /\
  df_cols (snd (compute_performance Pd.sum infer_none example_pow "signal" "Close" 1 scenario))
    !! "signal"%string = df_cols scenario !! "signal"%string.
Proof.
  destruct (frame_effect Pd.sum infer_none example_pow "signal" "Close" 1 scenario
              (FloatCol [100; 110; 99; 99; 108.9]) (IntCol [1; 1; -1; 0; 0]%Z)
              eq_refl eq_refl ltac:(discriminate)) as (H1 & H2 & _).
  split; [exact H1|].
  split; apply H2; discriminate.
Defined.

Lemma input_frame_mutated_counterexample :
  df_cols scenario !! "equity"%string = None /\
  df_cols (snd (compute_performance Pd.sum infer_none example_pow "signal" "Close" 1 scenario))
    !! "equity"%string
    = Some (FloatCol [1; 1.1000000000000001; 0.9900000000000001;
                      0.9900000000000001; 0.9900000000000001]) /\
  snd (compute_performance Pd.sum infer_none example_pow "signal" "Close" 1 scenario)
    <> scenario.
Proof.
  split; [reflexivity|]. split; [vm_compute; reflexivity|].
  intros H. apply (f_equal (fun d => df_cols d !! "equity"%string)) in H.
  vm_compute in H. discriminate H.
Qed.

Lemma singleton_of_lookup {A} (l : list A) x :
  length l = 1%nat -> l !! 0%nat = Some x -> l = [x].
Proof.
  destruct l as [|y [|z t]]; cbn; intros Hl Hx; try discriminate Hl.
  congruence.
Qed.

Lemma one_row_columns pc sc capital :
  col_length pc = 1%nat -> col_length sc = 1%nat ->
  price_ret pc = [0] /\
  strat_ret sc (FloatCol (price_ret pc)) = [0] /\
  equity (FloatCol (strat_ret sc (FloatCol (price_ret pc)))) capital
    = [capital].
Proof.
  intros Hp Hs.
  assert (Hpr : price_ret pc = [0]).
  { apply singleton_of_lookup.
    - rewrite length_price_ret, length_to_floats. exact Hp.
    - apply lookup_price_ret_0. intros H.
      apply (f_equal length) in H. rewrite length_to_floats, Hp in H. discriminate H. }
  rewrite Hpr.
  assert (Hsr : strat_ret sc (FloatCol [0]) = [0]).
  { apply singleton_of_lookup.
    - rewrite length_strat_ret, length_to_floats, Hs. reflexivity.
    - destruct (strat_ret sc (FloatCol [0]) !! 0%nat) as [x|] eqn:Ex.
      + apply lookup_strat_ret_0 in Ex. destruct Ex as (p & Hp0 & ->).
        cbn in Hp0. injection Hp0 as <-. reflexivity.
      + apply lookup_ge_None in Ex.
        rewrite length_strat_ret, length_to_floats, Hs in Ex. cbn in Ex. lia. }
  rewrite Hsr. repeat split.
  unfold equity. cbn [to_floats].
  change (Pd.cumprod ((fun r => 1 + r) <$> [0])) with [1].
  cbn [fmap list_fmap]. rewrite f64_mul_1_l. reflexivity.
Qed.

(** C10 (one-row input).  On a one-row DataFrame [compute_performance]
    writes [strat_ret = [0]] and [equity = [capital]] and then raises
    [ValueError] at the frequency inference, so it returns no statistics.
    The total return of that curve would be 0 for a finite nonzero capital;
    the sample standard deviation of [[0]] is NaN, and with it the
    volatility and Sharpe formulas give NaN. *)
Theorem one_row_input
    (np_sum : list float -> float)
    (infer : list Z -> option string) (pow : float -> float -> float)
    (signal_col price_col : string) (capital : float)
    (df : DataFrame) (t : Z) (pc sc : column) :
  df_index df = [t] ->
  df_cols df !! price_col = Some pc ->
  df_cols df !! signal_col = Some sc ->
  signal_col <> "price_ret"%string ->
  col_length pc = 1%nat ->
  col_length sc = 1%nat ->
  let run := compute_performance np_sum infer pow signal_col price_col capital df in
  fst run = inl ValueError /\
  df_cols (snd run) !! "strat_ret"%string = Some (FloatCol [0]) /\
  df_cols (snd run) !! "equity"%string = Some (FloatCol [capital]) /\
  (F64.isfinite capital = true -> (capital =? 0) = false ->
   capital / capital - 1 = 0) /\
  Pd.std np_sum [0] = nan /\
  (forall mean_ret ann_factor,
      Pd.std np_sum [0] * PrimFloat.sqrt ann_factor = nan /\
      sharpe mean_ret (Pd.std np_sum [0]) ann_factor = nan).
Proof.
  intros Hidx Hp Hs Hne Hlp Hls run. unfold run.
  rewrite (compute_performance_run np_sum infer pow _ _ _ _ _ _ Hp Hs Hne).
  destruct (one_row_columns pc sc capital Hlp Hls) as (Hpr & Hsr & Heq).
  rewrite Hpr in *. rewrite Hsr in *. rewrite Heq. rewrite Hidx.
  cbn [fst snd df_cols].
  destruct (lookup_new_columns (df_cols df) [0] [0] [capital]) as (_ & H2 & H3).
  split; [reflexivity|]. split; [exact H2|]. split; [exact H3|].
  assert (Hstd : Pd.std np_sum [0] = nan).
  { unfold Pd.std, Pd.var. change (Pd.count [0]) with 1%nat.
    cbv beta iota zeta. change (1 <=? 1)%nat with true. cbv iota.
    rewrite f64_div_nan_r. reflexivity. }
  split; [|split; [exact Hstd|]].
  - intros Hf Hz. rewrite f64_div_self by assumption. reflexivity.
  - intros m f. rewrite Hstd. split.
    + apply f64_mul_nan_l.
    + unfold sharpe. change (negb (nan =? 0)) with true. cbv iota.
      rewrite f64_div_nan_r. apply f64_mul_nan_l.
Qed.

Lemma one_row_input_witness :
  fst (compute_performance Pd.sum infer_none example_pow "signal" "Close" 1 one_row)
    = inl ValueError.
Proof.
  apply (one_row_input Pd.sum infer_none example_pow "signal" "Close" 1 one_row 0%Z
           (FloatCol [100]) (IntCol [1%Z])); first [reflexivity | discriminate].
Defined.

Lemma one_row_raises_counterexample :
  ~ (exists perf,
       fst (compute_performance Pd.sum infer_none example_pow "signal" "Close" 1 one_row)
         = inr perf /\
       total_return perf = 0 /\
       F64.isnan (annual_volatility perf) = true /\
       F64.isnan (sharpe_ratio perf) = true).
Proof.
  intros (perf & H & _). vm_compute in H. discriminate H.
Qed.

(** * Further properties of the code *)

Local Open Scope float_scope.

(** ** Errors and edges of compute_performance *)

(** X1 (missing columns).  Without the price column [compute_performance]
    raises [KeyError] and leaves the frame as it was.  With the price
    column but without the signal column it raises [KeyError] as well,
    after it has written the column [price_ret] into the frame. *)
Theorem missing_column_raises_KeyError
    (np_sum : list float -> float)
    (infer : list Z -> option string) (pow : float -> float -> float)
    (signal_col price_col : string) (capital : float) (df : DataFrame) :
  (df_cols df !! price_col = None ->
   compute_performance np_sum infer pow signal_col price_col capital df
     = (inl KeyError, df)) /\
  (forall pc,
      df_cols df !! price_col = Some pc ->
      df_cols df !! signal_col = None ->
      signal_col <> "price_ret"%string ->
      compute_performance np_sum infer pow signal_col price_col capital df
        = (inl KeyError,
           mkDF (df_index df)
                (<["price_ret" := FloatCol (price_ret pc)]> (df_cols df)))).
Proof.
  split.
  - intros Hp. unfold compute_performance, bind, getitem. rewrite Hp. reflexivity.
  - intros pc Hp Hs Hne. unfold compute_performance, bind, getitem, setitem.
    rewrite Hp. cbn [df_cols df_index].
    rewrite lookup_insert_ne by congruence. rewrite Hs. reflexivity.
Qed.

Lemma missing_column_raises_KeyError_witness :
  compute_performance Pd.sum infer_none example_pow "signal" "Adj Close" 1 scenario
    = (inl KeyError, scenario) /\
  fst (compute_performance Pd.sum infer_none example_pow "position" "Close" 1 scenario)
    = inl KeyError.
Proof.
  split.
  - apply (proj1 (missing_column_raises_KeyError Pd.sum infer_none example_pow
                    "signal" "Adj Close" 1 scenario)). reflexivity.
  - rewrite (proj2 (missing_column_raises_KeyError Pd.sum infer_none example_pow
                      "position" "Close" 1 scenario)
               (FloatCol [100; 110; 99; 99; 108.9]) eq_refl eq_refl ltac:(discriminate)).
    reflexivity.
Defined.

(** X2 (number of rows).  On a frame whose price and signal columns have
    the length of the index, [compute_performance] raises [IndexError] on
    no row ([iloc[-1]]), [ValueError] on one or two rows ([infer_freq]),
    and returns a result on three rows or more, with one equity value and
    one strategy return per row. *)
Theorem outcome_by_row_count
    (np_sum : list float -> float)
    (infer : list Z -> option string) (pow : float -> float -> float)
    (signal_col price_col : string) (capital : float)
    (df : DataFrame) (pc sc : column) :
  df_cols df !! price_col = Some pc ->
  df_cols df !! signal_col = Some sc ->
  signal_col <> "price_ret"%string ->
  col_length pc = length (df_index df) ->
  col_length sc = length (df_index df) ->
  let outcome := fst (compute_performance np_sum infer pow signal_col price_col capital df) in
  (length (df_index df) = 0%nat -> outcome = inl IndexError) /\
  ((1 <= length (df_index df) < 3)%nat -> outcome = inl ValueError) /\
  ((3 <= length (df_index df))%nat ->
   exists perf, outcome = inr perf /\
     length (equity_series perf) = length (df_index df) /\
     length (returns_series perf) = length (df_index df)).
Proof.
  intros Hp Hs Hne Hlp Hls outcome.
  assert (Hlsr : length (strat_ret sc (FloatCol (price_ret pc))) = length (df_index df)).
  { rewrite length_strat_ret. cbn [to_floats].
    rewrite length_price_ret, !length_to_floats. lia. }
  assert (Hleq : length (equity (FloatCol (strat_ret sc (FloatCol (price_ret pc)))) capital)
                 = length (df_index df)).
  { rewrite length_equity. exact Hlsr. }
  split; [|split].
  - intros Hn. unfold outcome.
    rewrite (compute_performance_run np_sum infer pow _ _ _ _ _ _ Hp Hs Hne). cbn [fst].
    rewrite Hn in Hleq.
    destruct (equity (FloatCol (strat_ret sc (FloatCol (price_ret pc)))) capital);
      [reflexivity|discriminate Hleq].
  - intros Hn. unfold outcome.
    rewrite (compute_performance_run np_sum infer pow _ _ _ _ _ _ Hp Hs Hne). cbn [fst].
    assert (Hlast : is_Some (Pd.iloc_last
              (equity (FloatCol (strat_ret sc (FloatCol (price_ret pc)))) capital))).
    { unfold Pd.iloc_last. apply last_is_Some. intros H. rewrite H in Hleq.
      cbn in Hleq. lia. }
    destruct Hlast as [le Hle]. rewrite Hle.
    unfold infer_freq. destruct (Nat.ltb_spec (length (df_index df)) 3); [reflexivity|lia].
  - intros Hn.
    destruct (compute_performance_ok np_sum infer pow _ _ capital _ _ _ Hp Hs Hne Hlp Hls Hn)
      as (le & f & _ & _ & Hl1 & Hl2 & Hrun).
    eexists. split; [exact Hrun|]. cbn [equity_series returns_series]. split; assumption.
Qed.

Lemma outcome_by_row_count_witness :
  fst (compute_performance Pd.sum infer_none example_pow "signal" "Close" 1
         (frame [0; 1]%Z [100; 110] [1; 0]%Z)) = inl ValueError.
Proof.
  apply (proj1 (proj2 (outcome_by_row_count Pd.sum infer_none example_pow "signal" "Close" 1
                         (frame [0; 1]%Z [100; 110] [1; 0]%Z)
                         (FloatCol [100; 110]) (IntCol [1; 0]%Z)
                         eq_refl eq_refl ltac:(discriminate) eq_refl eq_refl))).
  cbn. lia.
Defined.

Lemma lookup_cumprod_0 s x :
  s !! 0%nat = Some x -> F64.isnan x = false -> Pd.cumprod s !! 0%nat = Some x.
Proof.
  intros Hs Hx. unfold Pd.cumprod, Pd.na_accum.
  destruct s as [|y t]; [discriminate Hs|]. cbn in Hs. injection Hs as ->.
  cbn. rewrite Hx. reflexivity.
Qed.

(** X3 (first row).  On a frame with at least one row, after
    [compute_performance] has run, the columns [price_ret] and [strat_ret]
    start with 0 and the column [equity] starts at the capital. *)
Theorem equity_starts_at_capital
    (np_sum : list float -> float)
    (infer : list Z -> option string) (pow : float -> float -> float)
    (signal_col price_col : string) (capital : float)
    (df : DataFrame) (pc sc : column) :
  df_cols df !! price_col = Some pc ->
  df_cols df !! signal_col = Some sc ->
  signal_col <> "price_ret"%string ->
  col_length pc = length (df_index df) ->
  col_length sc = length (df_index df) ->
  (1 <= length (df_index df))%nat ->
  let df' := snd (compute_performance np_sum infer pow signal_col price_col capital df) in
  exists pr sr eq,
    df_cols df' !! "price_ret"%string = Some (FloatCol pr) /\
    df_cols df' !! "strat_ret"%string = Some (FloatCol sr) /\
    df_cols df' !! "equity"%string = Some (FloatCol eq) /\
    pr !! 0%nat = Some 0 /\ sr !! 0%nat = Some 0 /\ eq !! 0%nat = Some capital.
Proof.
  intros Hp Hs Hne Hlp Hls Hn df'. unfold df'.
  rewrite (compute_performance_run np_sum infer pow _ _ _ _ _ _ Hp Hs Hne).
  cbn [snd df_cols].
  set (pr := price_ret pc). set (sr := strat_ret sc (FloatCol pr)).
  set (eq := equity (FloatCol sr) capital).
  destruct (lookup_new_columns (df_cols df) pr sr eq) as (H1 & H2 & H3).
  exists pr, sr, eq. split; [exact H1|]. split; [exact H2|]. split; [exact H3|].
  assert (Hpr0 : pr !! 0%nat = Some 0).
  { apply lookup_price_ret_0. intros H. apply (f_equal length) in H.
    rewrite length_to_floats in H. cbn in H. lia. }
  assert (Hsr0 : sr !! 0%nat = Some 0).
  { destruct (sr !! 0%nat) as [x|] eqn:Ex.
    - apply lookup_strat_ret_0 in Ex. destruct Ex as (p & Hp0 & ->).
      cbn [to_floats] in Hp0. rewrite Hpr0 in Hp0. injection Hp0 as <-. reflexivity.
    - apply lookup_ge_None in Ex. unfold sr in Ex.
      rewrite length_strat_ret in Ex. cbn [to_floats] in Ex. unfold pr in Ex.
      rewrite length_price_ret, !length_to_floats in Ex. lia. }
  split; [exact Hpr0|]. split; [exact Hsr0|].
  unfold eq, equity. cbn [to_floats].
  rewrite list_lookup_fmap.
  rewrite (lookup_cumprod_0 _ 1).
  - cbn. rewrite f64_mul_1_l. reflexivity.
  - rewrite list_lookup_fmap, Hsr0. reflexivity.
  - reflexivity.
Qed.

Lemma equity_starts_at_capital_witness :
  exists pr sr eq,
    df_cols (snd (compute_performance Pd.sum infer_none example_pow "signal" "Close" 1000
                    zero_price_long)) !! "price_ret"%string = Some (FloatCol pr) /\
    df_cols (snd (compute_performance Pd.sum infer_none example_pow "signal" "Close" 1000
                    zero_price_long)) !! "strat_ret"%string = Some (FloatCol sr) /\
    df_cols (snd (compute_performance Pd.sum infer_none example_pow "signal" "Close" 1000
                    zero_price_long)) !! "equity"%string = Some (FloatCol eq) /\
    pr !! 0%nat = Some 0 /\ sr !! 0%nat = Some 0 /\ eq !! 0%nat = Some 1000.
Proof.
  apply (equity_starts_at_capital Pd.sum infer_none example_pow "signal" "Close" 1000
           zero_price_long (FloatCol [0; 1; 2]) (IntCol [1; 1; 1]%Z)).
  - reflexivity.
  - reflexivity.
  - discriminate.
  - reflexivity.
  - reflexivity.
  - cbn. lia.
Defined.

Lemma insert_three_twice (cols : gmap string column) a b c :
  <["equity" := c]> (<["strat_ret" := b]> (<["price_ret" := a]>
    (<["equity" := c]> (<["strat_ret" := b]> (<["price_ret" := a]> cols)))))
  = <["equity" := c]> (<["strat_ret" := b]> (<["price_ret" := a]> cols)).
Proof.
  apply map_eq. intros k.
  destruct (decide (k = "equity"%string)) as [->|N1].
  { rewrite !lookup_insert_eq. reflexivity. }
  rewrite !(lookup_insert_ne _ "equity") by congruence.
  destruct (decide (k = "strat_ret"%string)) as [->|N2].
  { rewrite !lookup_insert_eq. reflexivity. }
  rewrite !(lookup_insert_ne _ "strat_ret") by congruence.
  destruct (decide (k = "price_ret"%string)) as [->|N3].
  { rewrite !lookup_insert_eq. reflexivity. }
  repeat rewrite lookup_insert_ne by congruence.
  reflexivity.
Qed.

(** X4 (second run).  When neither the price column nor the signal column
    is one of the three columns the function writes, running
    [compute_performance] again on the frame it has left gives the same
    result and the same frame. *)
Theorem rerun_is_idempotent
    (np_sum : list float -> float)
    (infer : list Z -> option string) (pow : float -> float -> float)
    (signal_col price_col : string) (capital : float)
    (df : DataFrame) (pc sc : column) :
  df_cols df !! price_col = Some pc ->
  df_cols df !! signal_col = Some sc ->
  price_col <> "price_ret"%string -> price_col <> "strat_ret"%string ->
  price_col <> "equity"%string ->
  signal_col <> "price_ret"%string -> signal_col <> "strat_ret"%string ->
  signal_col <> "equity"%string ->
  let first := compute_performance np_sum infer pow signal_col price_col capital df in
  compute_performance np_sum infer pow signal_col price_col capital (snd first) = first.
Proof.
  intros Hp Hs P1 P2 P3 S1 S2 S3 first. unfold first.
  rewrite (compute_performance_run np_sum infer pow _ _ _ _ _ _ Hp Hs S1). cbn [snd].
  set (pr := price_ret pc). set (sr := strat_ret sc (FloatCol pr)).
  set (eq := equity (FloatCol sr) capital).
  rewrite (compute_performance_run np_sum infer pow signal_col price_col capital _ pc sc).
  - cbn [df_index df_cols]. fold pr. fold sr. fold eq.
    rewrite insert_three_twice. reflexivity.
  - cbn [df_cols]. rewrite !lookup_insert_ne by congruence. exact Hp.
  - cbn [df_cols]. rewrite !lookup_insert_ne by congruence. exact Hs.
  - exact S1.
Qed.

Lemma rerun_is_idempotent_witness :
  compute_performance Pd.sum infer_none example_pow "signal" "Close" 1
    (snd (compute_performance Pd.sum infer_none example_pow "signal" "Close" 1 scenario))
  = compute_performance Pd.sum infer_none example_pow "signal" "Close" 1 scenario.
Proof.
  apply (rerun_is_idempotent Pd.sum infer_none example_pow "signal" "Close" 1 scenario
           (FloatCol [100; 110; 99; 99; 108.9]) (IntCol [1; 1; -1; 0; 0]%Z));
    first [reflexivity | discriminate].
Defined.

Local Open Scope float_scope.

(** *** Curves that never decline *)

(** Two positive floats that bound each other are the same float. *)
Lemma f64_leb_antisym_pos a b :
  (0 <? a) = true -> (a <=? b) = true -> (b <=? a) = true -> a = b.
Proof.
  intros Hpos Hab Hba.
  apply Prim2SF_inj.
  apply f64_pos_spec in Hpos.
  apply f64_leb_key in Hab, Hba.
  destruct Hab as (_ & _ & Hab). destruct Hba as (_ & Hnb & Hba).
  destruct Hpos as [(m & e & Ha)|Ha]; rewrite Ha in *;
    destruct (Prim2SF b) as [[]|[]| |[] mb eb]; cbn [key not_nan] in *;
    try contradiction; cbv [lt3 le3] in *; try (exfalso; lia); try reflexivity.
  assert (e = eb) by lia. assert (m = mb) by lia. subst. reflexivity.
Qed.

Lemma nondecreasing_le (curve : list float) :
  (forall i a b, curve !! i = Some a -> curve !! S i = Some b -> (a <=? b) = true) ->
  forall d i a b, curve !! i = Some a -> curve !! (i + d)%nat = Some b ->
    F64.isnan a = false -> (a <=? b) = true.
Proof.
  intros Hstep d. induction d as [|d IH]; intros i a b Ha Hb Hn.
  - rewrite Nat.add_0_r, Ha in Hb. injection Hb as <-. apply f64_leb_refl. exact Hn.
  - assert (Hc : exists c, curve !! (i + d)%nat = Some c).
    { apply lookup_lt_is_Some. apply lookup_lt_Some in Hb. lia. }
    destruct Hc as (c & Hc).
    apply f64_leb_trans with c; [apply (IH i a c Ha Hc Hn)|].
    apply (Hstep (i + d)%nat); [exact Hc|].
    replace (S (i + d)) with (i + S d)%nat by lia. exact Hb.
Qed.

(** X5 (a curve that never declines).  An equity curve that starts at a
    positive value, has no infinite entry and never goes down from one row
    to the next has a maximum drawdown of exactly 0. *)
Theorem rising_curve_no_drawdown (curve : list float) (e0 : float) :
  curve !! 0%nat = Some e0 ->
  (0 <? e0) = true ->
  Forall (fun e => F64.isinf e = false) curve ->
  (forall i a b, curve !! i = Some a -> curve !! S i = Some b ->
                 (a <=? b) = true) ->
  max_dd curve = 0 /\
  forall i d, drawdown curve !! i = Some d -> d = 0.
Proof.
  intros Hhead Hpos Hnoinf Hstep.
  assert (Hn0 : F64.isnan e0 = false) by (eapply f64_ltb_not_nan_r; exact Hpos).
  assert (Hge : forall i e, curve !! i = Some e -> (e0 <=? e) = true).
  { intros i e He. apply (nondecreasing_le curve Hstep i 0%nat e0 e Hhead He Hn0). }
  assert (Hdd : forall i d, drawdown curve !! i = Some d -> d = 0).
  { intros i d Hd.
    assert (He : exists e, curve !! i = Some e).
    { apply lookup_lt_is_Some. apply lookup_lt_Some in Hd.
      unfold drawdown in Hd. rewrite length_zip_with in Hd. lia. }
    destruct He as (e & He).
    pose proof (Hge i e He) as H0e.
    assert (Hne : notnan e) by (eapply f64_leb_not_nan_r; exact H0e).
    destruct (lookup_cummax curve i e He Hne) as (m & Hm & _).
    destruct (running_max_facts curve e0 Hhead Hpos Hnoinf i e m He Hne Hm)
      as (Hem & Hmpos & Hmfin & _ & (j & Hj & Hatt)).
    assert (Hme : (m <=? e) = true).
    { replace i with (j + (i - j))%nat in He by lia.
      apply (nondecreasing_le curve Hstep (i - j)%nat j m e Hatt He).
      eapply f64_leb_not_nan_r; exact Hem. }
    assert (Hepos : (0 <? e) = true) by (eapply f64_ltb_leb_trans; eassumption).
    assert (e = m) by (apply f64_leb_antisym_pos; assumption). subst m.
    rewrite (lookup_drawdown curve i e e He Hm) in Hd. injection Hd as <-.
    rewrite f64_div_self.
    - apply f64_sub_1_1.
    - exact Hmfin.
    - apply f64_ltb_not_eqb in Hepos.
      destruct (e =? 0) eqn:E; [|reflexivity].
      exfalso. apply f64_eqb_key in E. destruct E as (? & ? & E).
      assert ((0 =? e) = true) by (apply f64_eqb_key; auto). congruence. }
  split; [|exact Hdd].
  unfold max_dd.
  rewrite (replicate_of_lookup (drawdown curve) 0 Hdd).
  apply pd_min_replicate; [reflexivity|].
  unfold drawdown, Pd.cummax. rewrite length_zip_with, length_na_accum.
  apply lookup_lt_Some in Hhead. lia.
Qed.

Lemma rising_curve_no_drawdown_witness :
  max_dd [1; 1; 1.1; 1.21] = 0 /\
  forall i d, drawdown [1; 1; 1.1; 1.21] !! i = Some d -> d = 0.
Proof.
  apply (rising_curve_no_drawdown [1; 1; 1.1; 1.21] 1).
  - reflexivity.
  - reflexivity.
  - repeat constructor.
  - intros [|[|[|[|i]]]] a b Ha Hb; cbn in Ha, Hb;
      try discriminate Hb; injection Ha as <-; injection Hb as <-; reflexivity.
Defined.

Local Open Scope float_scope.

(** ** MACrossover *)

Lemma lookup_mask_assign signals mask v i :
  mask_assign signals mask v !! i =
  (fun x => if default false (mask !! i) then v else x) <$> signals !! i.
Proof. unfold mask_assign. apply list_lookup_imap. Qed.

Lemma length_mask_assign signals mask v :
  length (mask_assign signals mask v) = length signals.
Proof. unfold mask_assign. apply length_imap. Qed.

Lemma f64_ltb_nan_l y : (nan <? y) = false.
Proof.
  destruct (nan <? y) eqn:E; [|reflexivity].
  apply f64_ltb_not_nan_l in E. discriminate E.
Qed.

Lemma f64_ltb_nan_r y : (y <? nan) = false.
Proof.
  destruct (y <? nan) eqn:E; [|reflexivity].
  apply f64_ltb_not_nan_r in E. discriminate E.
Qed.

Lemma lookup_shift_lt s i x :
  Pd.shift s !! i = Some x ->
  (i = 0%nat /\ x = nan) \/ (exists j, i = S j /\ s !! j = Some x).
Proof.
  intros H.
  assert (Hi : (i < length s)%nat).
  { apply lookup_lt_Some in H. rewrite length_shift in H. exact H. }
  destruct i as [|j].
  - left. split; [reflexivity|].
    rewrite lookup_shift_0 in H by (intros ->; cbn in Hi; lia). congruence.
  - right. exists j. split; [reflexivity|].
    rewrite lookup_shift_S in H by exact Hi. exact H.
Qed.

(** The two masks of [generate_signals]: a comparison of the previous
    row's means and one of the current row's. *)
Lemma lookup_cross_S (prev now : float -> float -> bool) f s j a b a' b' :
  f !! j = Some a -> s !! j = Some b ->
  f !! S j = Some a' -> s !! S j = Some b' ->
  zip_with andb (zip_with prev (Pd.shift f) (Pd.shift s)) (zip_with now f s) !! S j
  = Some (prev a b && now a' b').
Proof.
  intros Ha Hb Ha' Hb'.
  rewrite !lookup_zip_with.
  rewrite !lookup_shift_S by (eapply lookup_lt_Some; eassumption).
  rewrite Ha, Hb, Ha', Hb'. reflexivity.
Qed.

Lemma lookup_cross_true (prev now : float -> float -> bool) f s i :
  (forall y, prev nan y = false) ->
  zip_with andb (zip_with prev (Pd.shift f) (Pd.shift s)) (zip_with now f s) !! i
  = Some true ->
  exists j a b a' b',
    i = S j /\ f !! j = Some a /\ s !! j = Some b /\
    f !! i = Some a' /\ s !! i = Some b' /\
    prev a b = true /\ now a' b' = true.
Proof.
  intros Hnan H.
  rewrite !lookup_zip_with in H.
  destruct (Pd.shift f !! i) as [x|] eqn:Ex; [|discriminate H].
  destruct (Pd.shift s !! i) as [y|] eqn:Ey; [|discriminate H].
  destruct (f !! i) as [a'|] eqn:Ea'; [|discriminate H].
  destruct (s !! i) as [b'|] eqn:Eb'; [|discriminate H].
  cbn in H. injection H as H. apply andb_true_iff in H. destruct H as [H1 H2].
  apply lookup_shift_lt in Ex. destruct Ex as [[-> ->]|(j & -> & Ex)].
  { rewrite Hnan in H1. discriminate H1. }
  apply lookup_shift_lt in Ey. destruct Ey as [[Hj _]|(j' & Hj & Ey)]; [discriminate Hj|].
  injection Hj as <-.
  exists j, x, y, a', b'. repeat split; assumption.
Qed.

Section MACrossoverFacts.
Variable window_mean : nat -> Pd.Series -> nat -> float.

Lemma rolling_mean_negative w s : (w < 0)%Z ->
  rolling_mean window_mean w s = inl ValueError.
Proof.
  intros H. unfold rolling_mean.
  destruct (Z.ltb_spec w 0); [reflexivity|lia].
Qed.

Lemma rolling_mean_ok w s : (0 <= w)%Z ->
  exists r, rolling_mean window_mean w s = inr r /\ length r = length s /\
    forall i x, r !! i = Some x -> F64.isnan x = false ->
                (0 < w /\ w <= Z.of_nat i + 1)%Z.
Proof.
  intros H. unfold rolling_mean.
  destruct (Z.ltb_spec w 0); [lia|].
  eexists. split; [reflexivity|]. split; [apply length_imap|].
  intros i x Hx Hn. rewrite list_lookup_imap in Hx.
  destruct (s !! i) as [y|]; [|discriminate Hx]. cbn in Hx. injection Hx as <-.
  destruct (window_full (Z.to_nat w) s i) eqn:E; [|discriminate Hn].
  unfold window_full in E.
  apply andb_true_iff in E. destruct E as [E _].
  apply andb_true_iff in E. destruct E as [E1 E2].
  apply Nat.ltb_lt in E1. apply Nat.leb_le in E2. lia.
Qed.

Lemma rolling_mean_inr w s r :
  rolling_mean window_mean w s = inr r ->
  (0 <= w)%Z /\ length r = length s /\
  forall i x, r !! i = Some x -> F64.isnan x = false ->
              (0 < w /\ w <= Z.of_nat i + 1)%Z.
Proof.
  intros H. destruct (Z.lt_ge_cases w 0) as [Hneg|Hpos].
  - rewrite rolling_mean_negative in H by exact Hneg. discriminate H.
  - split; [exact Hpos|].
    destruct (rolling_mean_ok w s Hpos) as (r' & Hr' & Hlen & Hfull).
    rewrite H in Hr'. injection Hr' as <-. split; assumption.
Qed.

(** The run of [generate_signals] on a frame with a [Close] column, for
    windows that pandas accepts. *)
Lemma generate_signals_run self df close f s :
  df_cols df !! "Close"%string = Some close ->
  rolling_mean window_mean (fast self) (to_floats close) = inr f ->
  rolling_mean window_mean (slow self) (to_floats close) = inr s ->
  generate_signals window_mean self df =
  (inr (mask_assign
          (mask_assign (replicate (length (df_index df)) 0%Z)
             (zip_with andb
                (zip_with PrimFloat.ltb (Pd.shift f) (Pd.shift s))
                (zip_with (fun f s => s <=? f) f s)) 1%Z)
          (zip_with andb
             (zip_with (fun f s => s <? f) (Pd.shift f) (Pd.shift s))
             (zip_with PrimFloat.leb f s)) (-1)%Z), df).
Proof.
  intros Hc Hf Hs.
  unfold generate_signals, bind, getitem, lift_result, get_index.
  rewrite Hc, Hf. cbn [ret]. rewrite Hc, Hs. reflexivity.
Qed.

(** Every entry of the result is 0, or +1 at an upward crossing, or -1 at
    a downward crossing. *)
Lemma signal_cases self df close f s signals i x :
  df_cols df !! "Close"%string = Some close ->
  rolling_mean window_mean (fast self) (to_floats close) = inr f ->
  rolling_mean window_mean (slow self) (to_floats close) = inr s ->
  generate_signals window_mean self df = (inr signals, df) ->
  signals !! i = Some x ->
  x = 0%Z \/
  exists j a b a' b',
    i = S j /\ f !! j = Some a /\ s !! j = Some b /\
    f !! i = Some a' /\ s !! i = Some b' /\
    ((x = 1%Z /\ (a <? b) = true /\ (b' <=? a') = true) \/
     (x = (-1)%Z /\ (b <? a) = true /\ (a' <=? b') = true)).
Proof.
  intros Hc Hf Hs Hrun Hx.
  rewrite (generate_signals_run self df close f s Hc Hf Hs) in Hrun.
  injection Hrun as <-.
  rewrite !lookup_mask_assign in Hx.
  destruct (replicate (length (df_index df)) 0%Z !! i) as [z|] eqn:Ez; [|discriminate Hx].
  apply lookup_replicate in Ez. destruct Ez as [-> _].
  cbn [fmap option_fmap option_map] in Hx.
  set (up := zip_with andb (zip_with PrimFloat.ltb (Pd.shift f) (Pd.shift s))
               (zip_with (fun f s => s <=? f) f s)) in *.
  set (down := zip_with andb (zip_with (fun f s => s <? f) (Pd.shift f) (Pd.shift s))
                 (zip_with PrimFloat.leb f s)) in *.
  destruct (down !! i) as [[]|] eqn:Edown; cbn [default from_option id] in Hx.
  { right. apply lookup_cross_true in Edown; [|intros y; apply f64_ltb_nan_r].
    destruct Edown as (j & a & b & a' & b' & -> & Ha & Hb & Ha' & Hb' & H1 & H2).
    exists j, a, b, a', b'. injection Hx as <-. auto 10. }
  all: destruct (up !! i) as [[]|] eqn:Eup; cbn [default from_option id] in Hx; try (left; congruence).
  all: right; apply lookup_cross_true in Eup; [|intros y; apply f64_ltb_nan_l].
  all: destruct Eup as (j & a & b & a' & b' & -> & Ha & Hb & Ha' & Hb' & H1 & H2).
  all: exists j, a, b, a', b'; injection Hx as <-; auto 10.
Qed.

End MACrossoverFacts.

Lemma generate_signals_no_close
    (window_mean : nat -> Pd.Series -> nat -> float)
    (self : MACrossover) (df : DataFrame) :
  df_cols df !! "Close"%string = None ->
  generate_signals window_mean self df = (inl KeyError, df).
Proof.
  intros Hc. unfold generate_signals, bind, getitem. rewrite Hc. reflexivity.
Qed.

Lemma generate_signals_ok
    (window_mean : nat -> Pd.Series -> nat -> float)
    (self : MACrossover) (df : DataFrame) (close : column) :
  df_cols df !! "Close"%string = Some close ->
  (0 <= fast self)%Z -> (0 <= slow self)%Z ->
  exists signals,
    generate_signals window_mean self df = (inr signals, df) /\
    length signals = length (df_index df) /\
    Forall is_signal signals.
Proof.
  intros Hc Hf Hs.
  destruct (rolling_mean_ok window_mean (fast self) (to_floats close) Hf) as (f & Ef & _).
  destruct (rolling_mean_ok window_mean (slow self) (to_floats close) Hs) as (s & Es & _).
  pose proof (generate_signals_run window_mean self df close f s Hc Ef Es) as Hrun.
  eexists. split; [exact Hrun|]. split.
  - rewrite !length_mask_assign. apply length_replicate.
  - apply Forall_lookup_2. intros i x Hx.
    destruct (signal_cases window_mean self df close f s _ i x Hc Ef Es Hrun Hx)
      as [->|(j & a & b & a' & b' & _ & _ & _ & _ & _ & [(-> & _)|(-> & _)])];
      unfold is_signal; auto.
Qed.

(** A run that returns signals has found [Close] and two valid windows. *)
Lemma generate_signals_inr
    (window_mean : nat -> Pd.Series -> nat -> float)
    (self : MACrossover) (df : DataFrame) (signals : list Z) :
  generate_signals window_mean self df = (inr signals, df) ->
  exists close f s,
    df_cols df !! "Close"%string = Some close /\
    rolling_mean window_mean (fast self) (to_floats close) = inr f /\
    rolling_mean window_mean (slow self) (to_floats close) = inr s.
Proof.
  intros Hrun.
  destruct (df_cols df !! "Close"%string) as [close|] eqn:Hc.
  2:{ rewrite (generate_signals_no_close window_mean self df Hc) in Hrun.
      discriminate Hrun. }
  destruct (rolling_mean window_mean (fast self) (to_floats close)) as [e|f] eqn:Ef.
  { unfold generate_signals, bind, getitem, lift_result in Hrun.
    rewrite Hc, Ef in Hrun. discriminate Hrun. }
  destruct (rolling_mean window_mean (slow self) (to_floats close)) as [e|s] eqn:Es.
  { unfold generate_signals, bind, getitem, lift_result in Hrun.
    rewrite Hc, Ef in Hrun. cbn [ret] in Hrun. rewrite Hc, Es in Hrun.
    discriminate Hrun. }
  exists close, f, s. auto.
Qed.

(** A signal other than 0 needs both windows full on the previous row. *)
Lemma nonzero_signal_windows
    (window_mean : nat -> Pd.Series -> nat -> float)
    (self : MACrossover) (df : DataFrame)
    (signals : list Z) (i : nat) (x : Z) :
  generate_signals window_mean self df = (inr signals, df) ->
  signals !! i = Some x -> x <> 0%Z ->
  (0 < fast self <= Z.of_nat i /\ 0 < slow self <= Z.of_nat i)%Z.
Proof.
  intros Hrun Hx Hx0.
  destruct (generate_signals_inr window_mean self df signals Hrun)
    as (close & f & s & Hc & Ef & Es).
  destruct (signal_cases window_mean self df close f s signals i x Hc Ef Es Hrun Hx)
    as [->|(j & a & b & a' & b' & -> & Ha & Hb & _ & _ & Hcross)]; [congruence|].
  apply rolling_mean_inr in Ef, Es.
  destruct Ef as (_ & _ & Hfull_f). destruct Es as (_ & _ & Hfull_s).
  assert (Hn : F64.isnan a = false /\ F64.isnan b = false).
  { destruct Hcross as [(_ & H & _)|(_ & H & _)].
    - split; [eapply f64_ltb_not_nan_l|eapply f64_ltb_not_nan_r]; exact H.
    - split; [eapply f64_ltb_not_nan_r|eapply f64_ltb_not_nan_l]; exact H. }
  destruct Hn as [Hna Hnb].
  pose proof (Hfull_f j a Ha Hna). pose proof (Hfull_s j b Hb Hnb). lia.
Qed.

(** X6 (outcome of generate_signals).  [generate_signals] raises [KeyError]
    on a frame without a [Close] column and [ValueError] on a negative
    window; otherwise it returns one signal per row of the index, each of
    them -1, 0 or 1.  It never changes the frame. *)
Theorem generate_signals_outcome
    (window_mean : nat -> Pd.Series -> nat -> float)
    (self : MACrossover) (df : DataFrame) :
  (df_cols df !! "Close"%string = None ->
   generate_signals window_mean self df = (inl KeyError, df)) /\
  (forall close, df_cols df !! "Close"%string = Some close ->
     (fast self < 0 \/ slow self < 0)%Z ->
     generate_signals window_mean self df = (inl ValueError, df)) /\
  (forall close, df_cols df !! "Close"%string = Some close ->
     (0 <= fast self)%Z -> (0 <= slow self)%Z ->
     exists signals,
       generate_signals window_mean self df = (inr signals, df) /\
       length signals = length (df_index df) /\
       Forall is_signal signals).
Proof.
  split; [|split].
  - apply generate_signals_no_close.
  - intros close Hc Hneg.
    unfold generate_signals, bind, getitem, lift_result. rewrite Hc.
    destruct (Z.lt_ge_cases (fast self) 0) as [Hf|Hf].
    + rewrite (rolling_mean_negative window_mean) by exact Hf. reflexivity.
    + destruct (rolling_mean_ok window_mean (fast self) (to_floats close) Hf)
        as (f & -> & _).
      cbn [ret]. rewrite Hc.
      rewrite (rolling_mean_negative window_mean) by lia. reflexivity.
  - intros close. apply generate_signals_ok.
Qed.

(** X7 (crossings).  At a row whose two means and the previous row's two
    means exist, the signal is +1 when the fast mean was below the slow
    one and is now at or above it, -1 when it was above and is now at or
    below it, and 0 otherwise; the two cases exclude each other. *)
Theorem signal_at_crossing
    (window_mean : nat -> Pd.Series -> nat -> float)
    (self : MACrossover) (df : DataFrame)
    (close : column) (f s : Pd.Series) (signals : list Z)
    (j : nat) (a b a' b' : float) :
  df_cols df !! "Close"%string = Some close ->
  rolling_mean window_mean (fast self) (to_floats close) = inr f ->
  rolling_mean window_mean (slow self) (to_floats close) = inr s ->
  generate_signals window_mean self df = (inr signals, df) ->
  (S j < length (df_index df))%nat ->
  f !! j = Some a -> s !! j = Some b ->
  f !! S j = Some a' -> s !! S j = Some b' ->
  signals !! S j =
    Some (if (a <? b) && (b' <=? a') then 1%Z
          else if (b <? a) && (a' <=? b') then (-1)%Z else 0%Z) /\
  ((a <? b) && (b' <=? a') && ((b <? a) && (a' <=? b')) = false).
Proof.
  intros Hc Ef Es Hrun Hlt Ha Hb Ha' Hb'.
  assert (Hexcl : (a <? b) && (b' <=? a') && ((b <? a) && (a' <=? b')) = false).
  { destruct (a <? b) eqn:E1; [|reflexivity].
    apply f64_ltb_leb in E1.
    destruct (b <? a) eqn:E2; [|apply andb_false_r].
    apply f64_ltb_not_leb in E2. congruence. }
  split; [|exact Hexcl].
  rewrite (generate_signals_run window_mean self df close f s Hc Ef Es) in Hrun.
  injection Hrun as <-.
  rewrite !lookup_mask_assign.
  rewrite (lookup_cross_S _ _ f s j a b a' b' Ha Hb Ha' Hb').
  rewrite (lookup_cross_S _ _ f s j a b a' b' Ha Hb Ha' Hb').
  rewrite lookup_replicate_2 by exact Hlt.
  cbn [fmap option_fmap option_map default from_option id].
  destruct ((a <? b) && (b' <=? a')) eqn:Eup;
    destruct ((b <? a) && (a' <=? b')) eqn:Edown; try reflexivity.
  discriminate Hexcl.
Qed.

(** X8 (warm-up).  No signal is given before both windows have been full
    on the previous row: the first [max fast slow] signals are 0. *)
Theorem no_signal_during_warmup
    (window_mean : nat -> Pd.Series -> nat -> float)
    (self : MACrossover) (df : DataFrame)
    (signals : list Z) (i : nat) (x : Z) :
  generate_signals window_mean self df = (inr signals, df) ->
  signals !! i = Some x ->
  (Z.of_nat i < Z.max (fast self) (slow self))%Z ->
  x = 0%Z.
Proof.
  intros Hrun Hx Hi.
  destruct (Z.eq_dec x 0%Z) as [Hz|Hnz]; [exact Hz|]. exfalso.
  pose proof (nonzero_signal_windows window_mean self df signals i x Hrun Hx Hnz).
  lia.
Qed.

(** X9 (no repeated signal).  A buy signal is never followed on the next
    row by another buy signal, nor a sell signal by another sell signal. *)
Theorem no_repeated_signal
    (window_mean : nat -> Pd.Series -> nat -> float)
    (self : MACrossover) (df : DataFrame)
    (signals : list Z) (i : nat) (x y : Z) :
  generate_signals window_mean self df = (inr signals, df) ->
  signals !! i = Some x -> signals !! S i = Some y ->
  x <> 0%Z -> y <> x.
Proof.
  intros Hrun Hx Hy Hx0 ->.
  destruct (generate_signals_inr window_mean self df signals Hrun)
    as (close & f & s & Hc & Ef & Es).
  destruct (signal_cases window_mean self df close f s signals i x Hc Ef Es Hrun Hx)
    as [->|(j & a & b & a' & b' & -> & _ & _ & Ha' & Hb' & Hnow)]; [congruence|].
  destruct (signal_cases window_mean self df close f s signals _ x Hc Ef Es Hrun Hy)
    as [->|(j' & c & d & c' & d' & Hj & Hc1 & Hd1 & _ & _ & Hnext)]; [congruence|].
  injection Hj as <-.
  rewrite Ha' in Hc1. injection Hc1 as <-.
  rewrite Hb' in Hd1. injection Hd1 as <-.
  destruct Hnow as [(-> & _ & Hge)|(-> & _ & Hle)];
    destruct Hnext as [(Hv & Hlt & _)|(Hv & Hgt & _)]; try discriminate Hv.
  - apply f64_ltb_not_leb in Hlt. congruence.
  - apply f64_ltb_not_leb in Hgt. congruence.
Qed.

(** X10 (equal windows).  With the fast window equal to the slow one the
    two means coincide and the strategy never trades. *)
Theorem equal_windows_never_trade
    (window_mean : nat -> Pd.Series -> nat -> float)
    (self : MACrossover) (df : DataFrame)
    (signals : list Z) :
  fast self = slow self ->
  generate_signals window_mean self df = (inr signals, df) ->
  signals = replicate (length (df_index df)) 0%Z.
Proof.
  intros Heq Hrun.
  destruct (generate_signals_inr window_mean self df signals Hrun)
    as (close & f & s & Hc & Ef & Es).
  assert (s = f) as -> by (rewrite Heq in Ef; congruence).
  assert (Hlen : length signals = length (df_index df)).
  { pose proof Hrun as Hrun'.
    rewrite (generate_signals_run window_mean self df close f f Hc Ef Es) in Hrun'.
    injection Hrun' as <-. rewrite !length_mask_assign. apply length_replicate. }
  rewrite <- Hlen. apply replicate_of_lookup. intros i x Hx.
  destruct (signal_cases window_mean self df close f f signals i x Hc Ef Es Hrun Hx)
    as [->|(j & a & b & a' & b' & -> & Ha & Hb & _ & _ & Hcross)]; [reflexivity|].
  exfalso. rewrite Ha in Hb. injection Hb as <-.
  destruct Hcross as [(_ & H & _)|(_ & H & _)];
    pose proof (f64_ltb_not_leb _ _ H) as Hn;
    rewrite f64_leb_refl in Hn by (eapply f64_ltb_not_nan_l; exact H);
    discriminate Hn.
Qed.

Lemma generate_signals_outcome_witness :
  exists signals,
    generate_signals example_window_mean (mkMACrossover 1 2) crossing_prices
      = (inr signals, crossing_prices) /\
    length signals = length (df_index crossing_prices) /\
    Forall is_signal signals.
Proof.
  apply (proj2 (proj2 (generate_signals_outcome example_window_mean
                         (mkMACrossover 1 2) crossing_prices))
           (FloatCol [10; 11; 12; 9; 8; 10; 13])).
  - reflexivity.
  - cbn. lia.
  - cbn. lia.
Defined.

Lemma signal_at_crossing_witness :
  [0; 0; 0; -1; 0; 1; 0]%Z !! 5%nat =
    Some (if (8 <? 8.5) && (9 <=? 10) then 1%Z
          else if (8.5 <? 8) && (10 <=? 9) then (-1)%Z else 0%Z) /\
  ((8 <? 8.5) && (9 <=? 10) && ((8.5 <? 8) && (10 <=? 9)) = false).
Proof.
  apply (signal_at_crossing example_window_mean (mkMACrossover 1 2) crossing_prices
           (FloatCol [10; 11; 12; 9; 8; 10; 13])
           [10; 11; 12; 9; 8; 10; 13] [nan; 10.5; 11.5; 10.5; 8.5; 9; 11.5]
           [0; 0; 0; -1; 0; 1; 0]%Z 4 8 8.5 10 9).
  - reflexivity.
  - vm_compute. reflexivity.
  - vm_compute. reflexivity.
  - vm_compute. reflexivity.
  - cbn. lia.
  - reflexivity.
  - reflexivity.
  - reflexivity.
  - reflexivity.
Defined.

Lemma no_signal_during_warmup_witness : 0%Z = 0%Z.
Proof.
  apply (no_signal_during_warmup example_window_mean (mkMACrossover 2 3)
           crossing_prices [0; 0; 0; -1; 0; 1; 0]%Z 2 0%Z).
  - vm_compute. reflexivity.
  - reflexivity.
  - cbn. lia.
Defined.

Lemma no_repeated_signal_witness : 0%Z <> (-1)%Z.
Proof.
  apply (no_repeated_signal example_window_mean (mkMACrossover 1 2)
           crossing_prices [0; 0; 0; -1; 0; 1; 0]%Z 3 (-1)%Z 0%Z).
  - vm_compute. reflexivity.
  - reflexivity.
  - reflexivity.
  - lia.
Defined.

Lemma equal_windows_never_trade_witness :
  [0; 0; 0; 0; 0; 0; 0]%Z = replicate (length (df_index crossing_prices)) 0%Z.
Proof.
  apply (equal_windows_never_trade example_window_mean (mkMACrossover 2 2)
           crossing_prices [0; 0; 0; 0; 0; 0; 0]%Z).
  - reflexivity.
  - vm_compute. reflexivity.
Defined.

Local Open Scope float_scope.

(** *** Prefixes of cumulative columns *)

Lemma take_accumulate_from f n : forall a l,
  take n (Pd.accumulate_from f a l) = Pd.accumulate_from f a (take n l).
Proof.
  induction n as [|n IH]; intros a [|x t]; try reflexivity.
  cbn. f_equal. apply IH.
Qed.

Lemma take_accumulate f n l :
  take n (Pd.accumulate f l) = Pd.accumulate f (take n l).
Proof.
  destruct n as [|n], l as [|x t]; try reflexivity.
  cbn. f_equal. apply take_accumulate_from.
Qed.

Lemma take_na_accum f v n s :
  take n (Pd.na_accum f v s) = Pd.na_accum f v (take n s).
Proof.
  unfold Pd.na_accum. rewrite zip_with_take, take_accumulate.
  unfold Pd.fillna. rewrite fmap_take. reflexivity.
Qed.

(** While every factor is 1 the cumulative product is 1. *)
Lemma cumprod_ones s i :
  (i < length s)%nat ->
  (forall j x, (j <= i)%nat -> s !! j = Some x -> x = 1) ->
  Pd.cumprod s !! i = Some 1.
Proof.
  intros Hi Hone.
  rewrite <- (lookup_take_lt _ (S i)) by lia.
  unfold Pd.cumprod. rewrite take_na_accum.
  assert (Hrep : take (S i) s = replicate (S i) 1).
  { rewrite (replicate_of_lookup (take (S i) s) 1).
    - rewrite length_take. f_equal. lia.
    - intros j x Hx.
      assert (j < S i)%nat.
      { apply lookup_lt_Some in Hx. rewrite length_take in Hx. lia. }
      rewrite lookup_take_lt in Hx by lia. apply (Hone j); [lia|exact Hx]. }
  rewrite Hrep, na_accum_replicate; [|reflexivity|apply f64_mul_1_l].
  apply lookup_replicate_2. lia.
Qed.

(** X11 (a strategy run in main).  On a frame of at least three rows with a
    [Close] column and non-negative windows, lines 123-127 of [main] run
    without an exception: the signals of [generate_signals] are stored in
    the column [signal], [Close] is kept, and the performance is computed
    from them.  While the price returns are finite, the equity stays at
    the starting capital up to and including row [max fast slow]. *)
Theorem main_backtest_runs
    (window_mean : nat -> Pd.Series -> nat -> float)
    (np_sum : list float -> float)
    (infer : list Z -> option string) (pow : float -> float -> float)
    (strat : MACrossover) (capital : float) (df : DataFrame) (close : column) :
  df_cols df !! "Close"%string = Some close ->
  col_length close = length (df_index df) ->
  (3 <= length (df_index df))%nat ->
  (0 <= fast strat)%Z -> (0 <= slow strat)%Z ->
  exists signals perf df',
    generate_signals window_mean strat df = (inr signals, df) /\
    main_backtest window_mean np_sum infer pow strat capital df = (inr perf, df') /\
    df_index df' = df_index df /\
    df_cols df' !! "signal"%string = Some (IntCol signals) /\
    df_cols df' !! "Close"%string = Some close /\
    length (equity_series perf) = length (df_index df) /\
    (forall i, (i < length (df_index df))%nat ->
       (Z.of_nat i <= Z.max (fast strat) (slow strat))%Z ->
       (forall j p, (j <= i)%nat -> price_ret close !! j = Some p ->
                    F64.isfinite p = true) ->
       equity_series perf !! i = Some capital).
Proof.
  intros Hc Hlen Hn Hf Hs.
  destruct (generate_signals_ok window_mean strat df close Hc Hf Hs)
    as (signals & Hgen & Hslen & Hsig).
  set (df1 := mkDF (df_index df) (<["signal" := IntCol signals]> (df_cols df))).
  assert (Hc1 : df_cols df1 !! "Close"%string = Some close).
  { cbn. rewrite lookup_insert_ne by discriminate. exact Hc. }
  assert (Hs1 : df_cols df1 !! "signal"%string = Some (IntCol signals)).
  { cbn. apply lookup_insert_eq. }
  assert (Hne : "signal"%string <> "price_ret"%string) by discriminate.
  assert (Hmain : main_backtest window_mean np_sum infer pow strat capital df =
                  compute_performance np_sum infer pow "signal" "Close" capital df1).
  { unfold main_backtest, bind. rewrite Hgen. reflexivity. }
  pose proof (compute_performance_run np_sum infer pow "signal" "Close" capital df1
                close (IntCol signals) Hc1 Hs1 Hne) as Hrun.
  cbv zeta in Hrun.
  set (pr := price_ret close) in *.
  set (sr := strat_ret (IntCol signals) (FloatCol pr)) in *.
  set (eq := equity (FloatCol sr) capital) in *.
  assert (Hlpr : length pr = length (df_index df)).
  { unfold pr. rewrite length_price_ret, length_to_floats. exact Hlen. }
  assert (Hlsr : length sr = length (df_index df)).
  { unfold sr. rewrite length_strat_ret. cbn [to_floats].
    rewrite length_fmap, Hlpr, Hslen. lia. }
  assert (Hleq : length eq = length (df_index df)).
  { unfold eq. rewrite length_equity. cbn [to_floats]. exact Hlsr. }
  destruct (Pd.iloc_last eq) as [last_equity|] eqn:Elast.
  2:{ exfalso. unfold Pd.iloc_last in Elast. apply last_None in Elast.
      rewrite Elast in Hleq. cbn in Hleq. lia. }
  cbn [df_index df1] in Hrun.
  rewrite (infer_freq_ge3 infer (df_index df) Hn) in Hrun.
  destruct (annualization_factor_or_default (infer (df_index df))) as (fac & Efac).
  rewrite Efac in Hrun.
  eexists signals, _, _. split; [exact Hgen|].
  split; [rewrite Hmain; exact Hrun|].
  cbn [df_index df_cols equity_series].
  split; [reflexivity|].
  split; [rewrite !lookup_insert_ne by discriminate; exact Hs1|].
  split; [rewrite !lookup_insert_ne by discriminate; exact Hc1|].
  split; [exact Hleq|].
  intros i Hi Hwarm Hfin.
  (* the strategy returns of the first rows are zeros *)
  assert (Hzero : forall j x, (j <= i)%nat -> sr !! j = Some x -> (x =? 0) = true).
  { intros j x Hj Hx.
    assert (Hpj : exists p, pr !! j = Some p).
    { apply lookup_lt_is_Some. rewrite Hlpr, <- Hlsr. eapply lookup_lt_Some; exact Hx. }
    destruct Hpj as (p & Hp). pose proof (Hfin j p Hj Hp) as Hpfin.
    destruct j as [|j].
    - apply lookup_strat_ret_0 in Hx. destruct Hx as (p' & Hp' & ->).
      cbn [to_floats] in Hp'. rewrite Hp in Hp'. injection Hp' as <-.
      apply f64_mul_zero_finite. exact Hpfin.
    - apply lookup_strat_ret_S in Hx; [|exact Hsig].
      destruct Hx as (s & p' & Hsj & Hp' & ->).
      cbn [to_floats] in Hp'. rewrite Hp in Hp'. injection Hp' as <-.
      assert (s = 0%Z) as ->.
      { destruct (Z.eq_dec s 0%Z) as [Hz|Hnz]; [exact Hz|]. exfalso.
        pose proof (nonzero_signal_windows window_mean strat df signals j s
                      Hgen Hsj Hnz).
        lia. }
      apply f64_mul_zero_finite. exact Hpfin. }
  unfold eq, equity. cbn [to_floats].
  rewrite list_lookup_fmap, cumprod_ones.
  - cbn. rewrite f64_mul_1_l. reflexivity.
  - rewrite length_fmap, Hlsr. exact Hi.
  - intros j x Hj Hx. rewrite list_lookup_fmap in Hx.
    destruct (sr !! j) as [r|] eqn:Er; [|discriminate Hx].
    cbn in Hx. injection Hx as <-.
    apply f64_add_one_zero. apply (Hzero j); [exact Hj|exact Er].
Qed.

Lemma main_backtest_runs_witness :
  exists signals perf df',
    generate_signals example_window_mean (mkMACrossover 1 2) crossing_prices
      = (inr signals, crossing_prices) /\
    main_backtest example_window_mean Pd.sum infer_none example_pow (mkMACrossover 1 2) 1
      crossing_prices = (inr perf, df') /\
    df_index df' = df_index crossing_prices /\
    df_cols df' !! "signal"%string = Some (IntCol signals) /\
    df_cols df' !! "Close"%string = Some (FloatCol [10; 11; 12; 9; 8; 10; 13]) /\
    length (equity_series perf) = length (df_index crossing_prices) /\
    (forall i, (i < length (df_index crossing_prices))%nat ->
       (Z.of_nat i <= Z.max 1 2)%Z ->
       (forall j p, (j <= i)%nat ->
          price_ret (FloatCol [10; 11; 12; 9; 8; 10; 13]) !! j = Some p ->
          F64.isfinite p = true) ->
       equity_series perf !! i = Some 1).
Proof.
  apply (main_backtest_runs example_window_mean Pd.sum infer_none example_pow
           (mkMACrossover 1 2) 1 crossing_prices
           (FloatCol [10; 11; 12; 9; 8; 10; 13])).
  - reflexivity.
  - reflexivity.
  - cbn. lia.
  - cbn. lia.
  - cbn. lia.
Defined.

Local Open Scope Z_scope.

(** ** The strategy parameters of main *)

Lemma append_nil (s : string) : EmptyString +:+ s = s.
Proof. reflexivity. Qed.

Lemma append_cons (a : ascii) (k s : string) :
  String a k +:+ s = String a (k +:+ s).
Proof. reflexivity. Qed.

Lemma split1_app c k v :
  str_contains c k = false ->
  split1 c (k +:+ String c v) = (k, Some v).
Proof.
  induction k as [|a k IH]; intros Hk;
    rewrite ?append_nil, ?append_cons; cbn [split1].
  - rewrite Ascii.eqb_refl. reflexivity.
  - cbn [str_contains] in Hk. apply orb_false_iff in Hk. destruct Hk as [Ha Hk].
    rewrite Ha, (IH Hk). reflexivity.
Qed.

Lemma split1_contains c s :
  str_contains c s = true ->
  exists k v, s = k +:+ String c v /\ str_contains c k = false.
Proof.
  induction s as [|a s IH]; intros H; cbn [str_contains] in H; [discriminate H|].
  destruct (Ascii.eqb a c) eqn:Ea.
  - apply Ascii.eqb_eq in Ea. subst a. exists EmptyString, s. split; reflexivity.
  - cbn [orb] in H. destruct (IH H) as (k & v & -> & Hk).
    exists (String a k), v. split; [reflexivity|]. cbn [str_contains].
    rewrite Ea. exact Hk.
Qed.

Lemma str_contains_app c k v : str_contains c (k +:+ String c v) = true.
Proof.
  induction k as [|a k IH]; rewrite ?append_nil, ?append_cons; cbn [str_contains].
  - rewrite Ascii.eqb_refl. reflexivity.
  - rewrite IH. apply orb_true_r.
Qed.

(** A text has at most one reading as [key=value] with no [=] in the key. *)
Lemma assignment_unique c k v k' v' :
  str_contains c k = false -> str_contains c k' = false ->
  k +:+ String c v = k' +:+ String c v' -> k = k' /\ v = v'.
Proof.
  intros Hk Hk' Heq.
  pose proof (split1_app c k v Hk) as H1.
  pose proof (split1_app c k' v' Hk') as H2.
  rewrite Heq in H1. rewrite H1 in H2. injection H2 as -> ->. split; reflexivity.
Qed.

Section ParamsFacts.
Variable py_int : string -> option Z.
Variable py_float : string -> option float.

Lemma parse_param_assignment init k v :
  str_contains "=" k = false ->
  parse_param py_int py_float init (k +:+ String "=" v)
  = inr (<[k := parse_value py_int py_float v]> init).
Proof.
  intros Hk. unfold parse_param.
  rewrite str_contains_app, (split1_app _ _ _ Hk). reflexivity.
Qed.

Lemma parse_param_skip init kv :
  str_contains "=" kv = false ->
  parse_param py_int py_float init kv = inr init.
Proof. intros H. unfold parse_param. rewrite H. reflexivity. Qed.

Lemma parse_params_lookup params : forall init,
  exists init_args,
    parse_params py_int py_float params init = inr init_args /\
    (forall k, str_contains "=" k = true -> init_args !! k = init !! k) /\
    (forall k x, str_contains "=" k = false ->
       (init_args !! k = Some x <->
        (exists before v after,
           params = before ++ (k +:+ String "=" v) :: after /\
           x = parse_value py_int py_float v /\
           Forall (fun kv => forall v', kv <> k +:+ String "=" v') after) \/
        (init !! k = Some x /\
         Forall (fun kv => forall v', kv <> k +:+ String "=" v') params))).
Proof.
  induction params as [|kv rest IH]; intros init.
  - exists init. split; [reflexivity|]. split; [reflexivity|].
    intros k x Hk. split.
    + intros H. right. split; [exact H|constructor].
    + intros [(before & v & after & Habs & _)|[H _]]; [|exact H].
      destruct before; discriminate Habs.
  - cbn [parse_params].
    destruct (str_contains "=" kv) eqn:Ekv.
    + (* an assignment *)
      destruct (split1_contains _ _ Ekv) as (k0 & v0 & -> & Hk0).
      rewrite (parse_param_assignment init k0 v0 Hk0).
      destruct (IH (<[k0 := parse_value py_int py_float v0]> init))
        as (args & Hrun & Hother & Hspec).
      exists args. split; [exact Hrun|]. split.
      * intros k Hk. rewrite (Hother k Hk). apply lookup_insert_ne.
        intros ->. congruence.
      * intros k x Hk. rewrite (Hspec k x Hk). split.
        -- intros [(before & v & after & -> & Hx & Hafter)|[Hin Hna]].
           ++ left. exists ((k0 +:+ String "=" v0) :: before), v, after.
              split; [reflexivity|]. split; assumption.
           ++ destruct (decide (k = k0)) as [->|Hne].
              ** rewrite lookup_insert_eq in Hin. injection Hin as <-.
                 left. exists [], v0, rest. split; [reflexivity|]. split; [reflexivity|exact Hna].
              ** rewrite lookup_insert_ne in Hin by congruence.
                 right. split; [exact Hin|]. constructor; [|exact Hna].
                 intros v' Heq.
                 destruct (assignment_unique _ _ _ _ _ Hk0 Hk Heq). congruence.
        -- intros [(before & v & after & Heq & Hx & Hafter)|[Hin Hna]].
           ++ destruct before as [|b before]; cbn in Heq; injection Heq as Heq1 Heq2.
              ** destruct (assignment_unique _ _ _ _ _ Hk0 Hk Heq1) as [-> ->].
                 right. split; [|subst rest; exact Hafter].
                 rewrite lookup_insert_eq. congruence.
              ** left. exists before, v, after. split; [exact Heq2|]. split; assumption.
           ++ apply Forall_cons in Hna. destruct Hna as [Hkv Hna].
              right. split; [|exact Hna].
              rewrite lookup_insert_ne; [exact Hin|].
              intros ->. apply (Hkv v0). reflexivity.
    + (* skipped *)
      rewrite (parse_param_skip init kv Ekv).
      destruct (IH init) as (args & Hrun & Hother & Hspec).
      exists args. split; [exact Hrun|]. split; [exact Hother|].
      intros k x Hk. rewrite (Hspec k x Hk).
      assert (Hnot : forall v', kv <> k +:+ String "=" v').
      { intros v' ->. rewrite str_contains_app in Ekv. discriminate Ekv. }
      split.
      * intros [(before & v & after & -> & Hx & Hafter)|[Hin Hna]].
        -- left. exists (kv :: before), v, after. split; [reflexivity|]. split; assumption.
        -- right. split; [exact Hin|]. constructor; assumption.
      * intros [(before & v & after & Heq & Hx & Hafter)|[Hin Hna]].
        -- destruct before as [|b before]; cbn in Heq; injection Heq as Heq1 Heq2.
           ++ exfalso. exact (Hnot v Heq1).
           ++ left. exists before, v, after. split; [exact Heq2|]. split; assumption.
        -- apply Forall_cons in Hna. destruct Hna as [_ Hna].
           right. split; assumption.
Qed.

End ParamsFacts.

(** X12 (strategy parameters).  The loop of lines 106-117 never raises.  A
    key [k] ends up in [init_args] exactly when some argument reads
    [k=v] with no [=] in [k]; its value is the one parsed from the last
    such argument, where [v] is everything after the first [=].
    Arguments without [=] leave no trace. *)
Theorem parse_params_last_assignment
    (py_int : string -> option Z) (py_float : string -> option float)
    (params : list string) :
  exists init_args,
    parse_params py_int py_float params ∅ = inr init_args /\
    forall k x,
      init_args !! k = Some x <->
      exists before v after,
        params = before ++ (k +:+ String "=" v) :: after /\
        str_contains "=" k = false /\
        x = parse_value py_int py_float v /\
        Forall (fun kv => forall v', kv <> k +:+ String "=" v') after.
Proof.
  destruct (parse_params_lookup py_int py_float params ∅)
    as (args & Hrun & Hother & Hspec).
  exists args. split; [exact Hrun|].
  intros k x. destruct (str_contains "=" k) eqn:Hk.
  - rewrite (Hother k Hk), lookup_empty. split; [discriminate|].
    intros (_ & _ & _ & _ & H & _). discriminate H.
  - rewrite (Hspec k x Hk). split.
    + intros [(before & v & after & H1 & H2 & H3)|[H _]].
      * exists before, v, after. auto.
      * rewrite lookup_empty in H. discriminate H.
    + intros (before & v & after & H1 & _ & H2 & H3).
      left. exists before, v, after. auto.
Qed.

Local Open Scope Z_scope.

(** ** instantiate_strategies *)

Section LoaderFacts.
Context {V I : Type}.

Lemma length_product (values : list (list V)) :
  length (product values) = foldr Nat.mul 1%nat (length <$> values).
Proof.
  induction values as [|pool rest IH]; [reflexivity|].
  cbn [product fmap list_fmap foldr]. rewrite <- IH. clear IH.
  induction pool as [|x pool IHp]; [reflexivity|].
  cbn [mbind list_bind]. rewrite length_app, length_fmap.
  cbn [mbind] in IHp. rewrite IHp. cbn [length]. lia.
Qed.

Lemma product_length (values : list (list V)) combo :
  combo ∈ product values -> length combo = length values.
Proof.
  revert combo. induction values as [|pool rest IH]; intros combo H.
  - cbn in H. apply list_elem_of_singleton in H. subst. reflexivity.
  - cbn [product] in H. apply list_elem_of_bind in H.
    destruct H as (x & H & _). apply list_elem_of_fmap in H.
    destruct H as (c & -> & Hc). cbn. f_equal. apply IH. exact Hc.
Qed.

Lemma yields_Some (l : list I) :
  yields (Some <$> l) = (l, Exhausted).
Proof.
  induction l as [|x l IH]; [reflexivity|].
  cbn [fmap list_fmap yields]. cbn [fmap] in IH. rewrite IH. reflexivity.
Qed.

Lemma yields_None (steps : list (option I)) :
  Forall (fun s => s = None) steps -> fst (yields steps) = [].
Proof.
  intros H. destruct H as [|s steps -> _]; reflexivity.
Qed.

(** When no call raises, a list of steps is the list of its instances. *)
Lemma all_Some (steps : list (option I)) :
  Forall is_Some steps -> exists l, steps = Some <$> l /\ length l = length steps.
Proof.
  induction 1 as [|s steps [x ->] _ (l & -> & Hlen)].
  - exists []. split; reflexivity.
  - exists (x :: l). split; [reflexivity|]. cbn. rewrite Hlen. reflexivity.
Qed.

Lemma length_bind_sum {A B} (f : A -> list B) (l : list A) :
  length (l ≫= f) = sum_list_with (fun x => length (f x)) l.
Proof.
  induction l as [|x l IH]; [reflexivity|].
  cbn [mbind list_bind sum_list_with]. rewrite length_app.
  cbn [mbind] in IH. rewrite IH. reflexivity.
Qed.

End LoaderFacts.

(** X13 (size of the grid search).  When every class accepts as keywords
    the grid keys that are variable names of its [__init__],
    [instantiate_strategies] ends without an exception and yields, for
    each class, one instance per combination of the value lists of those
    keys: the product of their lengths, which is 1 when no key matches and
    0 when a matching list is empty. *)
Theorem instantiate_strategies_count {V I : Type}
    (strat_classes : list (strategy_class V I))
    (param_grid : list (string * list V)) :
  (forall cls kwargs, cls ∈ strat_classes ->
     kwargs.*1 = (filter (fun item => item.1 ∈ co_varnames cls) param_grid).*1 ->
     is_Some (construct cls kwargs)) ->
  exists instances,
    instantiate_strategies strat_classes param_grid = (instances, Exhausted) /\
    length instances =
      sum_list_with
        (fun cls =>
           foldr Nat.mul 1%nat
             (length <$> (filter (fun item => item.1 ∈ co_varnames cls)
                            param_grid).*2))
        strat_classes.
Proof.
  intros Hok. unfold instantiate_strategies.
  set (steps := strat_classes ≫= (fun cls => class_instances cls param_grid)).
  assert (Hsome : Forall is_Some steps).
  { apply Forall_forall. intros s Hs. unfold steps in Hs.
    apply list_elem_of_bind in Hs. destruct Hs as (cls & Hs & Hcls).
    unfold class_instances in Hs. apply list_elem_of_fmap in Hs.
    destruct Hs as (combo & -> & Hcombo). apply Hok; [exact Hcls|].
    apply fst_zip. rewrite (product_length _ _ Hcombo), !length_fmap. lia. }
  destruct (all_Some steps Hsome) as (l & Hl & Hlen).
  exists l. rewrite Hl, yields_Some. split; [reflexivity|].
  rewrite Hlen. unfold steps. rewrite length_bind_sum.
  clear. induction strat_classes as [|cls rest IH]; [reflexivity|].
  cbn [sum_list_with]. rewrite IH. f_equal.
  unfold class_instances. rewrite length_fmap. apply length_product.
Qed.

Lemma instantiate_strategies_count_witness :
  exists instances,
    instantiate_strategies [MACrossover_class; MACrossover_class]
      [("fast"%string, [5; 10; 20]); ("period"%string, []);
       ("slow"%string, [30; 50])]
    = (instances, Exhausted) /\
    length instances = 12%nat.
Proof.
  apply (instantiate_strategies_count [MACrossover_class; MACrossover_class]
           [("fast"%string, [5; 10; 20]); ("period"%string, []);
            ("slow"%string, [30; 50])]).
  intros cls kwargs Hcls Hkeys.
  assert (cls = MACrossover_class) as ->.
  { apply list_elem_of_In in Hcls. destruct Hcls as [<-|[<-|[]]]; reflexivity. }
  vm_compute in Hkeys.
  destruct kwargs as [|[k1 v1] [|[k2 v2] [|? ?]]]; try discriminate Hkeys.
  injection Hkeys as -> ->. eexists. reflexivity.
Defined.

(** *** The grid of MACrossover *)

Lemma dict_get_None {V} (k : string) (d : list (string * V)) :
  k ∉ d.*1 -> dict_get k d = None.
Proof.
  induction d as [|[k' v] d IH]; intros H; [reflexivity|].
  cbn [dict_get]. cbn [fmap list_fmap fst] in H.
  apply not_elem_of_cons in H. destruct H as [Hne H].
  destruct (String.eqb_spec k' k) as [->|_]; [congruence|].
  apply IH. exact H.
Qed.

(** The items of a grid that [MACrossover] takes, by what the grid holds
    for [fast] and [slow]. *)
Lemma MACrossover_items (grid : list (string * list Z)) :
  NoDup grid.*1 -> "self"%string ∉ grid.*1 ->
  let items := filter (fun item => item.1 ∈ co_varnames MACrossover_class) grid in
  match dict_get "fast" grid, dict_get "slow" grid with
  | None, None => items = []
  | Some fs, None => items = [("fast"%string, fs)]
  | None, Some ss => items = [("slow"%string, ss)]
  | Some fs, Some ss =>
      items = [("fast"%string, fs); ("slow"%string, ss)] \/
      items = [("slow"%string, ss); ("fast"%string, fs)]
  end.
Proof.
  induction grid as [|[k vs] rest IH]; intros Hnd Hself; [reflexivity|].
  cbn [fmap list_fmap fst] in Hnd, Hself.
  apply NoDup_cons in Hnd. destruct Hnd as [Hk Hnd].
  apply not_elem_of_cons in Hself. destruct Hself as [Hks Hself].
  specialize (IH Hnd Hself). cbv zeta in IH |- *.
  cbn [dict_get].
  destruct (String.eqb_spec k "fast") as [->|Hf].
  - rewrite filter_cons_True by (cbn; set_solver).
    rewrite (dict_get_None "fast" rest Hk) in IH.
    change (String.eqb "fast" "slow") with false. cbn iota.
    destruct (dict_get "slow" rest) as [ss|]; rewrite IH; auto.
  - destruct (String.eqb_spec k "slow") as [->|Hs].
    + rewrite filter_cons_True by (cbn; set_solver).
      rewrite (dict_get_None "slow" rest Hk) in IH.
      destruct (dict_get "fast" rest) as [fs|]; rewrite IH; auto.
    + rewrite filter_cons_False; [exact IH|].
      cbn. intros Hin.
      apply elem_of_cons in Hin. destruct Hin as [->|Hin]; [congruence|].
      apply elem_of_cons in Hin. destruct Hin as [->|Hin]; [congruence|].
      apply list_elem_of_singleton in Hin. congruence.
Qed.

Lemma MACrossover_call_self kwargs : forall fast slow,
  "self"%string ∈ kwargs.*1 -> MACrossover_call kwargs fast slow = None.
Proof.
  induction kwargs as [|[k v] rest IH]; intros fast slow H.
  - cbn in H. apply elem_of_nil in H. contradiction.
  - cbn [fmap list_fmap fst] in H. cbn [MACrossover_call].
    apply elem_of_cons in H. destruct H as [<-|H]; [reflexivity|].
    destruct (String.eqb k "fast"); [apply IH; exact H|].
    destruct (String.eqb k "slow"); [apply IH; exact H|reflexivity].
Qed.

Lemma sum_list_with_const {A} (l : list A) (c : nat) :
  sum_list_with (fun _ => c) l = (length l * c)%nat.
Proof. induction l as [|x l IH]; cbn; [reflexivity|]. rewrite IH. lia. Qed.

Lemma bind_singleton {A B} (f : A -> B) (l : list A) :
  (x ← l; [f x]) = f <$> l.
Proof. induction l as [|x l IH]; [reflexivity|]. cbn. f_equal; exact IH. Qed.

(** The steps of the generator over one or two pools. *)
Lemma product_one (P : list Z) : product [P] = (fun x => [x]) <$> P.
Proof.
  cbn [product]. induction P as [|x P IH]; [reflexivity|].
  cbn [mbind list_bind]. cbn [mbind] in IH. rewrite IH. reflexivity.
Qed.

Lemma steps_one (g : list Z -> option MACrossover) (P : list Z) :
  g <$> product [P] = (fun x => g [x]) <$> P.
Proof. rewrite product_one, <- list_fmap_compose. reflexivity. Qed.

Lemma steps_two (g : list Z -> option MACrossover) (P Q : list Z) :
  g <$> product [P; Q] = x ← P; (fun y => g [x; y]) <$> Q.
Proof.
  change (product [P; Q]) with (x ← P; (fun combo => x :: combo) <$> product [Q]).
  rewrite product_one.
  induction P as [|x P IH]; [reflexivity|].
  cbn [mbind list_bind]. rewrite fmap_app. f_equal; [|exact IH].
  rewrite <- !list_fmap_compose. reflexivity.
Qed.

Lemma bind_swap_elem {A B C} (f : A -> B -> C) (P : list A) (Q : list B) z :
  z ∈ (x ← P; f x <$> Q) <-> exists x y, x ∈ P /\ y ∈ Q /\ z = f x y.
Proof.
  rewrite list_elem_of_bind. split.
  - intros (x & Hz & Hx). apply list_elem_of_fmap in Hz.
    destruct Hz as (y & -> & Hy). exists x, y. auto.
  - intros (x & y & Hx & Hy & ->). exists x. split; [|exact Hx].
    apply list_elem_of_fmap. exists y. auto.
Qed.

Lemma length_bind_fmap {A B C} (f : A -> B -> C) (P : list A) (Q : list B) :
  length (x ← P; f x <$> Q) = (length P * length Q)%nat.
Proof.
  induction P as [|x P IH]; [reflexivity|].
  cbn [mbind list_bind length]. rewrite length_app, length_fmap.
  cbn [mbind] in IH. rewrite IH. lia.
Qed.

(** The steps of [MACrossover] over a grid are one call per pair of a
    [fast] and a [slow] value, the first key of the grid varying slowest. *)
Lemma MACrossover_steps (grid : list (string * list Z)) :
  NoDup grid.*1 -> "self"%string ∉ grid.*1 ->
  let fasts := default [10] (dict_get "fast" grid) in
  let slows := default [50] (dict_get "slow" grid) in
  class_instances MACrossover_class grid
    = (x ← fasts; (fun y => Some (mkMACrossover x y)) <$> slows) \/
  class_instances MACrossover_class grid
    = (y ← slows; (fun x => Some (mkMACrossover x y)) <$> fasts).
Proof.
  intros Hnd Hself. pose proof (MACrossover_items grid Hnd Hself) as Hitems.
  cbv zeta in Hitems |- *. unfold class_instances.
  destruct (dict_get "fast" grid) as [fs|], (dict_get "slow" grid) as [ss|];
    cbn [default from_option id].
  - destruct Hitems as [-> | ->]; cbn [fmap list_fmap fst snd].
    + left. rewrite steps_two. reflexivity.
    + right. rewrite steps_two. reflexivity.
  - rewrite Hitems. cbn [fmap list_fmap fst snd]. left.
    rewrite steps_one. cbn [mbind list_bind fmap list_fmap].
    rewrite bind_singleton. reflexivity.
  - rewrite Hitems. cbn [fmap list_fmap fst snd]. left.
    rewrite steps_one. cbn [mbind list_bind]. rewrite app_nil_r. reflexivity.
  - rewrite Hitems. left. reflexivity.
Qed.

(** X14 (the grid of MACrossover).  For a grid with distinct keys that does
    not name [self], [instantiate_strategies] on the class [MACrossover]
    ends without an exception and yields exactly the instances whose
    [fast] is in the grid's list for [fast] and whose [slow] is in its list
    for [slow], one per pair; a key the grid does not hold stands for its
    default, 10 or 50.  A grid that names [self] yields no instance. *)
Theorem MACrossover_grid (param_grid : list (string * list Z)) :
  NoDup param_grid.*1 ->
  let fasts := default [10] (dict_get "fast" param_grid) in
  let slows := default [50] (dict_get "slow" param_grid) in
  ("self"%string ∉ param_grid.*1 ->
   exists instances,
     instantiate_strategies [MACrossover_class] param_grid
       = (instances, Exhausted) /\
     length instances = (length fasts * length slows)%nat /\
     forall m, m ∈ instances <-> fast m ∈ fasts /\ slow m ∈ slows) /\
  ("self"%string ∈ param_grid.*1 ->
   fst (instantiate_strategies [MACrossover_class] param_grid) = []).
Proof.
  intros Hnd fasts slows. split.
  - intros Hself.
    unfold instantiate_strategies. cbn [mbind list_bind]. rewrite app_nil_r.
    destruct (MACrossover_steps param_grid Hnd Hself) as [Hsteps|Hsteps];
      cbv zeta in Hsteps; fold fasts slows in Hsteps; rewrite Hsteps.
    + exists (x ← fasts; mkMACrossover x <$> slows).
      split; [|split].
      * rewrite <- yields_Some. f_equal.
        generalize fasts as l. intros l.
        induction l as [|x l IH]; [reflexivity|].
        cbn [mbind list_bind]. rewrite fmap_app. cbn [mbind] in IH.
        rewrite <- IH, <- list_fmap_compose. reflexivity.
      * apply length_bind_fmap.
      * intros m. rewrite bind_swap_elem. split.
        -- intros (x & y & Hx & Hy & ->). auto.
        -- intros [Hx Hy]. exists (fast m), (slow m). destruct m. auto.
    + exists (y ← slows; (fun x => mkMACrossover x y) <$> fasts).
      split; [|split].
      * rewrite <- yields_Some. f_equal.
        generalize slows as l. intros l.
        induction l as [|y l IH]; [reflexivity|].
        cbn [mbind list_bind]. rewrite fmap_app. cbn [mbind] in IH.
        rewrite <- IH, <- list_fmap_compose. reflexivity.
      * rewrite length_bind_fmap. lia.
      * intros m. rewrite (bind_swap_elem (fun y x => mkMACrossover x y)). split.
        -- intros (y & x & Hy & Hx & ->). auto.
        -- intros [Hx Hy]. exists (slow m), (fast m). destruct m. auto.
  - intros Hself.
    unfold instantiate_strategies. cbn [mbind list_bind]. rewrite app_nil_r.
    apply yields_None. apply Forall_forall. intros s Hs.
    unfold class_instances in Hs. apply list_elem_of_fmap in Hs.
    destruct Hs as (combo & -> & Hcombo).
    apply MACrossover_call_self.
    rewrite fst_zip.
    + apply list_elem_of_fmap. apply list_elem_of_fmap in Hself.
      destruct Hself as ([k vs] & Hk & Hin). cbn in Hk. subst k.
      exists ("self"%string, vs). split; [reflexivity|].
      apply list_elem_of_filter. split; [cbn; set_solver|exact Hin].
    + rewrite (product_length _ _ Hcombo), !length_fmap. lia.
Qed.

Lemma MACrossover_grid_witness :
  exists instances,
    instantiate_strategies [MACrossover_class] example_grid
      = (instances, Exhausted) /\
    length instances = 9%nat /\
    forall m, m ∈ instances <->
              fast m ∈ [5; 10; 20] /\ slow m ∈ [30; 50; 100].
Proof.
  assert (Hnd : NoDup example_grid.*1)
    by (apply (bool_decide_unpack _); vm_compute; exact I).
  apply (proj1 (MACrossover_grid example_grid Hnd)).
  apply (bool_decide_unpack _). vm_compute. exact I.
Defined.

Local Open Scope Z_scope.

(** ** fetch_interval_chunks *)

Lemma duplicated_snoc (index : list Z) (t : Z) :
  duplicated (index ++ [t]) = duplicated index ++ [bool_decide (t ∈ index)].
Proof.
  unfold duplicated. rewrite imap_app. f_equal.
  - apply imap_ext. intros i x Hx. cbn.
    rewrite take_app_le; [reflexivity|].
    apply lookup_lt_Some in Hx. lia.
  - cbn. rewrite Nat.add_0_r, take_app_length. reflexivity.
Qed.

Lemma length_duplicated index : length (duplicated index) = length index.
Proof. apply length_imap. Qed.

Section FetchFacts.
Variable row : Type.

Lemma drop_duplicated_snoc (df : price_frame row) (r : Z * row) :
  drop_duplicated row (df ++ [r]) =
  drop_duplicated row df ++ (if bool_decide (r.1 ∈ df.*1) then [] else [r]).
Proof.
  unfold drop_duplicated.
  rewrite fmap_app. change ([r].*1) with [r.1]. rewrite duplicated_snoc.
  rewrite zip_with_app
    by (rewrite length_duplicated, length_fmap; reflexivity).
  rewrite filter_app, fmap_app. f_equal.
  cbn [zip_with]. destruct (bool_decide (r.1 ∈ df.*1)).
  - rewrite filter_cons_False by (cbn; discriminate). reflexivity.
  - rewrite filter_cons_True by reflexivity. reflexivity.
Qed.

Lemma drop_duplicated_nil : drop_duplicated row [] = [].
Proof. reflexivity. Qed.

(** What [drop_duplicated] keeps: rows of the frame, in their order, one
    per timestamp. *)
Lemma drop_duplicated_index (df : price_frame row) :
  drop_duplicated row df `sublist_of` df /\
  NoDup (drop_duplicated row df).*1 /\
  (forall t, t ∈ df.*1 -> t ∈ (drop_duplicated row df).*1).
Proof.
  induction df as [|r df (Hsub & Hnd & Hkeys)] using rev_ind.
  - rewrite drop_duplicated_nil. split; [constructor|]. split; [constructor|]. auto.
  - rewrite drop_duplicated_snoc.
    assert (Hin : forall t, t ∈ (drop_duplicated row df).*1 -> t ∈ df.*1).
    { intros t Ht. apply list_elem_of_fmap in Ht. destruct Ht as (x & -> & Hx).
      apply list_elem_of_fmap. exists x. split; [reflexivity|].
      eapply elem_of_sublist; eassumption. }
    destruct (bool_decide (r.1 ∈ df.*1)) eqn:E.
    + apply bool_decide_eq_true in E. rewrite app_nil_r.
      split; [apply sublist_inserts_r; exact Hsub|]. split; [exact Hnd|].
      intros t Ht. rewrite fmap_app in Ht. apply elem_of_app in Ht.
      destruct Ht as [Ht|Ht]; [apply Hkeys; exact Ht|].
      cbn in Ht. apply list_elem_of_singleton in Ht. subst t. apply Hkeys. exact E.
    + apply bool_decide_eq_false in E.
      split; [apply sublist_app; [exact Hsub|reflexivity]|]. split.
      * rewrite fmap_app. apply NoDup_app. split; [exact Hnd|]. split.
        -- intros t Ht Ht'. cbn in Ht'. apply list_elem_of_singleton in Ht'. subst t.
           apply E. apply Hin. exact Ht.
        -- cbn. apply NoDup_singleton.
      * intros t Ht. rewrite fmap_app in Ht |- *. apply elem_of_app in Ht.
        apply elem_of_app. destruct Ht as [Ht|Ht]; [left; apply Hkeys; exact Ht|].
        right. exact Ht.
Qed.

End FetchFacts.

(** *** The windows of the loop *)




Section ChunkLoop.
Variable row : Type.
Variable download : string -> Z -> Z -> string -> download_result row.
Variables ticker yf_interval : string.
Variables max_delta end_ : Z.
Hypothesis Hmax_delta : 0 < max_delta.







End ChunkLoop.


Lemma MAX_LOOKBACK_unchunked interval_key :
  MAX_LOOKBACK !! interval_key = Some None ->
  INTERVALS !! interval_key = Some interval_key /\
  (interval_key = "1d"%string \/ interval_key = "1wk"%string).
Proof.
  unfold MAX_LOOKBACK. intros H.
  destruct (decide (interval_key = "15m"%string)) as [->|N1].
  { rewrite lookup_insert_eq in H. discriminate H. }
  rewrite lookup_insert_ne in H by congruence.
  destruct (decide (interval_key = "1h"%string)) as [->|N2].
  { rewrite lookup_insert_eq in H. discriminate H. }
  rewrite lookup_insert_ne in H by congruence.
  destruct (decide (interval_key = "1d"%string)) as [->|N3].
  { split; [reflexivity|auto]. }
  rewrite lookup_insert_ne in H by congruence.
  destruct (decide (interval_key = "1wk"%string)) as [->|N4].
  { split; [reflexivity|auto]. }
  rewrite lookup_insert_ne in H by congruence.
  rewrite lookup_empty in H. discriminate H.
Qed.








(** X17 (intervals without a lookback limit, unknown intervals).  An
    interval key that [MAX_LOOKBACK] does not hold raises [KeyError]
    before anything is downloaded.  For [1d] and [1wk] there is one
    download over the whole range, also when [end <= start]; its frame is
    returned as it is, duplicated timestamps included, and its exception
    is not caught. *)
Theorem fetch_interval_chunks_unchunked (row : Type)
    (download : string -> Z -> Z -> string -> download_result row)
    (fuel : nat) (ticker interval_key : string) (start end_ : Z) :
  (MAX_LOOKBACK !! interval_key = None ->
   fetch_interval_chunks row download fuel ticker interval_key start end_
     = Some (inl Fetch_KeyError, [])) /\
  (MAX_LOOKBACK !! interval_key = Some None ->
   (interval_key = "1d"%string \/ interval_key = "1wk"%string) /\
   fetch_interval_chunks row download fuel ticker interval_key start end_
     = Some (match download ticker (strftime start) (strftime end_)
                            interval_key with
             | Downloaded df => inr df
             | Raised_Exception | Raised_BaseException => inl Download_error
             end, [])).
Proof.
  split.
  - intros H. unfold fetch_interval_chunks. rewrite H. reflexivity.
  - intros H. destruct (MAX_LOOKBACK_unchunked _ H) as [Hint Hkey].
    split; [exact Hkey|].
    unfold fetch_interval_chunks. rewrite H, Hint.
    destruct (download ticker (strftime start) (strftime end_) interval_key);
      reflexivity.
Qed.

Lemma fetch_interval_chunks_unchunked_witness :
  fetch_interval_chunks Z example_download 0 "AAPL" "5m" 0 (timedelta 3)
    = Some (inl Fetch_KeyError, []) /\
  fetch_interval_chunks Z example_download 0 "AAPL" "1d" (timedelta 3) 0
    = Some (inr [(259200000000, 3); (0, 0)], []).
Proof.
  split.
  - apply (proj1 (fetch_interval_chunks_unchunked Z example_download 0
                    "AAPL" "5m" 0 (timedelta 3))).
    reflexivity.
  - apply (proj2 (fetch_interval_chunks_unchunked Z example_download 0
                    "AAPL" "1d" (timedelta 3) 0)).
    reflexivity.
Defined.

(** X18 (duplicated timestamps).  Line 59 keeps rows of the frame in their
    order, one for each timestamp that occurs, and the one kept is the
    first: a row whose timestamp has not occurred above it stays. *)
Theorem drop_duplicated_keeps_first (row : Type) (df : price_frame row) :
  drop_duplicated row df `sublist_of` df /\
  NoDup (drop_duplicated row df).*1 /\
  (forall t, t ∈ df.*1 -> t ∈ (drop_duplicated row df).*1) /\
  (forall i r, df !! i = Some r ->
     (forall j r', (j < i)%nat -> df !! j = Some r' -> fst r' <> fst r) ->
     r ∈ drop_duplicated row df).
Proof.
  destruct (drop_duplicated_index row df) as (Hsub & Hnd & Hkeys).
  split; [exact Hsub|]. split; [exact Hnd|]. split; [exact Hkeys|].
  clear Hsub Hnd Hkeys.
  induction df as [|r df Hfirst] using rev_ind; intros i r0 Hr0 Hnew.
  - discriminate Hr0.
  - rewrite drop_duplicated_snoc. apply elem_of_app.
    destruct (decide (i < length df)%nat) as [Hi|Hi].
    + left. rewrite lookup_app_l in Hr0 by exact Hi.
      apply (Hfirst i r0 Hr0). intros j r' Hj Hr'.
      apply (Hnew j r' Hj). rewrite lookup_app_l by lia. exact Hr'.
    + assert (i = length df).
      { apply lookup_lt_Some in Hr0. rewrite length_app in Hr0. cbn in Hr0. lia. }
      subst i. rewrite list_lookup_middle in Hr0 by reflexivity.
      injection Hr0 as <-.
      destruct (bool_decide (r.1 ∈ df.*1)) eqn:E.
      * exfalso. apply bool_decide_eq_true in E.
        apply list_elem_of_fmap in E. destruct E as (r' & Heq & Hr').
        apply list_elem_of_lookup in Hr'. destruct Hr' as (j & Hj).
        apply (Hnew j r').
        -- eapply lookup_lt_Some; exact Hj.
        -- rewrite lookup_app_l by (eapply lookup_lt_Some; exact Hj). exact Hj.
        -- congruence.
      * right. apply list_elem_of_singleton. reflexivity.
Qed.

Local Open Scope Z_scope.

(** *** The sign of a difference *)

(** Of two positive floats in canonical form, the one with the smaller
    exponent, or with the same exponent and the smaller mantissa, has the
    smaller aligned mantissa. *)
Lemma aligned_lt (mx my : positive) (ex ey : Z) :
  bounded prec emax mx ex = true -> bounded prec emax my ey = true ->
  ex < ey \/ (ex = ey /\ (mx < my)%positive) ->
  Zpos mx * 2 ^ (ex - Z.min ex ey) < Zpos my * 2 ^ (ey - Z.min ex ey).
Proof.
  intros Hx Hy Hlt.
  apply bounded_spec in Hx, Hy. destruct Hx as [Hx _], Hy as [Hy _].
  pose proof (digits2_pos_bounds mx) as Bx.
  pose proof (digits2_pos_bounds my) as By.
  destruct Hlt as [Hlt|[-> Hlt]].
  - rewrite Z.min_l by lia. rewrite Z.sub_diag, Z.pow_0_r, Z.mul_1_r.
    assert (Hdy : Zpos (digits2_pos my) = 53) by lia.
    assert (Hdx : Zpos (digits2_pos mx) <= 53) by lia.
    rewrite Hdy in By.
    assert (2 ^ Zpos (digits2_pos mx) <= 2 ^ 53) by (apply pow2_ge; lia).
    assert (2 ^ 1 <= 2 ^ (ey - ex)) by (apply pow2_ge; lia).
    change (2 ^ (53 - 1)) with 4503599627370496 in By.
    change (2 ^ 53) with 9007199254740992 in *.
    change (2 ^ 1) with 2 in *.
    nia.
  - rewrite Z.min_id, Z.sub_diag, Z.pow_0_r. lia.
Qed.

Lemma binary_normalize_neg p e : -1074 <= e ->
  SFltb (binary_normalize prec emax (Zneg p) e false) (S754_zero false) = true.
Proof.
  intros He. cbn [binary_normalize].
  destruct (binary_round_nonzero true p e He) as (m' & e' & [H|H]);
    rewrite H; reflexivity.
Qed.

Lemma binary_normalize_pos p e : -1074 <= e ->
  SFltb (S754_zero false) (binary_normalize prec emax (Zpos p) e false) = true.
Proof.
  intros He. cbn [binary_normalize].
  destruct (binary_round_nonzero false p e He) as (m' & e' & [H|H]);
    rewrite H; reflexivity.
Qed.

(** The difference of two floats has the sign their order gives it: it
    is never rounded to zero. *)
Lemma SFsub_lt_sign x y :
  valid_binary x = true -> valid_binary y = true ->
  SFltb x y = true ->
  SFltb (SFsub prec emax x y) (S754_zero false) = true /\
  SFltb (S754_zero false) (SFsub prec emax y x) = true.
Proof.
  intros Hvx Hvy Hlt.
  destruct x as [sx|sx| |sx mx ex], y as [sy|sy| |sy my ey];
    try discriminate Hlt;
    try (destruct sx, sy; try discriminate Hlt; split; reflexivity);
    try (destruct sx; try discriminate Hlt; split; reflexivity);
    try (destruct sy; try discriminate Hlt; split; reflexivity).
  cbn [valid_binary] in Hvx, Hvy.
  pose proof (bounded_spec _ _ Hvx) as [Hex _].
  pose proof (bounded_spec _ _ Hvy) as [Hey _].
  apply SFltb_key in Hlt. destruct Hlt as (_ & _ & Hlt). cbn [key] in Hlt.
  cbn [SFsub]. cbv zeta.
  rewrite (Z.min_comm ey ex).
  set (ez := Z.min ex ey).
  assert (Hez : -1074 <= ez) by (unfold ez; lia).
  destruct (shl_align_spec mx ex ez ltac:(unfold ez; lia)) as [Hax _].
  destruct (shl_align_spec my ey ez ltac:(unfold ez; lia)) as [Hay _].
  rewrite Hax, Hay. clear Hax Hay.
  assert (Hpx : 0 < Zpos mx * 2 ^ (ex - ez))
    by (apply Z.mul_pos_pos; [lia|apply pow2_pos; unfold ez; lia]).
  assert (Hpy : 0 < Zpos my * 2 ^ (ey - ez))
    by (apply Z.mul_pos_pos; [lia|apply pow2_pos; unfold ez; lia]).
  assert (Hd : cond_Zopp sx (Zpos mx * 2 ^ (ex - ez)) <
               cond_Zopp sy (Zpos my * 2 ^ (ey - ez))).
  { destruct sx, sy; cbn [cond_Zopp]; cbv [lt3] in Hlt.
    - (* both negative *)
      assert (H : Zpos my * 2 ^ (ey - Z.min ey ex) < Zpos mx * 2 ^ (ex - Z.min ey ex)).
      { apply aligned_lt; try assumption.
        destruct Hlt as [Hlt|[_ [Hlt|[Hlt1 Hlt2]]]]; [lia|left; lia|right; split; lia]. }
      rewrite (Z.min_comm ey ex) in H. fold ez in H. lia.
    - lia.
    - exfalso. lia.
    - (* both positive *)
      apply aligned_lt; try assumption.
      destruct Hlt as [Hlt|[_ [Hlt|[Hlt1 Hlt2]]]]; [lia|left; lia|right; split; lia]. }
  split.
  - match goal with |- context [binary_normalize _ _ ?z _ _] =>
      destruct z as [|p|p] eqn:Ez end; try lia.
    apply binary_normalize_neg. exact Hez.
  - match goal with |- context [binary_normalize _ _ ?z _ _] =>
      destruct z as [|p|p] eqn:Ez end; try lia.
    apply binary_normalize_pos. exact Hez.
Qed.

(** The difference of two equal floats is a zero, or NaN for two
    infinities. *)
Lemma SFsub_eq_zero x y :
  SFeqb x y = true ->
  SFsub prec emax x y = S754_nan \/ exists s, SFsub prec emax x y = S754_zero s.
Proof.
  intros Heq.
  destruct x as [sx|sx| |sx mx ex], y as [sy|sy| |sy my ey];
    try discriminate Heq;
    try (destruct sx, sy; try discriminate Heq; cbn; eauto; fail).
  apply SFeqb_key in Heq. destruct Heq as (_ & _ & Heq).
  assert (Hs : sx = sy /\ mx = my /\ ex = ey).
  { destruct sx, sy; cbn [key] in Heq; try discriminate Heq;
      injection Heq; intros; repeat split; try reflexivity; lia. }
  destruct Hs as (-> & -> & ->).
  right. exists false. cbn [SFsub]. cbv zeta. rewrite Z.sub_diag. reflexivity.
Qed.

Local Open Scope float_scope.

Lemma f64_sub_lt_neg x y : (x <? y) = true -> (x - y <? 0) = true.
Proof.
  rewrite !FloatAxioms.ltb_spec, sub_spec, Prim2SF_zero. intros H.
  apply (SFsub_lt_sign _ _ (Prim2SF_valid x) (Prim2SF_valid y) H).
Qed.

Lemma f64_sub_lt_pos x y : (x <? y) = true -> (0 <? y - x) = true.
Proof.
  rewrite !FloatAxioms.ltb_spec, sub_spec, Prim2SF_zero. intros H.
  apply (SFsub_lt_sign _ _ (Prim2SF_valid x) (Prim2SF_valid y) H).
Qed.

Lemma f64_sub_eq x y : (x =? y) = true ->
  F64.isnan (x - y) = true \/ (x - y =? 0) = true.
Proof.
  rewrite FloatAxioms.eqb_spec. intros H.
  destruct (SFsub_eq_zero _ _ H) as [Hn|(s & Hz)].
  - left. apply f64_isnan_spec. rewrite sub_spec. exact Hn.
  - right. apply f64_iszero_spec. exists s. rewrite sub_spec. exact Hz.
Qed.

Lemma f64_sub_nan_r x : x - nan = nan.
Proof.
  apply Prim2SF_inj. rewrite sub_spec, Prim2SF_nan.
  destruct (Prim2SF x) as [?|?| |? ? ?]; reflexivity.
Qed.

Lemma f64_isnan_eq x : F64.isnan x = true -> x = nan.
Proof.
  intros H. apply f64_isnan_spec in H. apply Prim2SF_inj.
  rewrite Prim2SF_nan. exact H.
Qed.

(** Two floats that are not NaN are ordered or equal. *)
Lemma f64_trichotomy x y :
  F64.isnan x = false -> F64.isnan y = false ->
  (x <? y) = true \/ (x =? y) = true \/ (y <? x) = true.
Proof.
  intros Hx Hy.
  destruct (f64_leb_total x y Hx Hy) as [Hle|Hgt]; [|auto].
  destruct (x <? y) eqn:Hlt; [auto|]. right. left.
  apply f64_not_nan_spec in Hx, Hy.
  apply f64_eqb_key. repeat split; try assumption.
  assert (Hn : ~ lt3 (key (Prim2SF x)) (key (Prim2SF y))).
  { intros H. assert ((x <? y) = true) by (apply f64_ltb_key; auto). congruence. }
  apply f64_leb_key in Hle. destruct Hle as (_ & _ & Hle).
  revert Hn Hle. key_solve.
Qed.

(** The product of two finite floats is not NaN. *)
Lemma f64_mul_finite_notnan x y :
  F64.isfinite x = true -> F64.isfinite y = true -> F64.isnan (x * y) = false.
Proof.
  intros Hx Hy. apply f64_isfinite_spec in Hx, Hy.
  apply f64_not_nan_spec. rewrite mul_spec. unfold SF64mul.
  destruct (Prim2SF x) as [sx|sx| |sx mx ex], (Prim2SF y) as [sy|sy| |sy my ey];
    cbn [finite_sf] in Hx, Hy; try contradiction; try exact I.
  cbn [SFmul].
  pose proof (binary_round_aux_sign (xorb sx sy) (Zpos (mx * my)) (ex + ey) loc_Exact
                ltac:(lia)) as H.
  destruct (binary_round_aux prec emax (xorb sx sy) (Zpos (mx * my)) (ex + ey) loc_Exact);
    try exact I. contradiction.
Qed.

Local Open Scope float_scope.

(** ** compute_obv *)

(** The direction of a price move, as lines 36 computes it from the
    difference: +1 for a rise, -1 for a fall, 0 for no move and for a
    missing price. *)
Lemma direction_of_move c c' :
  (fun x => if F64.isnan x then 0 else x) (np_sign (c' - c)) =
  if c <? c' then 1 else if c' <? c then -1 else 0.
Proof.
  cbv beta. unfold np_sign.
  destruct (c <? c') eqn:Hup.
  { rewrite (f64_sub_lt_pos _ _ Hup). reflexivity. }
  destruct (c' <? c) eqn:Hdown.
  { pose proof (f64_sub_lt_neg _ _ Hdown) as Hneg. rewrite Hneg.
    destruct (0 <? c' - c) eqn:Hpos; [|reflexivity].
    exfalso. apply f64_ltb_not_leb in Hpos. apply f64_ltb_leb in Hneg. congruence. }
  destruct (F64.isnan c) eqn:Hc.
  { apply f64_isnan_eq in Hc. subst c. rewrite f64_sub_nan_r. reflexivity. }
  destruct (F64.isnan c') eqn:Hc'.
  { apply f64_isnan_eq in Hc'. subst c'. rewrite f64_sub_nan_l. reflexivity. }
  destruct (f64_trichotomy c c' Hc Hc') as [H|[H|H]]; try congruence.
  assert (Heq : (c' =? c) = true).
  { apply f64_eqb_key in H. destruct H as (H1 & H2 & H3).
    apply f64_eqb_key. repeat split; auto. }
  destruct (f64_sub_eq _ _ Heq) as [Hn|Hz].
  - apply f64_isnan_eq in Hn. rewrite Hn. reflexivity.
  - destruct (0 <? c' - c) eqn:E1.
    { apply f64_ltb_not_eqb in E1. exfalso.
      apply f64_eqb_key in Hz. destruct Hz as (? & ? & Hz).
      assert ((0 =? c' - c) = true) by (apply f64_eqb_key; auto). congruence. }
    destruct (c' - c <? 0) eqn:E2.
    { apply f64_ltb_not_eqb in E2. congruence. }
    rewrite Hz. reflexivity.
Qed.

Lemma lookup_direction_0 s :
  s <> [] ->
  Pd.fillna 0 (np_sign <$> series_diff (FloatCol s)) !! 0%nat = Some 0.
Proof.
  intros Hs. rewrite lookup_fillna, list_lookup_fmap.
  cbn [series_diff]. rewrite lookup_zip_with, lookup_shift_0 by exact Hs.
  destruct s as [|x s]; [congruence|]. cbn [lookup list_lookup mbind option_bind].
  cbn [fmap option_fmap option_map]. rewrite f64_sub_nan_r. reflexivity.
Qed.

Lemma lookup_direction_S s i c c' :
  s !! i = Some c -> s !! S i = Some c' ->
  Pd.fillna 0 (np_sign <$> series_diff (FloatCol s)) !! S i
  = Some (if c <? c' then 1 else if c' <? c then -1 else 0).
Proof.
  intros Hc Hc'. rewrite lookup_fillna, list_lookup_fmap.
  cbn [series_diff]. rewrite lookup_zip_with, Hc'.
  rewrite lookup_shift_S by (eapply lookup_lt_Some; exact Hc').
  rewrite Hc. cbn [mbind option_bind fmap option_fmap option_map].
  f_equal. apply direction_of_move.
Qed.

(** *** The sign of a converted integer *)

Lemma binary_round_opp p e :
  binary_round prec emax true p e = SFopp (binary_round prec emax false p e).
Proof.
  unfold binary_round.
  destruct (shl_align p e (fexp prec emax (Z.pos (digits2_pos p) + e))) as [mz ez].
  unfold binary_round_aux.
  destruct (shr_fexp prec emax (Z.pos mz) ez loc_Exact) as [mrs' e'].
  match goal with |- context [shr_fexp ?a ?b ?c ?d ?l] =>
    destruct (shr_fexp a b c d l) as [mrs'' e''] end.
  destruct (shr_m mrs'') as [|m|m]; try reflexivity.
  destruct (e'' <=? emax - prec)%Z; reflexivity.
Qed.

Local Open Scope Z_scope.

Lemma wrap64_bounds z : - 2 ^ 63 <= wrap64 z < 2 ^ 63.
Proof.
  unfold wrap64.
  pose proof (Z.mod_pos_bound (z + 2 ^ 63) (2 ^ 64) eq_refl) as H.
  change (2 ^ 64) with (2 * 2 ^ 63) in *. lia.
Qed.

Lemma wrap64_small z : - 2 ^ 63 <= z < 2 ^ 63 -> wrap64 z = z.
Proof.
  intros H. unfold wrap64. rewrite Z.mod_small; [lia|].
  change (2 ^ 64) with (2 * 2 ^ 63). lia.
Qed.

(** A positive [int64] is converted as the primitive conversion of
    unsigned integers converts it. *)
Lemma of_Z_pos_prim p :
  Zpos p < 2 ^ 63 ->
  F64.of_Z (Zpos p) = PrimFloat.of_uint63 (Uint63.of_Z (Zpos p)).
Proof.
  intros Hp. unfold F64.of_Z.
  rewrite <- (SF2Prim_Prim2SF (PrimFloat.of_uint63 _)), of_uint63_spec.
  rewrite Uint63.of_Z_spec, Z.mod_small; [reflexivity|].
  change Uint63.wB with (2 ^ 63). lia.
Qed.

Lemma of_Z_neg_prim p :
  Zpos p < 2 ^ 63 ->
  F64.of_Z (Zneg p) = PrimFloat.opp (PrimFloat.of_uint63 (Uint63.of_Z (Zpos p))).
Proof.
  intros Hp. unfold F64.of_Z.
  rewrite <- (SF2Prim_Prim2SF (PrimFloat.opp _)), opp_spec, of_uint63_spec.
  rewrite Uint63.of_Z_spec, Z.mod_small by (change Uint63.wB with (2 ^ 63); lia).
  cbn [binary_normalize]. rewrite binary_round_opp. reflexivity.
Qed.

Local Open Scope float_scope.

Lemma of_Z_pos_sign p :
  (Zpos p < 2 ^ 63)%Z -> (0 <? F64.of_Z (Zpos p)) = true.
Proof.
  intros Hp. rewrite (of_Z_pos_prim p Hp).
  rewrite FloatAxioms.ltb_spec, Prim2SF_zero, of_uint63_spec.
  rewrite Uint63.of_Z_spec, Z.mod_small by (change Uint63.wB with (2 ^ 63)%Z; lia).
  apply binary_normalize_pos. lia.
Qed.

Lemma of_Z_neg_sign p :
  (Zpos p <= 2 ^ 63)%Z -> (F64.of_Z (Zneg p) <? 0) = true.
Proof.
  intros Hp.
  destruct (Z.eq_dec (Zpos p) (2 ^ 63)) as [E|E].
  { change (2 ^ 63)%Z with (Zpos 9223372036854775808) in E.
    injection E as ->. vm_compute. reflexivity. }
  rewrite (of_Z_neg_prim p) by lia.
  rewrite FloatAxioms.ltb_spec, Prim2SF_zero, opp_spec, of_uint63_spec.
  rewrite Uint63.of_Z_spec, Z.mod_small by (change Uint63.wB with (2 ^ 63)%Z; lia).
  cbn [binary_normalize]. rewrite <- binary_round_opp.
  apply (binary_normalize_neg p 0). lia.
Qed.

(** The sign of a converted [int64] is the sign of the integer. *)
Lemma np_sign_of_Z z :
  (- 2 ^ 63 <= z < 2 ^ 63)%Z ->
  np_sign (F64.of_Z z) = if (0 <? z)%Z then 1 else if (z <? 0)%Z then -1 else 0.
Proof.
  intros Hz. unfold np_sign. destruct z as [|p|p].
  - reflexivity.
  - rewrite (of_Z_pos_sign p) by lia. reflexivity.
  - pose proof (of_Z_neg_sign p ltac:(lia)) as Hneg. rewrite Hneg.
    destruct (0 <? F64.of_Z (Z.neg p)) eqn:Hpos; [|reflexivity].
    exfalso. apply f64_ltb_not_leb in Hpos. apply f64_ltb_leb in Hneg. congruence.
Qed.

Lemma length_int_diff l : length (int_diff l) = length l.
Proof.
  unfold int_diff. rewrite length_zip_with. cbn [length].
  rewrite length_fmap. lia.
Qed.

Lemma lookup_int_direction_0 l :
  l <> [] ->
  Pd.fillna 0 (np_sign <$> series_diff (IntCol l)) !! 0%nat = Some 0.
Proof.
  intros Hl. destruct l as [|x l]; [congruence|]. reflexivity.
Qed.

Lemma lookup_int_direction_S l i c c' :
  l !! i = Some c -> l !! S i = Some c' ->
  Pd.fillna 0 (np_sign <$> series_diff (IntCol l)) !! S i
  = Some (if (0 <? wrap64 (c' - c))%Z then 1
          else if (wrap64 (c' - c) <? 0)%Z then -1 else 0).
Proof.
  intros Hc Hc'. rewrite lookup_fillna, list_lookup_fmap.
  cbn [series_diff]. unfold int_diff. rewrite lookup_zip_with, Hc'.
  change ((None :: (Some <$> l)) !! S i) with ((Some <$> l) !! i).
  rewrite list_lookup_fmap, Hc.
  cbn [mbind option_bind fmap option_fmap option_map].
  rewrite (np_sign_of_Z _ (wrap64_bounds (c' - c))).
  destruct (0 <? wrap64 (c' - c))%Z; [reflexivity|].
  destruct (wrap64 (c' - c) <? 0)%Z; reflexivity.
Qed.

Lemma length_direction close :
  length (Pd.fillna 0 (np_sign <$> series_diff close)) = col_length close.
Proof.
  rewrite length_fillna, length_fmap. destruct close as [l|s].
  - apply length_int_diff.
  - cbn [series_diff col_length]. rewrite length_zip_with, length_shift. lia.
Qed.

(** Every direction is 0, 1 or -1. *)
Lemma direction_values close i d :
  Pd.fillna 0 (np_sign <$> series_diff close) !! i = Some d ->
  d = 0 \/ d = 1 \/ d = -1.
Proof.
  intros Hd.
  assert (Hi : (i < col_length close)%nat).
  { rewrite <- length_direction. eapply lookup_lt_Some; exact Hd. }
  destruct close as [l|s]; cbn [col_length] in Hi.
  - destruct i as [|i].
    + rewrite lookup_int_direction_0 in Hd
        by (intros E; rewrite E in Hi; cbn in Hi; lia).
      injection Hd as <-. auto.
    + destruct (lookup_lt_is_Some_2 l (S i) Hi) as (c' & Hc').
      destruct (lookup_lt_is_Some_2 l i ltac:(lia)) as (c & Hc).
      rewrite (lookup_int_direction_S l i c c' Hc Hc') in Hd. injection Hd as <-.
      destruct (0 <? wrap64 (c' - c))%Z; [auto|].
      destruct (wrap64 (c' - c) <? 0)%Z; auto.
  - destruct i as [|i].
    + rewrite lookup_direction_0 in Hd
        by (intros E; rewrite E in Hi; cbn in Hi; lia).
      injection Hd as <-. auto.
    + destruct (lookup_lt_is_Some_2 s (S i) Hi) as (c' & Hc').
      destruct (lookup_lt_is_Some_2 s i ltac:(lia)) as (c & Hc).
      rewrite (lookup_direction_S s i c c' Hc Hc') in Hd. injection Hd as <-.
      destruct (c <? c'); [auto|]. destruct (c' <? c); auto.
Qed.

(** *** Running sums *)

Lemma accumulate_from_step f : forall t a i o y,
  (a :: Pd.accumulate_from f a t) !! i = Some o -> t !! i = Some y ->
  Pd.accumulate_from f a t !! i = Some (f o y).
Proof.
  induction t as [|y0 t IH]; intros a i o y Ho Hy; [discriminate Hy|].
  destruct i as [|i].
  - cbn in Ho, Hy. injection Ho as <-. injection Hy as <-. reflexivity.
  - cbn in Ho, Hy. cbn [Pd.accumulate_from]. cbv zeta. cbn [lookup list_lookup].
    apply IH; assumption.
Qed.

Lemma accumulate_step f s i o y :
  Pd.accumulate f s !! i = Some o -> s !! S i = Some y ->
  Pd.accumulate f s !! S i = Some (f o y).
Proof.
  destruct s as [|x t]; [discriminate|]. cbn [Pd.accumulate].
  intros Ho Hy. cbn in Hy. cbn [lookup list_lookup].
  apply accumulate_from_step; assumption.
Qed.

Lemma fillna_id v s : Forall notnan s -> Pd.fillna v s = s.
Proof.
  intros H. unfold Pd.fillna. induction H as [|x s Hx _ IH]; [reflexivity|].
  cbn [fmap list_fmap]. unfold notnan in Hx. rewrite Hx. f_equal. exact IH.
Qed.

(** Without NaN entries a cumulative function is the plain accumulation. *)
Lemma na_accum_notnan f v s :
  Forall notnan s -> Pd.na_accum f v s = Pd.accumulate f s.
Proof.
  intros H. unfold Pd.na_accum. rewrite (fillna_id v s H).
  apply list_eq. intros i. rewrite lookup_zip_with.
  destruct (s !! i) as [x|] eqn:Ex.
  - cbn [mbind option_bind].
    destruct (Pd.accumulate f s !! i) as [r|] eqn:Er; [|reflexivity].
    cbn. rewrite (Forall_lookup_1 _ _ _ _ H Ex). reflexivity.
  - cbn. symmetry. apply lookup_ge_None. rewrite length_accumulate.
    apply lookup_ge_None. exact Ex.
Qed.

(** X19 (on-balance volume).  [compute_obv] raises [KeyError] when the
    [Close] or the [Volume] column is missing.  On columns of one length
    with finite volumes it returns one value per row: the first is
    [0 * volume[0]], and each next one is the previous one plus the
    volume of the row on a rise of the close, minus it on a fall, and plus
    [0 * volume] when the close has not moved or, for a float column, is
    missing.  A float close rises when it compares greater than the one
    before.  An integer close rises or falls by the sign of the [int64]
    difference, which is taken before any conversion to float and wraps
    around; when the difference fits [int64] that is the order of the
    two integers, also for integers that convert to the same float. *)
Theorem compute_obv_steps (df : DataFrame) :
  (df_cols df !! "Close"%string = None ->
   compute_obv df = (inl KeyError, df)) /\
  (forall close, df_cols df !! "Close"%string = Some close ->
     df_cols df !! "Volume"%string = None ->
     compute_obv df = (inl KeyError, df)) /\
  (forall close volume,
     df_cols df !! "Close"%string = Some close ->
     df_cols df !! "Volume"%string = Some volume ->
     col_length close = col_length volume ->
     Forall (fun v => F64.isfinite v = true) (to_floats volume) ->
     exists obv,
       compute_obv df = (inr obv, df) /\
       length obv = col_length close /\
       (forall v, to_floats volume !! 0%nat = Some v ->
                  obv !! 0%nat = Some (0 * v)) /\
       (forall s i c c' v o,
          close = FloatCol s ->
          s !! i = Some c ->
          s !! S i = Some c' ->
          to_floats volume !! S i = Some v ->
          obv !! i = Some o ->
          obv !! S i =
            Some (o + (if c <? c' then 1 else if c' <? c then -1 else 0) * v)) /\
       (forall l i c c' v o,
          close = IntCol l ->
          l !! i = Some c ->
          l !! S i = Some c' ->
          to_floats volume !! S i = Some v ->
          obv !! i = Some o ->
          obv !! S i =
            Some (o + (if (0 <? wrap64 (c' - c))%Z then 1
                       else if (wrap64 (c' - c) <? 0)%Z then -1 else 0) * v) /\
          ((- 2 ^ 63 <= c' - c < 2 ^ 63)%Z ->
           obv !! S i =
             Some (o + (if (c <? c')%Z then 1
                        else if (c' <? c)%Z then -1 else 0) * v)))).
Proof.
  split; [|split].
  - intros Hc. unfold compute_obv, bind, getitem. rewrite Hc. reflexivity.
  - intros close Hc Hv. unfold compute_obv, bind, getitem. rewrite Hc, Hv. reflexivity.
  - intros close volume Hc Hv Hlen Hfin.
    unfold compute_obv, bind, getitem, ret. rewrite Hc, Hv.
    set (vs := to_floats volume).
    set (direction := Pd.fillna 0 (np_sign <$> series_diff close)).
    set (p := zip_with PrimFloat.mul direction vs).
    assert (Hlv : length vs = col_length close)
      by (unfold vs; rewrite length_to_floats; lia).
    assert (Hld : length direction = col_length close) by apply length_direction.
    assert (Hp : Forall notnan p).
    { apply Forall_lookup_2. intros i x Hx. unfold p in Hx.
      rewrite lookup_zip_with in Hx.
      destruct (direction !! i) as [d|] eqn:Ed; [|discriminate Hx].
      destruct (vs !! i) as [v|] eqn:Ev; [|discriminate Hx].
      cbn in Hx. injection Hx as <-.
      apply f64_mul_finite_notnan.
      - destruct (direction_values close i d Ed) as [->|[->| ->]]; reflexivity.
      - exact (Forall_lookup_1 _ _ _ _ Hfin Ev). }
    exists (series_cumsum p). split; [reflexivity|].
    unfold series_cumsum. rewrite (na_accum_notnan _ _ _ Hp).
    split; [|split; [|split]].
    + rewrite length_accumulate. unfold p. rewrite length_zip_with. lia.
    + intros v Hv0.
      assert (Hpos : (0 < col_length close)%nat).
      { apply lookup_lt_Some in Hv0. fold vs in Hv0. lia. }
      assert (Hd0 : direction !! 0%nat = Some 0).
      { unfold direction. destruct close as [l|s]; cbn [col_length] in Hpos.
        - apply lookup_int_direction_0. intros E. rewrite E in Hpos. cbn in Hpos. lia.
        - apply lookup_direction_0. intros E. rewrite E in Hpos. cbn in Hpos. lia. }
      assert (Hp0 : p !! 0%nat = Some (0 * v)).
      { unfold p. rewrite lookup_zip_with, Hd0. fold vs in Hv0. rewrite Hv0.
        reflexivity. }
      destruct p as [|x t]; [discriminate Hp0|]. cbn in Hp0 |- *. exact Hp0.
    + intros s i c c' v o -> Hci Hci' Hvi Ho.
      apply accumulate_step; [exact Ho|].
      unfold p. rewrite lookup_zip_with. unfold direction.
      rewrite (lookup_direction_S s i c c' Hci Hci'). fold vs in Hvi.
      rewrite Hvi. reflexivity.
    + intros l i c c' v o -> Hci Hci' Hvi Ho.
      assert (Hstep : Pd.accumulate PrimFloat.add p !! S i =
                Some (o + (if (0 <? wrap64 (c' - c))%Z then 1
                           else if (wrap64 (c' - c) <? 0)%Z then -1 else 0) * v)).
      { apply accumulate_step; [exact Ho|].
        unfold p. rewrite lookup_zip_with. unfold direction.
        rewrite (lookup_int_direction_S l i c c' Hci Hci'). fold vs in Hvi.
        rewrite Hvi. reflexivity. }
      split; [exact Hstep|].
      intros Hfit. rewrite Hstep, (wrap64_small _ Hfit).
      replace (0 <? c' - c)%Z with (c <? c')%Z
        by (destruct (Z.ltb_spec c c'), (Z.ltb_spec 0 (c' - c)); lia || reflexivity).
      replace (c' - c <? 0)%Z with (c' <? c)%Z
        by (destruct (Z.ltb_spec c' c), (Z.ltb_spec (c' - c) 0); lia || reflexivity).
      reflexivity.
Qed.

Lemma compute_obv_steps_witness :
  (exists obv,
    compute_obv obv_example = (inr obv, obv_example) /\
    length obv = 6%nat /\
    (forall v, (F64.of_Z <$> [100; 200; 300; 400; 500; 600]%Z) !! 0%nat = Some v ->
               obv !! 0%nat = Some (0 * v)) /\
    (forall s i c c' v o,
       FloatCol [10; 11; 11; 9; nan; 12] = FloatCol s ->
       s !! i = Some c ->
       s !! S i = Some c' ->
       (F64.of_Z <$> [100; 200; 300; 400; 500; 600]%Z) !! S i = Some v ->
       obv !! i = Some o ->
       obv !! S i =
         Some (o + (if c <? c' then 1 else if c' <? c then -1 else 0) * v)) /\
    (forall l i c c' v o,
       FloatCol [10; 11; 11; 9; nan; 12] = IntCol l ->
       l !! i = Some c ->
       l !! S i = Some c' ->
       (F64.of_Z <$> [100; 200; 300; 400; 500; 600]%Z) !! S i = Some v ->
       obv !! i = Some o ->
       obv !! S i =
         Some (o + (if (0 <? wrap64 (c' - c))%Z then 1
                    else if (wrap64 (c' - c) <? 0)%Z then -1 else 0) * v) /\
       ((- 2 ^ 63 <= c' - c < 2 ^ 63)%Z ->
        obv !! S i =
          Some (o + (if (c <? c')%Z then 1
                     else if (c' <? c)%Z then -1 else 0) * v)))) /\
  (exists obv,
    compute_obv obv_int_example = (inr obv, obv_int_example) /\
    length obv = 3%nat /\
    (forall v, (F64.of_Z <$> [1; 1; 1]%Z) !! 0%nat = Some v ->
               obv !! 0%nat = Some (0 * v)) /\
    (forall s i c c' v o,
       IntCol [9007199254740992; 9007199254740993; 9007199254740992]%Z = FloatCol s ->
       s !! i = Some c ->
       s !! S i = Some c' ->
       (F64.of_Z <$> [1; 1; 1]%Z) !! S i = Some v ->
       obv !! i = Some o ->
       obv !! S i =
         Some (o + (if c <? c' then 1 else if c' <? c then -1 else 0) * v)) /\
    (forall l i c c' v o,
       IntCol [9007199254740992; 9007199254740993; 9007199254740992]%Z = IntCol l ->
       l !! i = Some c ->
       l !! S i = Some c' ->
       (F64.of_Z <$> [1; 1; 1]%Z) !! S i = Some v ->
       obv !! i = Some o ->
       obv !! S i =
         Some (o + (if (0 <? wrap64 (c' - c))%Z then 1
                    else if (wrap64 (c' - c) <? 0)%Z then -1 else 0) * v) /\
       ((- 2 ^ 63 <= c' - c < 2 ^ 63)%Z ->
        obv !! S i =
          Some (o + (if (c <? c')%Z then 1
                     else if (c' <? c)%Z then -1 else 0) * v)))).
Proof.
  split.
  - apply (proj2 (proj2 (compute_obv_steps obv_example))
             (FloatCol [10; 11; 11; 9; nan; 12])
             (IntCol [100; 200; 300; 400; 500; 600]%Z)).
    + reflexivity.
    + reflexivity.
    + reflexivity.
    + cbn. repeat constructor.
  - apply (proj2 (proj2 (compute_obv_steps obv_int_example))
             (IntCol [9007199254740992; 9007199254740993; 9007199254740992]%Z)
             (IntCol [1; 1; 1]%Z)).
    + reflexivity.
    + reflexivity.
    + reflexivity.
    + cbn. repeat constructor.
Defined.

(** The on-balance volume of integer prices that convert to the same
    float: the rise and the fall by one are counted. *)
Example compute_obv_int64 :
  compute_obv obv_int_example = (inr [0; 1; 0], obv_int_example) /\
  F64.of_Z 9007199254740993 = F64.of_Z 9007199254740992.
Proof. split; vm_compute; reflexivity. Qed.
